(** * MBS equiper: strip policy, equip ordering and the equip transaction

    A shallow embedding of [src/equiper.ts] (the wheel-of-fortune equip
    module of MBS) together with the properties its specification states.

    Conventions of the embedding:
    - a JavaScript object with identity lives in a store; a reference is an
      index into that store ([cref] for characters, [iref] for worn item
      instances, [loc] for plain objects such as property bags);
    - a function that may throw returns a [result]; a function that mutates
      the game state takes and returns a [World];
    - the Bondage Club engine functions the module calls ([AssetGet],
      [InventoryGet], ...) are the fields of an [Engine] record;
    - recursion that the source does not bound takes a [fuel] argument and
      answers [OutOfFuel] when it is exhausted. *)

From stdpp Require Import base list strings gmap pretty.
From Stdlib Require Import ZArith Lia.

(** ** JavaScript values shared by the whole development *)

(** The double-quote character, used inside thrown messages. *)
Definition dq : string := String (Ascii.ascii_of_nat 34) EmptyString.

(** Outcome of a call: a value, a thrown message, or exhausted fuel. *)
Inductive result (A : Type) : Type :=
| Returned (a : A)
| Thrown (msg : string)
| OutOfFuel.
Arguments Returned {A} a.
Arguments Thrown {A} msg.
Arguments OutOfFuel {A}.

(** A JavaScript number as far as this module needs it: an integer or one
    of the two infinities. *)
Inductive number : Type :=
| NegInf
| Fin (z : Z)
| PosInf.

Definition num_add (a b : number) : number :=
  match a, b with
  | Fin x, Fin y => Fin (x + y)%Z
  | NegInf, _ | _, NegInf => NegInf
  | _, _ => PosInf
  end.

Definition num_max (a b : number) : number :=
  match a, b with
  | PosInf, _ | _, PosInf => PosInf
  | NegInf, x | x, NegInf => x
  | Fin x, Fin y => Fin (Z.max x y)
  end.

Definition num_ltb (a b : number) : bool :=
  match a, b with
  | NegInf, NegInf => false
  | NegInf, _ => true
  | Fin x, Fin y => (x <? y)%Z
  | Fin _, PosInf => true
  | _, _ => false
  end.

Definition num_leb (a b : number) : bool := negb (num_ltb b a).

(** [Math.max(...xs)]; with no argument the answer is [-Infinity]. *)
Definition Math_max (xs : list number) : number := foldr num_max NegInf xs.

(** ** Numbers inside template literals

    A template literal turns a Number into text with [Number::toString].
    The Numbers this module prints have integer values, so they are integers
    here.  Up to [2 ^ 53] every integer is a Number and is printed digit for
    digit.  Beyond, Numbers are spaced apart, and the text is the shortest
    digit string that reads back as the same Number (the one nearest to it
    when several of that length do), written out in full below [10 ^ 21]
    and with an exponent from there on. *)

(** [Number.MAX_SAFE_INTEGER] *)
Definition MAX_SAFE_INTEGER : Z := (2 ^ 53 - 1)%Z.

(** The Number that a non-negative integer reads as: the nearest one, the
    one with the even significand when two are equally near.  An answer of
    [2 ^ 1024] or more stands for [Infinity]. *)
Definition roundToNumber (z : Z) : Z :=
  if (z <=? MAX_SAFE_INTEGER)%Z then z
  else
    let ulp := (2 ^ (Z.log2 z - 52))%Z in
    let q := (z / ulp)%Z in
    let r := (z mod ulp)%Z in
    let q' :=
      if (2 * r <? ulp)%Z then q
      else if (ulp <? 2 * r)%Z then (q + 1)%Z
      else if Z.even q then q else (q + 1)%Z in
    (q' * ulp)%Z.

(** Among the multiples of [10 ^ j] that read back as [x], the nearest to
    [x]; of two equally near, the one with the even last digit. *)
Definition nearestMultiple (x : Z) (j : nat) : option Z :=
  let p := (10 ^ Z.of_nat j)%Z in
  let lo := (x / p * p)%Z in
  let hi := (lo + p)%Z in
  let okLo := (0 <? lo)%Z && (roundToNumber lo =? x)%Z in
  let okHi := (roundToNumber hi =? x)%Z in
  if okLo && okHi then
    if (x - lo <? hi - x)%Z then Some lo
    else if (hi - x <? x - lo)%Z then Some hi
    else if Z.even (lo / p) then Some lo else Some hi
  else if okLo then Some lo
  else if okHi then Some hi
  else None.

(** The fewest significant digits: the most trailing zeros, searched from
    [j] zeros downwards. *)
Fixpoint shortest (x : Z) (j : nat) : Z * nat :=
  match nearestMultiple x j with
  | Some v => (v, j)
  | None =>
      match j with
      | O => (x, O)
      | S j' => shortest x j'
      end
  end.

(** [`${z}`] for the Number of value [z] (for an integer that is not a
    Number, the Number it reads as). *)
Definition Number_toString (z : Z) : string :=
  if (Z.abs z <=? MAX_SAFE_INTEGER)%Z then pretty z
  else
    let sign := if (z <? 0)%Z then "-"%string else EmptyString in
    let x := roundToNumber (Z.abs z) in
    if (2 ^ 1024 <=? x)%Z then sign +:+ "Infinity"
    else
      let '(v, j) := shortest x (S (Z.to_nat (Z.log2 x / 3))) in
      let n := String.length (pretty v) in
      if (n <=? 21)%nat then sign +:+ pretty v
      else
        match pretty (v / 10 ^ Z.of_nat j)%Z with
        | String d EmptyString =>
            sign +:+ String d EmptyString +:+ "e+" +:+ pretty (n - 1)%nat
        | String d rest =>
            sign +:+ String d EmptyString +:+ "." +:+ rest +:+ "e+" +:+ pretty (n - 1)%nat
        | EmptyString => EmptyString
        end.

(** A value handed to a parameter typed as an array: either a real array or
    something else, of which only [typeof] is observed. *)
Inductive jsarg (A : Type) : Type :=
| JsArray (l : list A)
| JsOther (typeof : string).
Arguments JsArray {A} l.
Arguments JsOther {A} typeof.

(** ** Data model *)

(** References: to a character, to a worn item instance, to a plain
    object. *)
Abbreviation cref := nat.
Abbreviation iref := nat.
Abbreviation loc := nat.

Module AssetGroup.
Record t : Type := {
  Name : string;
  Category : string;
  AllowNone : bool;
  Underwear : bool
}.
End AssetGroup.

Module Asset.
Record t : Type := {
  Name : string;
  Description : string;
  Group : AssetGroup.t;
  BodyCosplay : bool;
  Block : option (list string);
  DefaultColor : list string;
  Prerequisite : list string;
  OwnerOnly : bool;
  LoverOnly : bool
}.
End Asset.

Module CraftingItem.
Record t : Type := {
  Name : string;
  Property : option string;
  Lock : string
}.
End CraftingItem.

(** Plain objects: own properties in insertion order. *)
Inductive val : Type :=
| VUndefined
| VNull
| VBool (b : bool)
| VNumber (z : Z)
| VString (s : string)
| VRef (l : loc).

Abbreviation obj := (list (string * val)).

Module Item.
Record t : Type := {
  Asset : Asset.t;
  Craft : option CraftingItem.t;
  Property : option loc;
  Color : list string;
  Difficulty : Z
}.
End Item.

Module SharedSettings.
Record t : Type := {
  BlockBodyCosplay : option bool
}.
End SharedSettings.

Module Character.
Record t : Type := {
  Appearance : list iref;
  AssetFamily : string;
  IsSimple : bool;
  IsPlayer : bool;
  OnlineSharedSettings : option SharedSettings.t;
  MemberNumber : option Z
}.
End Character.

(** The mutable game state: the character objects, the worn item instances,
    the plain-object heap and what was written to the console. *)
Record World : Type := {
  chars : cref -> Character.t;
  items : iref -> Item.t;
  objs : list obj;
  console : list (string * gmap string (list string))
}.

Definition set_char (w : World) (c : cref) (ch : Character.t) : World :=
  {| chars := fun c' => if Nat.eqb c' c then ch else chars w c';
     items := items w; objs := objs w; console := console w |}.

Definition set_item (w : World) (i : iref) (it : Item.t) : World :=
  {| chars := chars w;
     items := fun i' => if Nat.eqb i' i then it else items w i';
     objs := objs w; console := console w |}.

Definition set_objs (w : World) (h : list obj) : World :=
  {| chars := chars w; items := items w; objs := h; console := console w |}.

Definition set_appearance (w : World) (c : cref) (app : list iref) : World :=
  let ch := chars w c in
  set_char w c
    {| Character.Appearance := app;
       Character.AssetFamily := Character.AssetFamily ch;
       Character.IsSimple := Character.IsSimple ch;
       Character.IsPlayer := Character.IsPlayer ch;
       Character.OnlineSharedSettings := Character.OnlineSharedSettings ch;
       Character.MemberNumber := Character.MemberNumber ch |}.

(** ** Strip policy *)

Module StripLevel.
Definition NONE : Z := 0%Z.
Definition CLOTHES : Z := 1%Z.
Definition UNDERWEAR : Z := 2%Z.
Definition COSPLAY : Z := 3%Z.
Definition ALL : Z := 4%Z.
End StripLevel.

(** [character.OnlineSharedSettings?.BlockBodyCosplay ?? true] *)
Definition blockBodyCosplay (w : World) (character : cref) : bool :=
  match Character.OnlineSharedSettings (chars w character) with
  | Some s =>
      match SharedSettings.BlockBodyCosplay s with
      | Some b => b
      | None => true
      end
  | None => true
  end.

(** The returned predicate closes over [character]; it reads the
    character's settings when it is called, hence its [World] argument. *)
Definition getStripCondition (stripLevel : Z) (character : cref)
  : result (World -> Asset.t -> bool) :=
  if (stripLevel =? StripLevel.NONE)%Z then
    Returned (fun _ _ => false)
  else if (stripLevel =? StripLevel.CLOTHES)%Z then
    Returned (fun _ asset =>
      AssetGroup.AllowNone (Asset.Group asset)
      && negb (Asset.BodyCosplay asset)
      && negb (AssetGroup.Underwear (Asset.Group asset)))
  else if (stripLevel =? StripLevel.UNDERWEAR)%Z then
    Returned (fun _ asset =>
      AssetGroup.AllowNone (Asset.Group asset) && negb (Asset.BodyCosplay asset))
  else if (stripLevel =? StripLevel.COSPLAY)%Z then
    Returned (fun w asset =>
      if blockBodyCosplay w character
      then AssetGroup.AllowNone (Asset.Group asset) && negb (Asset.BodyCosplay asset)
      else AssetGroup.AllowNone (Asset.Group asset))
  else if (stripLevel =? StripLevel.ALL)%Z then
    Returned (fun w asset =>
      if blockBodyCosplay w character
      then AssetGroup.AllowNone (Asset.Group asset) && negb (Asset.BodyCosplay asset)
      else true)
  else
    Thrown ("Invalid " +:+ dq +:+ "stripLevel" +:+ dq +:+ " value: "
              +:+ Number_toString stripLevel).

(** The body of the [for] loop of [characterStrip] for index [i]. *)
Definition stripAt (stripCondition : World -> Asset.t -> bool)
    (character : cref) (w : World) (i : nat) : World :=
  let appearance := Character.Appearance (chars w character) in
  match appearance !! i with
  | None => w
  | Some r =>
      let asset := Item.Asset (items w r) in
      if AssetGroup.AllowNone (Asset.Group asset)
         && String.eqb (AssetGroup.Category (Asset.Group asset)) "Appearance"
         && stripCondition w asset
      then set_appearance w character (delete i appearance)
      else w
  end.

(** [for (let i = n - 1; i >= 0; i--)] *)
Fixpoint stripLoop (stripCondition : World -> Asset.t -> bool)
    (character : cref) (n : nat) (w : World) : World :=
  match n with
  | O => w
  | S i => stripLoop stripCondition character i (stripAt stripCondition character w i)
  end.

(** [character] is a reference that may be null. *)
Definition characterStrip (stripLevel : Z) (character : option cref) (w : World)
  : result unit * World :=
  match character with
  | None => (Thrown "Expected a simple or player character", w)
  | Some c =>
      if negb (Character.IsSimple (chars w c) || Character.IsPlayer (chars w c)) then
        (Thrown "Expected a simple or player character", w)
      else
        match getStripCondition stripLevel c with
        | Returned stripCondition =>
            let n := length (Character.Appearance (chars w c)) in
            (Returned tt, stripLoop stripCondition c n w)
        | Thrown msg => (Thrown msg, w)
        | OutOfFuel => (OutOfFuel, w)
        end
  end.

(** ** Item descriptors and the engine the module runs against *)

Module FortuneWheelItem.
Record t : Type := {
  Name : string;
  Group : string;
  Color : option (list string);
  Equip : option (World -> bool);
  Craft : option CraftingItem.t;
  ItemCallback : option (iref -> cref -> World -> World);
  Custom : bool;
  Type_ : option string;
  Property : loc
}.
End FortuneWheelItem.

(** What [itemsArgSort] reads of the property bag that
    [getBaselineProperty] hands back. *)
Module ItemProperties.
Record t : Type := {
  Block : option (list string)
}.
End ItemProperties.

(** The functions of the game engine (and of the sibling module
    [type_setting]) that [equiper.ts] calls.  Queries read the world,
    commands return the world they leave behind. *)
Record Engine : Type := {
  AssetGet : string -> string -> string -> option Asset.t;
  getBaselineProperty : World -> Asset.t -> cref -> option string -> ItemProperties.t;
  InventoryGet : World -> cref -> string -> option iref;
  InventoryGetLock : World -> iref -> option Item.t;
  InventoryItemHasEffect : World -> iref -> string -> bool;
  InventoryBlockedOrLimited : World -> cref -> Asset.t -> bool;
  InventoryAllow : World -> cref -> Asset.t -> list string -> bool;
  InventoryGroupIsBlocked : World -> cref -> string -> bool;
  InventoryRemove : World -> cref -> string -> World;
  SkillGetWithRatio : World -> string -> Z;
  CharacterAppearanceSetItem :
    World -> cref -> string -> Asset.t -> list string -> Z -> option Z -> World;
  itemSetType : World -> iref -> cref -> option string -> World;
  InventoryCraft : World -> cref -> cref -> string -> option CraftingItem.t -> World;
  CharacterRefresh : World -> cref -> bool -> bool -> World;
  ChatRoomCharacterUpdate : World -> cref -> World
}.

(** ** JavaScript collections *)

(** Iterating a string yields its characters, each as a string. *)
Fixpoint string_iter (s : string) : list string :=
  match s with
  | EmptyString => []
  | String ch rest => String ch EmptyString :: string_iter rest
  end.

(** A [Set] of strings: its members in insertion order. *)
Definition Set_add (s : list string) (x : string) : list string :=
  if bool_decide (x ∈ s) then s else s ++ [x].

(** [new Set(iterable)] *)
Definition Set_of (iterable : list string) : list string :=
  fold_left Set_add iterable [].

(** [new Set(...args)]: the constructor reads its first argument only, as
    the iterable that supplies the members; [new Set()] is empty. *)
Definition Set_new (args : list string) : list string :=
  match args with
  | [] => []
  | iterable :: _ => Set_of (string_iter iterable)
  end.

(** A [Map] with string keys: its entries in insertion order. *)
Fixpoint Map_get {V : Type} (m : list (string * V)) (k : string) : option V :=
  match m with
  | [] => None
  | (k', v) :: rest => if String.eqb k' k then Some v else Map_get rest k
  end.

(** [m.set(k, v)]: an existing key keeps its place. *)
Fixpoint Map_set {V : Type} (m : list (string * V)) (k : string) (v : V)
  : list (string * V) :=
  match m with
  | [] => [(k, v)]
  | (k', v') :: rest =>
      if String.eqb k' k then (k', v) :: rest else (k', v') :: Map_set rest k v
  end.

(** ** [Array.prototype.sort] with a comparison function

    ECMAScript leaves the order implementation-defined when the comparison
    function is not a consistent comparator.  The definitions below follow
    V8 (Chrome, Node.js) on an array of fewer than 64 elements: the longest
    run at the start of the array is found ([CountAndMakeRun]) and the
    remaining elements are inserted into it one by one
    ([BinaryInsertionSort]).  On longer arrays V8 goes on to cut the array
    into several runs and to merge them; that part is not modelled, and
    nothing below is stated about arrays that long unless the first run
    already covers the whole array, where V8 stops as well.

    V8 hands the later element to the comparison function first: on
    [[x; y]] the call is [comparefn y x]. *)

Section ArraySort.
Context {A : Type} (comparefn : A -> A -> number).

(** [order < 0] *)
Definition isNegative (order : number) : bool := num_ltb order (Fin 0).

(** The loop of [CountAndMakeRun]: how many more elements extend the run. *)
Fixpoint extendRun (isDescending : bool) (previousElement : A) (rest : list A) : nat :=
  match rest with
  | [] => O
  | currentElement :: rest' =>
      let order := comparefn currentElement previousElement in
      if isDescending then
        if negb (isNegative order) then O
        else S (extendRun isDescending currentElement rest')
      else
        if isNegative order then O
        else S (extendRun isDescending currentElement rest')
  end.

(** Length of the run starting at index 0; a descending run is reversed in
    place. *)
Definition CountAndMakeRun (workArray : list A) : list A * nat :=
  match workArray with
  | [] => (workArray, O)
  | [_] => (workArray, 1%nat)
  | elementHigh :: elementLow :: rest =>
      let order := comparefn elementLow elementHigh in
      let isDescending := isNegative order in
      let runLength := (2 + extendRun isDescending elementLow rest)%nat in
      if isDescending
      then (rev (take runLength workArray) ++ drop runLength workArray, runLength)
      else (workArray, runLength)
  end.

(** The binary search of [BinaryInsertionSort]; [n] bounds the number of
    halvings and is never exhausted when it starts above [right - left]. *)
Fixpoint insertionPoint (n : nat) (pivot : A) (workArray : list A) (left right : nat) : nat :=
  match n with
  | O => left
  | S n' =>
      if (left <? right)%nat then
        let mid := (left + (right - left) / 2)%nat in
        match workArray !! mid with
        | Some x =>
            if isNegative (comparefn pivot x)
            then insertionPoint n' pivot workArray left mid
            else insertionPoint n' pivot workArray (S mid) right
        | None => left
        end
      else left
  end.

(** [n] elements remain to be inserted, the next one sits at [start]. *)
Fixpoint BinaryInsertionSort (n : nat) (start : nat) (workArray : list A) : list A :=
  match n with
  | O => workArray
  | S n' =>
      match workArray !! start with
      | None => workArray
      | Some pivot =>
          let left := insertionPoint (S start) pivot workArray O start in
          let moved :=
            take left workArray ++ pivot :: take (start - left) (drop left workArray)
              ++ drop (S start) workArray in
          BinaryInsertionSort n' (S start) moved
      end
  end.

Definition Array_sort (array : list A) : list A :=
  if (length array <? 2)%nat then array
  else
    let '(workArray, runLength) := CountAndMakeRun array in
    if (runLength <? length array)%nat
    then BinaryInsertionSort (length array - runLength) runLength workArray
    else workArray.

End ArraySort.

(** ** Equip ordering: the blocking graph and its priorities *)

(** Sorting graph node; [priority] stays unset until the node is resolved. *)
Record Node : Type := {
  block : list string;
  priority : option number
}.

(** [Map<AssetGroupName, Node>].  Every node object is stored under exactly
    one key, so a reference to a node is represented by that key. *)
Definition Graph := list (string * Node).

(** [graph.get(group)]: a node reference, or [undefined]. *)
Definition Graph_get (graph : Graph) (group : string) : option string :=
  match Map_get graph group with
  | Some _ => Some group
  | None => None
  end.

(** [node.priority = p] for the node stored under [key]. *)
Definition set_priority (graph : Graph) (key : string) (p : number) : Graph :=
  match Map_get graph key with
  | Some nd => Map_set graph key {| block := block nd; priority := Some p |}
  | None => graph
  end.

(** The [for (const group of node.block)] loop of [itemsArgSortDFS], over
    the recursive call [dfs]. *)
Definition blockLoop (dfs : Graph -> option string -> option (Graph * number))
  : list string -> Graph -> list number -> option (Graph * list number) :=
  fix loop (groups : list string) (graph : Graph) (priorities : list number) :=
    match groups with
    | [] => Some (graph, priorities)
    | group :: groups' =>
        match dfs graph (Graph_get graph group) with
        | None => None
        | Some (graph', p) => loop groups' graph' (priorities ++ [p])
        end
    end.

(** Depth-first-search helper; the graph is threaded because resolved
    priorities are written into its nodes.  [None] stands for a recursion
    deeper than [fuel]. *)
Fixpoint itemsArgSortDFS (fuel : nat) (graph : Graph) (node : option string)
  : option (Graph * number) :=
  match fuel with
  | O => None
  | S fuel' =>
      match node with
      | None => Some (graph, Fin (-1))
      | Some key =>
          match Map_get graph key with
          | None => Some (graph, Fin (-1))
          | Some nd =>
              match priority nd with
              | Some p => Some (graph, p)
              | None =>
                  if (length (block nd) =? 0)%nat then
                    Some (set_priority graph key (Fin 0), Fin 0)
                  else
                    match blockLoop (itemsArgSortDFS fuel') (block nd) graph [] with
                    | None => None
                    | Some (graph', priorities) =>
                        let p := num_add (Fin 1) (Math_max priorities) in
                        Some (set_priority graph' key p, p)
                    end
              end
          end
      end
  end.

(** A minimalistic item representation as used in [itemsArgSort]. *)
Module SimpleItem.
Record t : Type := {
  Name : string;
  Group : string;
  Type_ : option string
}.
End SimpleItem.

Definition asSimpleItem (item : FortuneWheelItem.t) : SimpleItem.t :=
  {| SimpleItem.Name := FortuneWheelItem.Name item;
     SimpleItem.Group := FortuneWheelItem.Group item;
     SimpleItem.Type_ := FortuneWheelItem.Type_ item |}.

(** [x ?? []] *)
Definition orEmpty (x : option (list string)) : list string :=
  match x with
  | Some l => l
  | None => []
  end.

(** First loop of [itemsArgSort]: map the item groups to what they block. *)
Fixpoint buildGraph (E : Engine) (w : World) (character : cref)
    (itemList : list SimpleItem.t) (graph : Graph) : result Graph :=
  match itemList with
  | [] => Returned graph
  | item :: rest =>
      let Group := SimpleItem.Group item in
      let Name := SimpleItem.Name item in
      match AssetGet E (Character.AssetFamily (chars w character)) Group Name with
      | None => Thrown ("Unknown asset: " +:+ Group +:+ Name)
      | Some asset =>
          if negb (String.eqb (AssetGroup.Category (Asset.Group asset)) "Item") then
            buildGraph E w character rest graph
          else
            let property := getBaselineProperty E w asset character (SimpleItem.Type_ item) in
            let node :=
              {| block := Set_new (orEmpty (Asset.Block asset)
                                   ++ orEmpty (ItemProperties.Block property));
                 priority := None |} in
            buildGraph E w character rest (Map_set graph Group node)
      end
  end.

(** Second loop: resolve every node, in the insertion order of the keys. *)
Fixpoint traverse (fuel : nat) (keys : list string) (graph : Graph) : option Graph :=
  match keys with
  | [] => Some graph
  | key :: keys' =>
      match itemsArgSortDFS fuel graph (Some key) with
      | None => None
      | Some (graph', _) => traverse fuel keys' graph'
      end
  end.

(** Third loop: [sortRecord[group] = node.priority]. *)
Definition collect (graph : Graph) : gmap string (option number) :=
  fold_left (fun sortRecord entry => <[entry.1 := priority entry.2]> sortRecord)
            graph ∅.

Definition itemsArgSort (E : Engine) (fuel : nat) (w : World)
    (itemList : jsarg SimpleItem.t) (character : cref)
  : result (gmap string (option number)) :=
  match itemList with
  | JsOther ty => Thrown ("Invalid " +:+ dq +:+ "itemList" +:+ dq +:+ " type: " +:+ ty)
  | JsArray l =>
      match buildGraph E w character l [] with
      | Returned graph =>
          match traverse fuel (map fst graph) graph with
          | Some graph' => Returned (collect graph')
          | None => OutOfFuel
          end
      | Thrown msg => Thrown msg
      | OutOfFuel => OutOfFuel
      end
  end.

(** [sortRecord[group] ?? Infinity] *)
Definition sortKey (sortRecord : gmap string (option number)) (group : string) : number :=
  match sortRecord !! group with
  | Some (Some p) => p
  | _ => PosInf
  end.

(** The function handed to [sort] takes one parameter; called as a
    comparison function it receives both elements and ignores the second. *)
Definition fortuneItemsSort (E : Engine) (fuel : nat) (w : World)
    (itemList : list FortuneWheelItem.t) (character : cref)
  : result (list FortuneWheelItem.t) :=
  match itemsArgSort E fuel w (JsArray (map asSimpleItem itemList)) character with
  | Returned sortRecord =>
      Returned (Array_sort (fun item _ => sortKey sortRecord (FortuneWheelItem.Group item))
                           itemList)
  | Thrown msg => Thrown msg
  | OutOfFuel => OutOfFuel
  end.

(** ** Unlock rule *)

(** [item.Craft?.Property === "Decoy"] *)
Definition isDecoy (it : Item.t) : bool :=
  match Item.Craft it with
  | Some craft =>
      match CraftingItem.Property craft with
      | Some p => String.eqb p "Decoy"
      | None => false
      end
  | None => false
  end.

(** Return whether the player can unlock the item in question. *)
Definition canUnlock (E : Engine) (w : World) (item : iref) : bool :=
  let lock := option_map Item.Asset (InventoryGetLock E w item) in
  if negb (InventoryItemHasEffect E w item "Lock") then true
  else if isDecoy (items w item) then
    match lock with
    | None => false
    | Some lock => negb (Asset.OwnerOnly lock) && negb (Asset.LoverOnly lock)
    end
  else false.

(** ** Property bags on the heap *)

(** [Object.assign(target, source)] on the own properties of two objects. *)
Definition Object_assign (target source : obj) : obj :=
  fold_left (fun t kv => Map_set t kv.1 kv.2) source target.

(** Copy the fields of an object one after the other with [copy],
    threading the heap. *)
Definition copyFields (copy : list obj -> val -> option (list obj * val))
  : obj -> list obj -> option (list obj * obj) :=
  fix go (fields : obj) (h : list obj) :=
    match fields with
    | [] => Some (h, [])
    | (k, v) :: rest =>
        match copy h v with
        | None => None
        | Some (h1, v') =>
            match go rest h1 with
            | None => None
            | Some (h2, rest') => Some (h2, (k, v') :: rest')
            end
        end
    end.

(** Modelled from the spec: [deepCopy] is imported from the module [common],
    which is not among the sources.  The specification describes it as
    deep-copying its argument so that the result does not alias the input:
    a primitive is returned as it is, an object is rebuilt field by field
    in a newly allocated object.  [None] stands for a structure nested
    deeper than [fuel] (or for a dangling reference, which a JavaScript
    heap does not contain). *)
Fixpoint deepCopy (fuel : nat) (h : list obj) (v : val) : option (list obj * val) :=
  match v with
  | VRef l =>
      match fuel with
      | O => None
      | S fuel' =>
          match h !! l with
          | None => None
          | Some o =>
              match copyFields (deepCopy fuel') o h with
              | None => None
              | Some (h', o') => Some (h' ++ [o'], VRef (length h'))
              end
          end
      end
  | _ => Some (h, v)
  end.

Definition set_item_Property (w : World) (i : iref) (p : option loc) : World :=
  let it := items w i in
  set_item w i
    {| Item.Asset := Item.Asset it; Item.Craft := Item.Craft it;
       Item.Property := p; Item.Color := Item.Color it;
       Item.Difficulty := Item.Difficulty it |}.

Definition set_item_Craft (w : World) (i : iref) (c : option CraftingItem.t) : World :=
  let it := items w i in
  set_item w i
    {| Item.Asset := Item.Asset it; Item.Craft := c;
       Item.Property := Item.Property it; Item.Color := Item.Color it;
       Item.Difficulty := Item.Difficulty it |}.

(** The last statement of the per-item post-processing of the equip pass:
    [newItem.Property] is set to a copy of the declared bag when it is
    null, and receives the copy's properties otherwise. *)
Definition mergeProperty (fuel : nat) (w : World) (newItem : iref) (Property : loc)
  : option World :=
  match Item.Property (items w newItem) with
  | None =>
      match deepCopy fuel (objs w) (VRef Property) with
      | Some (h, VRef copy) => Some (set_item_Property (set_objs w h) newItem (Some copy))
      | _ => None
      end
  | Some bag =>
      match deepCopy fuel (objs w) (VRef Property) with
      | Some (h, VRef copy) =>
          match h !! bag, h !! copy with
          | Some target, Some source =>
              Some (set_objs w (<[bag := Object_assign target source]> h))
          | _, _ => None
          end
      | _ => None
      end
  end.

(** ** The equip transaction *)

(** The four removal blockers, in the order the object literal lists them. *)
Definition equipChecks (E : Engine) (w : World) (character : cref)
    (asset : Asset.t) (Group : string) (oldItem : iref) : list (string * bool) :=
  [("Locked item equiped", negb (canUnlock E w oldItem));
   ("InventoryBlockedOrLimited", InventoryBlockedOrLimited E w character asset);
   ("InventoryAllow",
     negb (InventoryAllow E w character asset (Asset.Prerequisite asset)));
   ("InventoryGroupIsBlocked", InventoryGroupIsBlocked E w character Group)]%string.

(** What the two passes share: the world, [equipFailureRecord] and
    [equipCallbackOutputs]. *)
Record PassState : Type := {
  world : World;
  equipFailureRecord : gmap string (list string);
  equipCallbackOutputs : gset string
}.

(** [typeof Equip === "function" ? Equip() : true]; the callback is run,
    without an argument, against the world as it is at that moment.  It is
    taken to answer: a callback that throws, here as for the other three
    callbacks, ends the transaction at that point and is not modelled. *)
Definition callEquip (item : FortuneWheelItem.t) (w : World) : bool :=
  match FortuneWheelItem.Equip item with
  | Some Equip => Equip w
  | None => true
  end.

(** One iteration of the first pass.  The keys of [equipFailureRecord] are
    asset descriptions and item names; the properties an object literal
    inherits are left out of the model. *)
Definition clearStep (E : Engine) (character : cref) (st : PassState)
    (item : FortuneWheelItem.t) : PassState :=
  let w := world st in
  let Name := FortuneWheelItem.Name item in
  let Group := FortuneWheelItem.Group item in
  let asset := AssetGet E (Character.AssetFamily (chars w character)) Group Name in
  let oldItem := InventoryGet E w character Group in
  let equip := callEquip item w in
  match asset with
  | None =>
      {| world := w;
         equipFailureRecord := <[Name := ["Unknown asset"%string]]> (equipFailureRecord st);
         equipCallbackOutputs := equipCallbackOutputs st |}
  | Some asset =>
      if negb equip then
        {| world := w;
           equipFailureRecord := equipFailureRecord st;
           equipCallbackOutputs := {[Group]} ∪ equipCallbackOutputs st |}
      else
        match oldItem with
        | None => st
        | Some oldItem =>
            let equipFailure :=
              filter (fun tup => tup.2 = true) (equipChecks E w character asset Group oldItem) in
            if negb (length equipFailure =? 0)%nat then
              {| world := w;
                 equipFailureRecord :=
                   <[Asset.Description asset := map fst equipFailure]> (equipFailureRecord st);
                 equipCallbackOutputs := equipCallbackOutputs st |}
            else
              {| world := InventoryRemove E w character Group;
                 equipFailureRecord := equipFailureRecord st;
                 equipCallbackOutputs := equipCallbackOutputs st |}
        end
  end.

(** First pass: remove any old restraints occupying the to-be equiped slots. *)
Definition clearPass (E : Engine) (character : cref)
    (itemList : list FortuneWheelItem.t) (st : PassState) : PassState :=
  fold_left (clearStep E character) itemList st.

(** One iteration of the second pass.  [errList] is read from the entries
    that the first pass wrote; a description that names a property every
    object inherits (such as [constructor]) reads as defined in the source
    as well, a case that is left out of the model. *)
Definition equipStep (E : Engine) (fuel : nat) (character : cref)
    (globalCallback : option (iref -> cref -> World -> World))
    (equipFailureRecord : gmap string (list string))
    (equipCallbackOutputs : gset string)
    (w : World) (item : FortuneWheelItem.t) : option World :=
  let Name := FortuneWheelItem.Name item in
  let Group := FortuneWheelItem.Group item in
  let Craft := FortuneWheelItem.Craft item in
  let asset := AssetGet E (Character.AssetFamily (chars w character)) Group Name in
  let errList :=
    equipFailureRecord !! (match asset with
                           | Some a => Asset.Description a
                           | None => Name
                           end) in
  match asset with
  | None => Some w
  | Some asset =>
      if bool_decide (is_Some errList) || bool_decide (Group ∈ equipCallbackOutputs) then
        Some w
      else
        let color :=
          match FortuneWheelItem.Color item with
          | Some c => c
          | None => Asset.DefaultColor asset
          end in
        let w1 :=
          CharacterAppearanceSetItem E w character Group asset color
            (SkillGetWithRatio E w "Bondage")
            (Character.MemberNumber (chars w character)) in
        match InventoryGet E w1 character Group with
        | None => Some w1
        | Some newItem =>
            let w2 :=
              match Craft with
              | Some c => set_item_Craft w1 newItem (Some c)
              | None => w1
              end in
            let w3 := itemSetType E w2 newItem character (FortuneWheelItem.Type_ item) in
            let w4 := InventoryCraft E w3 character character Group Craft in
            match mergeProperty fuel w4 newItem (FortuneWheelItem.Property item) with
            | None => None
            | Some w5 =>
                let w6 :=
                  match FortuneWheelItem.ItemCallback item with
                  | Some ItemCallback => ItemCallback newItem character w5
                  | None => w5
                  end in
                match globalCallback with
                | Some globalCallback => Some (globalCallback newItem character w6)
                | None => Some w6
                end
            end
        end
  end.

(** Second pass: equip the new items. *)
Fixpoint equipPass (E : Engine) (fuel : nat) (character : cref)
    (globalCallback : option (iref -> cref -> World -> World))
    (equipFailureRecord : gmap string (list string))
    (equipCallbackOutputs : gset string)
    (itemList : list FortuneWheelItem.t) (w : World) : option World :=
  match itemList with
  | [] => Some w
  | item :: rest =>
      match equipStep E fuel character globalCallback equipFailureRecord
                      equipCallbackOutputs w item with
      | None => None
      | Some w' =>
          equipPass E fuel character globalCallback equipFailureRecord
                    equipCallbackOutputs rest w'
      end
  end.

Definition console_log (w : World) (msg : string) (data : gmap string (list string)) : World :=
  {| chars := chars w; items := items w; objs := objs w;
     console := console w ++ [(msg, data)] |}.

(** The refresh and the diagnostic that close the transaction. *)
Definition finish (E : Engine) (name : string) (character : cref)
    (equipFailureRecord : gmap string (list string)) (w : World) : World :=
  if Character.IsPlayer (chars w character) then
    let w1 := CharacterRefresh E w character true false in
    let w2 := ChatRoomCharacterUpdate E w1 character in
    let nFailures := size equipFailureRecord in
    if negb (nFailures =? 0)%nat then
      console_log w2
        ("MBS: Failed to equip " +:+ pretty nFailures +:+ " " +:+ dq +:+ name +:+ dq
           +:+ " wheel of fortune items")
        equipFailureRecord
    else w2
  else CharacterRefresh E w character false false.

(** Equip the character with all items from the passed item list.  The
    pre-run callback may hand back a new list and may touch the world. *)
Definition fortuneWheelEquip (E : Engine) (fuel : nat) (name : string)
    (itemList : jsarg FortuneWheelItem.t) (stripLevel : Z)
    (globalCallback : option (iref -> cref -> World -> World))
    (preRunCallback :
       option (list FortuneWheelItem.t -> cref -> World -> list FortuneWheelItem.t * World))
    (character : option cref) (w : World) : result unit * World :=
  match itemList with
  | JsOther ty =>
      (Thrown ("Invalid " +:+ dq +:+ "itemList" +:+ dq +:+ " type: " +:+ ty), w)
  | JsArray itemList =>
      match characterStrip stripLevel character w with
      | (Thrown msg, w1) => (Thrown msg, w1)
      | (OutOfFuel, w1) => (OutOfFuel, w1)
      | (Returned _, w1) =>
          match character with
          | None => (Thrown "TypeError: character is null", w1)
          | Some c =>
              let '(itemList, w2) :=
                match preRunCallback with
                | Some preRunCallback => preRunCallback itemList c w1
                | None => (itemList, w1)
                end in
              let st :=
                clearPass E c itemList
                  {| world := w2; equipFailureRecord := ∅; equipCallbackOutputs := ∅ |} in
              match equipPass E fuel c globalCallback (equipFailureRecord st)
                              (equipCallbackOutputs st) itemList (world st) with
              | None => (OutOfFuel, world st)
              | Some w3 => (Returned tt, finish E name c (equipFailureRecord st) w3)
              end
          end
      end
  end.

(** ** Loading the stored wheel-of-fortune objects (settings module)

    [parseFWObjects] turns the list of plain objects found in the stored
    settings into a list of exactly [FORTUNE_WHEEL_MAX_SETS] entries.  The
    constant, [trimArray] (both from modules that are not among the
    sources) and the two operations on the objects are taken as they come;
    [St] is whatever state the constructor, the registration and the console
    act on. *)

(** Outcome of a call made inside [try]. *)
Inductive attempt (Ex A : Type) : Type :=
| Done (a : A)
| Raised (ex : Ex).
Arguments Done {Ex A} a.
Arguments Raised {Ex A} ex.

Section ParseFWObjects.
Context {T RT Ex St : Type}.
Variable FORTUNE_WHEEL_MAX_SETS : nat.
Variable trimArray : list (option T) -> nat -> list (option T).
Variable constructor : list (option RT) -> T -> St -> attempt Ex RT * St.
Variable registerOptions : RT -> bool -> St -> attempt Ex unit * St.
Variable console_warn : nat -> Ex -> St -> St.
(** The [TypeError] of a write past the end of a sealed array (the module
    is in strict mode). *)
Variable notExtensible : Ex.

(** The callback of [forEach] for index [i]; [wheelList] is sealed, its
    length never changes. *)
Definition parseEntry (i : nat) (simpleObject : option T)
    (wheelList : list (option RT)) (s : St) : list (option RT) * St :=
  match simpleObject with
  | None => (wheelList, s)
  | Some simpleObject =>
      match constructor wheelList simpleObject s with
      | (Raised ex, s1) => (wheelList, console_warn i ex s1)
      | (Done wheelObject, s1) =>
          if (i <? length wheelList)%nat then
            let wheelList' := <[i := Some wheelObject]> wheelList in
            match registerOptions wheelObject false s1 with
            | (Raised ex, s2) => (wheelList', console_warn i ex s2)
            | (Done _, s2) => (wheelList', s2)
            end
          else (wheelList, console_warn i notExtensible s1)
      end
  end.

(** [protoWheelList.forEach(...)], from index [i] on. *)
Fixpoint forEachFrom (i : nat) (protoWheelList : list (option T))
    (wheelList : list (option RT)) (s : St) : list (option RT) * St :=
  match protoWheelList with
  | [] => (wheelList, s)
  | simpleObject :: rest =>
      let '(wheelList', s') := parseEntry i simpleObject wheelList s in
      forEachFrom (S i) rest wheelList' s'
  end.

(** Pad/trim the item sets if necessary. *)
Definition padOrTrim (protoWheelList : jsarg (option T)) : list (option T) :=
  match protoWheelList with
  | JsOther _ => []
  | JsArray l =>
      if (FORTUNE_WHEEL_MAX_SETS <? length l)%nat
      then trimArray l FORTUNE_WHEEL_MAX_SETS
      else l
  end.

Definition parseFWObjects (protoWheelList : jsarg (option T)) (s : St)
  : list (option RT) * St :=
  forEachFrom O (padOrTrim protoWheelList)
              (replicate FORTUNE_WHEEL_MAX_SETS None) s.

End ParseFWObjects.

(** * A small concrete game

    A catalogue of a few assets, an engine over it and some worlds, used to
    run the definitions above on concrete inputs. *)

Module Demo.

Definition mkGroup (name category : string) (allowNone underwear : bool) : AssetGroup.t :=
  {| AssetGroup.Name := name; AssetGroup.Category := category;
     AssetGroup.AllowNone := allowNone; AssetGroup.Underwear := underwear |}.

Definition mkAsset (name description : string) (group : AssetGroup.t)
    (cosplay : bool) (blocks : option (list string)) (owner lover : bool) : Asset.t :=
  {| Asset.Name := name; Asset.Description := description; Asset.Group := group;
     Asset.BodyCosplay := cosplay; Asset.Block := blocks;
     Asset.DefaultColor := ["Default"%string]; Asset.Prerequisite := [];
     Asset.OwnerOnly := owner; Asset.LoverOnly := lover |}.

Definition Cloth := mkGroup "Cloth" "Appearance" true false.
Definition Bra := mkGroup "Bra" "Appearance" true true.
Definition TailStraps := mkGroup "TailStraps" "Appearance" true false.
Definition BodyUpper := mkGroup "BodyUpper" "Appearance" false false.
Definition ItemArms := mkGroup "ItemArms" "Item" true false.
Definition ItemHands := mkGroup "ItemHands" "Item" true false.
Definition ItemTorso := mkGroup "ItemTorso" "Item" true false.
Definition ItemMisc := mkGroup "ItemMisc" "Item" true false.

Definition Dress := mkAsset "Dress" "Dress" Cloth false None false false.
Definition Bra1 := mkAsset "Bra1" "Bra" Bra false None false false.
Definition FoxTail := mkAsset "FoxTail" "Fox Tail" TailStraps true None false false.
(** A cosplay asset in a group that cannot be left empty. *)
Definition Scales := mkAsset "Scales" "Scales" BodyUpper true None false false.
Definition LeatherCuffs :=
  mkAsset "LeatherCuffs" "Leather Cuffs" ItemArms false (Some ["ItemHands"%string]) false false.
Definition Armbinder :=
  mkAsset "Armbinder" "Armbinder" ItemArms false (Some ["ItemHands"%string]) false false.
Definition Mittens := mkAsset "Mittens" "Mittens" ItemHands false None false false.
Definition Harness :=
  mkAsset "Harness" "Harness" ItemTorso false (Some ["ItemArms"%string]) false false.
Definition MetalPadlock := mkAsset "MetalPadlock" "Metal Padlock" ItemMisc false None false false.
Definition OwnerPadlock := mkAsset "OwnerPadlock" "Owner Padlock" ItemMisc false None true false.

Definition catalogue : list Asset.t :=
  [Dress; Bra1; FoxTail; Scales; LeatherCuffs; Armbinder; Mittens; Harness;
   MetalPadlock; OwnerPadlock].

Definition assetGet (family group name : string) : option Asset.t :=
  if String.eqb family "Female3DCG" then
    List.find (fun a => String.eqb (AssetGroup.Name (Asset.Group a)) group
                        && String.eqb (Asset.Name a) name) catalogue
  else None.

Definition groupOf (w : World) (r : iref) : string :=
  AssetGroup.Name (Asset.Group (Item.Asset (items w r))).

Definition inventoryGet (w : World) (c : cref) (group : string) : option iref :=
  List.find (fun r => String.eqb (groupOf w r) group) (Character.Appearance (chars w c)).

(** The property bag of a worn item, when it has one. *)
Definition bagOf (w : World) (r : iref) : obj :=
  match Item.Property (items w r) with
  | Some p => match objs w !! p with Some o => o | None => [] end
  | None => []
  end.

Definition inventoryGetLock (w : World) (r : iref) : option Item.t :=
  match Map_get (bagOf w r) "LockedBy" with
  | Some (VString lockName) =>
      match assetGet "Female3DCG" "ItemMisc" lockName with
      | Some lock =>
          Some {| Item.Asset := lock; Item.Craft := None; Item.Property := None;
                  Item.Color := []; Item.Difficulty := 0 |}
      | None => None
      end
  | _ => None
  end.

Definition inventoryItemHasEffect (w : World) (r : iref) (effect : string) : bool :=
  match Map_get (bagOf w r) "Effect" with
  | Some (VString e) => String.eqb e effect
  | _ => false
  end.

Definition inventoryGroupIsBlocked (w : World) (c : cref) (group : string) : bool :=
  existsb (fun r => bool_decide (group ∈ orEmpty (Asset.Block (Item.Asset (items w r)))))
          (Character.Appearance (chars w c)).

Definition inventoryRemove (w : World) (c : cref) (group : string) : World :=
  set_appearance w c
    (List.filter (fun r => negb (String.eqb (groupOf w r) group))
                 (Character.Appearance (chars w c))).

Definition characterAppearanceSetItem (w : World) (c : cref) (group : string)
    (asset : Asset.t) (color : list string) (difficulty : Z) (member : option Z) : World :=
  let w1 := inventoryRemove w c group in
  let r := S (list_max (Character.Appearance (chars w c))) in
  let w2 :=
    set_item w1 r
      {| Item.Asset := asset; Item.Craft := None; Item.Property := None;
         Item.Color := color; Item.Difficulty := difficulty |} in
  set_appearance w2 c (Character.Appearance (chars w2 c) ++ [r]).

Definition engine : Engine :=
  {| AssetGet := assetGet;
     getBaselineProperty := fun _ _ _ _ => {| ItemProperties.Block := None |};
     InventoryGet := inventoryGet;
     InventoryGetLock := inventoryGetLock;
     InventoryItemHasEffect := inventoryItemHasEffect;
     InventoryBlockedOrLimited := fun _ _ _ => false;
     InventoryAllow := fun _ _ _ _ => true;
     InventoryGroupIsBlocked := inventoryGroupIsBlocked;
     InventoryRemove := inventoryRemove;
     SkillGetWithRatio := fun _ _ => 0%Z;
     CharacterAppearanceSetItem := characterAppearanceSetItem;
     itemSetType := fun w _ _ _ => w;
     InventoryCraft := fun w _ _ _ _ => w;
     CharacterRefresh := fun w _ _ _ => w;
     ChatRoomCharacterUpdate := fun w _ => w |}.

Definition worn (asset : Asset.t) (craft : option CraftingItem.t) (bag : option loc) : Item.t :=
  {| Item.Asset := asset; Item.Craft := craft; Item.Property := bag;
     Item.Color := []; Item.Difficulty := 0 |}.

Definition decoy : CraftingItem.t :=
  {| CraftingItem.Name := "Prop"; CraftingItem.Property := Some "Decoy"%string;
     CraftingItem.Lock := "MetalPadlock" |}.

Definition mkCharacter (appearance : list iref) (simple player : bool)
    (blockCosplay : option bool) : Character.t :=
  {| Character.Appearance := appearance; Character.AssetFamily := "Female3DCG";
     Character.IsSimple := simple; Character.IsPlayer := player;
     Character.OnlineSharedSettings :=
       Some {| SharedSettings.BlockBodyCosplay := blockCosplay |};
     Character.MemberNumber := Some 42%Z |}.

(** Character 0 is the player, character 1 somebody else in the room.
    The player wears a dress (item 0), decoy leather cuffs that carry the
    lock effect but no padlock (item 1), a tightened harness (item 2) and
    a fox tail (item 3).  Object 1 is the property bag that the item
    descriptors below declare; it holds an array (object 2). *)
Definition world0 : World :=
  {| chars := fun c =>
       match c with
       | O => mkCharacter [0; 1; 2; 3]%nat false true (Some false)
       | _ => mkCharacter [] false false None
       end;
     items := fun r =>
       match r with
       | 0%nat => worn Dress None None
       | 1%nat => worn LeatherCuffs (Some decoy) (Some 0%nat)
       | 2%nat => worn Harness None (Some 3%nat)
       | _ => worn FoxTail None None
       end;
     objs := [ [("Effect", VString "Lock")]%string;
               [("Difficulty", VNumber 5); ("Effect", VRef 2)]%string;
               [("0", VString "Block")]%string;
               [("TightenLevel", VNumber 3); ("Difficulty", VNumber 1)]%string ];
     console := [] |}.

Definition descriptor (name group : string) : FortuneWheelItem.t :=
  {| FortuneWheelItem.Name := name; FortuneWheelItem.Group := group;
     FortuneWheelItem.Color := None; FortuneWheelItem.Equip := None;
     FortuneWheelItem.Craft := None; FortuneWheelItem.ItemCallback := None;
     FortuneWheelItem.Custom := false; FortuneWheelItem.Type_ := None;
     FortuneWheelItem.Property := 1%nat |}.

(** Two item lists for the sorter. *)
Definition cuffsAndMittens : list FortuneWheelItem.t :=
  [descriptor "LeatherCuffs" "ItemArms"; descriptor "Mittens" "ItemHands"].

Definition dressAndMittens : list FortuneWheelItem.t :=
  [descriptor "Dress" "Cloth"; descriptor "Mittens" "ItemHands"].

(** The graph that [itemsArgSort] builds for [cuffsAndMittens]. *)
Definition cuffsGraph : Graph :=
  [("ItemArms"%string, {| block := Set_new ["ItemHands"%string]; priority := None |});
   ("ItemHands"%string, {| block := []; priority := None |})].

(** A graph with a diamond: [a] blocks [b] and [c], both of which block
    [d]; [b] also names a slot that is not in the graph. *)
Definition diamond : Graph :=
  [("a", {| block := ["b"; "c"]; priority := None |});
   ("b", {| block := ["d"; "zz"]; priority := None |});
   ("c", {| block := ["d"]; priority := None |});
   ("d", {| block := []; priority := None |})]%string.

(** A slot that blocks itself. *)
Definition selfBlocking : Graph :=
  [("a", {| block := ["a"]; priority := None |})]%string.

End Demo.

(** A variant of the demo game with a slot named by a single letter, whose
    only asset names that very slot in its block list. *)
Module Toy.

Definition slotA : AssetGroup.t := Demo.mkGroup "a" "Item" true false.

Definition Ouroboros : Asset.t :=
  Demo.mkAsset "Ouroboros" "Ouroboros" slotA false (Some ["a"%string]) false false.

Definition engine : Engine :=
  {| AssetGet := fun family group name =>
       if String.eqb group "a" && String.eqb name "Ouroboros" then Some Ouroboros
       else AssetGet Demo.engine family group name;
     getBaselineProperty := getBaselineProperty Demo.engine;
     InventoryGet := InventoryGet Demo.engine;
     InventoryGetLock := InventoryGetLock Demo.engine;
     InventoryItemHasEffect := InventoryItemHasEffect Demo.engine;
     InventoryBlockedOrLimited := InventoryBlockedOrLimited Demo.engine;
     InventoryAllow := InventoryAllow Demo.engine;
     InventoryGroupIsBlocked := InventoryGroupIsBlocked Demo.engine;
     InventoryRemove := InventoryRemove Demo.engine;
     SkillGetWithRatio := SkillGetWithRatio Demo.engine;
     CharacterAppearanceSetItem := CharacterAppearanceSetItem Demo.engine;
     itemSetType := itemSetType Demo.engine;
     InventoryCraft := InventoryCraft Demo.engine;
     CharacterRefresh := CharacterRefresh Demo.engine;
     ChatRoomCharacterUpdate := ChatRoomCharacterUpdate Demo.engine |}.

(** Mittens whose equip callback vetoes them, and the state in which the
    clearing pass starts on the demo world. *)
Definition vetoedMittens : FortuneWheelItem.t :=
  {| FortuneWheelItem.Name := "Mittens"; FortuneWheelItem.Group := "ItemHands";
     FortuneWheelItem.Color := None;
     FortuneWheelItem.Equip := Some (fun _ => false);
     FortuneWheelItem.Craft := None; FortuneWheelItem.ItemCallback := None;
     FortuneWheelItem.Custom := false; FortuneWheelItem.Type_ := None;
     FortuneWheelItem.Property := 1%nat |}.

Definition start : PassState :=
  {| world := Demo.world0; equipFailureRecord := ∅; equipCallbackOutputs := ∅ |}.

(** Mittens whose item callback takes off whatever the arms slot holds. *)
Definition freeingMittens : FortuneWheelItem.t :=
  {| FortuneWheelItem.Name := "Mittens"; FortuneWheelItem.Group := "ItemHands";
     FortuneWheelItem.Color := None; FortuneWheelItem.Equip := None;
     FortuneWheelItem.Craft := None;
     FortuneWheelItem.ItemCallback :=
       Some (fun _ c w => Demo.inventoryRemove w c "ItemArms");
     FortuneWheelItem.Custom := false; FortuneWheelItem.Type_ := None;
     FortuneWheelItem.Property := 1%nat |}.

(** The demo world with the harness (item 2) holding, as its property
    bag, the very object that the descriptors declare (object 1). *)
Definition sharedBag : World := set_item_Property Demo.world0 2%nat (Some 1%nat).

Definition ouroboros : list SimpleItem.t :=
  [asSimpleItem (Demo.descriptor "Mittens" "ItemHands");
   asSimpleItem (Demo.descriptor "Ouroboros" "a")].

End Toy.

(** Stored objects are numbers here: 0 is corrupted (the constructor
    throws), every other number [n] is built into [10 * n], and the
    registration of 20 throws.  The state is the list of warnings. *)
Module Stored.

Definition trimArray (l : list (option nat)) (n : nat) : list (option nat) := take n l.

Definition constructor (wheelList : list (option nat)) (n : nat) (log : list string)
  : attempt string nat * list string :=
  match n with
  | O => (Raised "corrupted"%string, log)
  | _ => (Done (10 * n)%nat, log)
  end.

Definition registerOptions (built : nat) (push : bool) (log : list string)
  : attempt string unit * list string :=
  if Nat.eqb built 20 then (Raised "cannot register"%string, log) else (Done tt, log).

Definition console_warn (i : nat) (ex : string) (log : list string) : list string :=
  log ++ [ex].

Definition parse (protoWheelList : jsarg (option nat)) : list (option nat) * list string :=
  parseFWObjects 3 trimArray constructor registerOptions console_warn
                 "TypeError"%string protoWheelList [].

End Stored.

(** * Notions the properties are stated with *)

(** A blocking graph is acyclic when its slots can be numbered so that
    every blocked slot that is itself in the graph carries a smaller number
    than the slot that blocks it. *)
Definition ranked (rank : string -> nat) (graph : Graph) : Prop :=
  forall key nd group,
    Map_get graph key = Some nd ->
    group ∈ block nd ->
    is_Some (Map_get graph group) ->
    (rank group < rank key)%nat.

Definition acyclic (graph : Graph) : Prop := exists rank, ranked rank graph.

(** What a slot contributes to the maximum taken by a node that blocks it:
    [-1] when the slot is not in the graph, its priority once resolved. *)
Definition resolved (graph : Graph) (group : string) : option number :=
  match Map_get graph group with
  | None => Some (Fin (-1))
  | Some nd => priority nd
  end.

(** The same, read off the record that [itemsArgSort] returns. *)
Definition contribution (sortRecord : gmap string (option number)) (group : string)
  : number :=
  match sortRecord !! group with
  | Some (Some p) => p
  | _ => Fin (-1)
  end.

(** How the graph changes while priorities are being resolved: the keys
    and block sets stay as they are, ... *)
Definition sameShape (g g' : Graph) : Prop :=
  forall k, block <$> Map_get g' k = block <$> Map_get g k.

(** ... a priority that has been written stays, ... *)
Definition keeps (g g' : Graph) : Prop :=
  forall k q, resolved g k = Some q -> resolved g' k = Some q.

(** ... and nodes ranked [n] or higher are not touched. *)
Definition untouched (rank : string -> nat) (n : nat) (g g' : Graph) : Prop :=
  forall k, (n <= rank k)%nat -> Map_get g' k = Map_get g k.

(** Every priority written so far obeys the recurrence. *)
Definition consistent (g : Graph) : Prop :=
  forall k nd p,
    Map_get g k = Some nd -> priority nd = Some p ->
    (block nd = [] /\ p = Fin 0)
    \/ (block nd <> []
        /\ exists ps, Forall2 (fun b q => resolved g b = Some q) (block nd) ps
                      /\ p = num_add (Fin 1) (Math_max ps)).

(** Rank of a node reference; [undefined] ranks lowest. *)
Definition nodeRank (rank : string -> nat) (node : option string) : nat :=
  match node with
  | None => O
  | Some k => S (rank k)
  end.

Definition resolvedRef (g : Graph) (node : option string) : option number :=
  match node with
  | None => Some (Fin (-1))
  | Some k => resolved g k
  end.

(** What a call of [itemsArgSortDFS] on [node] achieves, given as [r]. *)
Definition dfsPost (rank : string -> nat) (g : Graph) (node : option string)
    (r : option (Graph * number)) : Prop :=
  exists g' p,
    r = Some (g', p)
    /\ sameShape g g' /\ keeps g g'
    /\ untouched rank (nodeRank rank node) g g'
    /\ consistent g'
    /\ resolvedRef g' node = Some p.

(** A check that [rank] numbers the graph as [ranked] asks. *)
Definition rankedb (rank : string -> nat) (graph : Graph) : bool :=
  forallb (fun entry =>
             forallb (fun group =>
                        match Map_get graph group with
                        | Some _ => (rank group <? rank entry.1)%nat
                        | None => true
                        end)
                     (block entry.2))
          graph.

(** No priority has been written yet. *)
Definition unresolved (graph : Graph) : Prop :=
  forall k nd, Map_get graph k = Some nd -> priority nd = None.

(** Every priority written so far is at least 0. *)
Definition nonnegative (g : Graph) : Prop :=
  forall k nd p, Map_get g k = Some nd -> priority nd = Some p -> num_leb (Fin 0) p = true.

(** The structure reachable from [v] is nested at most [n] objects deep
    (and so is free of cycles and of dangling references). *)
Fixpoint nestedb (n : nat) (h : list obj) (v : val) : bool :=
  match v with
  | VRef l =>
      match n with
      | O => false
      | S n' =>
          match h !! l with
          | Some o => forallb (fun kv => nestedb n' h kv.2) o
          | None => false
          end
      end
  | _ => true
  end.

(** [v'] is a copy of [v] made on top of the heap [h]: [v] itself when [v]
    is a primitive, a reference to an object that [h] does not hold
    otherwise. *)
Definition copyOf (h : list obj) (v v' : val) : Prop :=
  match v with
  | VRef _ => exists l', v' = VRef l' /\ (length h <= l')%nat
  | _ => v' = v
  end.

(** [reaches g k k']: slot [k'] is reached from the node of [k] by following
    block sets through nodes of the graph, in one step or more. *)
Inductive reaches (g : Graph) : string -> string -> Prop :=
| reaches_step k nd k' :
    Map_get g k = Some nd -> k' ∈ block nd -> is_Some (Map_get g k') ->
    reaches g k k'
| reaches_trans k k' k'' :
    reaches g k k' -> reaches g k' k'' -> reaches g k k''.

(** Slot names as the game has them are longer than one character. *)
Definition properNames (itemList : list SimpleItem.t) : Prop :=
  Forall (fun item => String.length (SimpleItem.Group item) <> 1%nat) itemList.

(** ** Notions for the strip pass *)

(** The test that the loop of [characterStrip] applies to a worn item. *)
Definition strips (p : World -> Asset.t -> bool) (w : World) (r : iref) : bool :=
  let asset := Item.Asset (items w r) in
  AssetGroup.AllowNone (Asset.Group asset)
  && String.eqb (AssetGroup.Category (Asset.Group asset)) "Appearance"
  && p w asset.

(** [w'] differs from [w] at most in the worn items of character [c]. *)
Definition appearanceFrame (c : cref) (w w' : World) : Prop :=
  items w' = items w
  /\ objs w' = objs w
  /\ console w' = console w
  /\ (forall c', c' <> c -> chars w' c' = chars w c')
  /\ Character.AssetFamily (chars w' c) = Character.AssetFamily (chars w c)
  /\ Character.IsSimple (chars w' c) = Character.IsSimple (chars w c)
  /\ Character.IsPlayer (chars w' c) = Character.IsPlayer (chars w c)
  /\ Character.OnlineSharedSettings (chars w' c)
     = Character.OnlineSharedSettings (chars w c)
  /\ Character.MemberNumber (chars w' c) = Character.MemberNumber (chars w c).

(** ** Notions for the priorities *)

(** A number that is an integer not below [m]. *)
Definition integerFrom (m : Z) (p : number) : Prop :=
  exists z, p = Fin z /\ (m <= z)%Z.

(** Every priority written so far is a natural number. *)
Definition naturalPriorities (g : Graph) : Prop :=
  forall k nd p, Map_get g k = Some nd -> priority nd = Some p -> integerFrom 0 p.

(** The node stored under [k] has its priority written. *)
Definition written (g : Graph) (k : string) : Prop :=
  exists nd p, Map_get g k = Some nd /\ priority nd = Some p.

(** The asset of a descriptor resolves and belongs to the "Item" category:
    the descriptor takes part in the blocking graph. *)
Definition inGraph (E : Engine) (w : World) (character : cref) (item : SimpleItem.t)
  : Prop :=
  exists asset,
    AssetGet E (Character.AssetFamily (chars w character))
             (SimpleItem.Group item) (SimpleItem.Name item) = Some asset
    /\ AssetGroup.Category (Asset.Group asset) = "Item"%string.

(** [P] holds only of unresolved nodes that block another slot of [P]: a
    set of slots that the traversal can enter but not leave. *)
Definition trap (P : string -> Prop) (g : Graph) : Prop :=
  forall k, P k ->
    exists nd b, Map_get g k = Some nd /\ priority nd = None /\ b ∈ block nd /\ P b.

(** ** Notions for the equip transaction *)

(** The asset of every descriptor of the list resolves. *)
Definition allResolve (E : Engine) (w : World) (character : cref)
    (itemList : list SimpleItem.t) : Prop :=
  Forall (fun item =>
            is_Some (AssetGet E (Character.AssetFamily (chars w character))
                       (SimpleItem.Group item) (SimpleItem.Name item)))
         itemList.

(** The names under which the clearing pass files the four removal
    blockers, in the order of the checks. *)
Definition blockerNames : list string :=
  ["Locked item equiped"; "InventoryBlockedOrLimited"; "InventoryAllow";
   "InventoryGroupIsBlocked"]%string.

(** * Properties *)

(** ** Sanity checks of the sort model *)

Example Array_sort_numbers :
  Array_sort (fun a b => Fin (a - b)) [3; 1; 2; 5; 4; 0]%Z = [0; 1; 2; 3; 4; 5]%Z.
Proof. reflexivity. Qed.

Example Array_sort_descending :
  Array_sort (fun a b => Fin (a - b)) [5; 4; 3; 9; 1]%Z = [1; 3; 4; 5; 9]%Z.
Proof. reflexivity. Qed.

(** A function that never answers a negative number leaves the array as it
    is; one that always does reverses it. *)
Example Array_sort_always_positive :
  Array_sort (fun _ _ => Fin 1) [1; 2; 3]%Z = [1; 2; 3]%Z.
Proof. reflexivity. Qed.

Example Array_sort_always_negative :
  Array_sort (fun _ _ => Fin (-1)) [1; 2; 3]%Z = [3; 2; 1]%Z.
Proof. reflexivity. Qed.

(** ** Strip policy *)

(** The five levels answer with a predicate; every other value throws. *)
Lemma getStripCondition_levels (lvl : Z) (c : cref) :
  (0 <= lvl <= 4)%Z -> exists p, getStripCondition lvl c = Returned p.
Proof.
  intros H.
  assert (lvl = 0 \/ lvl = 1 \/ lvl = 2 \/ lvl = 3 \/ lvl = 4)%Z
    as [-> | [-> | [-> | [-> | ->]]]] by lia;
    eexists; reflexivity.
Qed.

Lemma getStripCondition_invalid (lvl : Z) (c : cref) :
  (lvl < 0 \/ 4 < lvl)%Z ->
  exists msg, getStripCondition lvl c = Thrown msg.
Proof.
  intros H. unfold getStripCondition, StripLevel.NONE, StripLevel.CLOTHES,
    StripLevel.UNDERWEAR, StripLevel.COSPLAY, StripLevel.ALL.
  destruct (Z.eqb_spec lvl 0); [lia |].
  destruct (Z.eqb_spec lvl 1); [lia |].
  destruct (Z.eqb_spec lvl 2); [lia |].
  destruct (Z.eqb_spec lvl 3); [lia |].
  destruct (Z.eqb_spec lvl 4); [lia |].
  eexists; reflexivity.
Qed.

(** The player of the demo world wears a dress, two restraints and a fox
    tail, and does not block cosplay removal. *)
Example characterStrip_clothes :
  let r := characterStrip StripLevel.CLOTHES (Some 0%nat) Demo.world0 in
  r.1 = Returned tt /\ Character.Appearance (chars r.2 0%nat) = [1; 2; 3]%nat.
Proof. split; reflexivity. Qed.

Example characterStrip_all :
  let r := characterStrip StripLevel.ALL (Some 0%nat) Demo.world0 in
  r.1 = Returned tt /\ Character.Appearance (chars r.2 0%nat) = [1; 2]%nat.
Proof. split; reflexivity. Qed.



(** Outside those items the two levels part: a cosplay asset in a group
    that cannot be left empty satisfies the predicate of level All and not
    that of level Cosplay when the flag is false.  The loop never asks. *)
Example getStripCondition_fixed_group :
  (exists p, getStripCondition StripLevel.COSPLAY 0%nat = Returned p
             /\ p Demo.world0 Demo.Scales = false)
  /\ (exists p, getStripCondition StripLevel.ALL 0%nat = Returned p
                /\ p Demo.world0 Demo.Scales = true).
Proof. split; eexists; split; reflexivity. Qed.

(** C9: removal eligibility is monotone in the strip level. *)
Theorem C9_strip_monotone (w : World) (c : cref) (asset : Asset.t) (L L' : Z)
    (p p' : World -> Asset.t -> bool) :
  (0 <= L)%Z -> (L <= L')%Z -> (L' <= 4)%Z ->
  getStripCondition L c = Returned p ->
  getStripCondition L' c = Returned p' ->
  p w asset = true -> p' w asset = true.
Proof.
  intros H0 HL H4 Hp Hp'.
  assert (L = 0 \/ L = 1 \/ L = 2 \/ L = 3 \/ L = 4)%Z
    as [-> | [-> | [-> | [-> | ->]]]] by lia;
  assert (L' = 0 \/ L' = 1 \/ L' = 2 \/ L' = 3 \/ L' = 4)%Z
    as [-> | [-> | [-> | [-> | ->]]]] by lia;
  try lia;
  injection Hp as <-; injection Hp' as <-;
  destruct (AssetGroup.AllowNone (Asset.Group asset)),
           (Asset.BodyCosplay asset),
           (AssetGroup.Underwear (Asset.Group asset)),
           (blockBodyCosplay w c);
  simpl; intros H; solve [reflexivity | discriminate H].
Qed.

Lemma C9_strip_monotone_witness :
  exists p', getStripCondition StripLevel.COSPLAY 0%nat = Returned p'
             /\ p' Demo.world0 Demo.Dress = true.
Proof.
  eexists. split; [reflexivity |].
  eapply (C9_strip_monotone Demo.world0 0%nat Demo.Dress 1 3);
    [lia | lia | lia | reflexivity | reflexivity | reflexivity].
Defined.

(** C10: at the levels None, Clothes and Underwear the predicate does not
    depend on the character, nor on the state of the game. *)
Theorem C10_low_levels_ignore_character (lvl : Z) (c1 c2 : cref) (w1 w2 : World)
    (asset : Asset.t) (p1 p2 : World -> Asset.t -> bool) :
  lvl = StripLevel.NONE \/ lvl = StripLevel.CLOTHES \/ lvl = StripLevel.UNDERWEAR ->
  getStripCondition lvl c1 = Returned p1 ->
  getStripCondition lvl c2 = Returned p2 ->
  p1 w1 asset = p2 w2 asset.
Proof.
  intros [-> | [-> | ->]] H1 H2;
    injection H1 as <-; injection H2 as <-; reflexivity.
Qed.

Lemma C10_low_levels_ignore_character_witness :
  exists p1 p2,
    getStripCondition StripLevel.CLOTHES 0%nat = Returned p1
    /\ getStripCondition StripLevel.CLOTHES 1%nat = Returned p2
    /\ p1 Demo.world0 Demo.Bra1 = p2 Demo.world0 Demo.Bra1.
Proof.
  eexists _, _. split; [reflexivity |]. split; [reflexivity |].
  exact (C10_low_levels_ignore_character StripLevel.CLOTHES 0%nat 1%nat
           Demo.world0 Demo.world0 Demo.Bra1 _ _
           (or_intror (or_introl eq_refl)) eq_refl eq_refl).
Defined.

(** ** Invalid input *)

(** C7: a non-array item list makes [fortuneWheelEquip] throw with the
    world untouched; [characterStrip] throws, with the world untouched,
    when the character is null or is neither simple nor the player. *)
Theorem C7_invalid_input_throws_first (E : Engine) (fuel : nat) (name ty : string)
    (lvl : Z) (globalCallback : option (iref -> cref -> World -> World))
    (preRunCallback :
       option (list FortuneWheelItem.t -> cref -> World -> list FortuneWheelItem.t * World))
    (character : option cref) (w : World) :
  fortuneWheelEquip E fuel name (JsOther ty) lvl globalCallback preRunCallback character w
    = (Thrown ("Invalid " +:+ dq +:+ "itemList" +:+ dq +:+ " type: " +:+ ty), w)
  /\ (character = None
      \/ (exists c, character = Some c
                    /\ Character.IsSimple (chars w c) = false
                    /\ Character.IsPlayer (chars w c) = false) ->
      characterStrip lvl character w
        = (Thrown "Expected a simple or player character", w)).
Proof.
  split; [reflexivity |].
  intros [-> | (c & -> & Hs & Hp)]; [reflexivity |].
  unfold characterStrip. rewrite Hs, Hp. reflexivity.
Qed.

Lemma C7_invalid_input_throws_first_witness :
  characterStrip StripLevel.ALL (Some 1%nat) Demo.world0
    = (Thrown "Expected a simple or player character", Demo.world0).
Proof.
  apply (C7_invalid_input_throws_first Demo.engine 0 "maid" "object" StripLevel.ALL
           None None (Some 1%nat) Demo.world0).
  right. exists 1%nat. repeat split; reflexivity.
Defined.

(** An invalid strip level is rejected before anything is removed, both
    by [characterStrip] and by [fortuneWheelEquip]. *)
Lemma characterStrip_invalid_level (lvl : Z) (character : option cref) (w : World) :
  (lvl < 0 \/ 4 < lvl)%Z ->
  exists msg, characterStrip lvl character w = (Thrown msg, w).
Proof.
  intros H. unfold characterStrip.
  destruct character as [c |]; [| eexists; reflexivity].
  destruct (negb _); [eexists; reflexivity |].
  destruct (getStripCondition_invalid lvl c H) as [msg ->].
  eexists; reflexivity.
Qed.

Lemma fortuneWheelEquip_invalid_level (E : Engine) (fuel : nat) (name : string)
    (l : list FortuneWheelItem.t) (lvl : Z)
    (globalCallback : option (iref -> cref -> World -> World))
    (preRunCallback :
       option (list FortuneWheelItem.t -> cref -> World -> list FortuneWheelItem.t * World))
    (character : option cref) (w : World) :
  (lvl < 0 \/ 4 < lvl)%Z ->
  exists msg,
    fortuneWheelEquip E fuel name (JsArray l) lvl globalCallback preRunCallback character w
      = (Thrown msg, w).
Proof.
  intros H. unfold fortuneWheelEquip.
  destruct (characterStrip_invalid_level lvl character w H) as [msg ->].
  eexists; reflexivity.
Qed.

(** ** Unlock rule *)




(** ** Maps in insertion order *)

Section MapFacts.
Context {V : Type}.
Implicit Types (m : list (string * V)) (k : string) (v : V).

Lemma Map_get_set_eq m k v : Map_get (Map_set m k v) k = Some v.
Proof.
  induction m as [| [k' v'] m IH]; simpl.
  - rewrite String.eqb_refl. reflexivity.
  - destruct (String.eqb_spec k' k) as [-> | Hne]; simpl.
    + rewrite String.eqb_refl. reflexivity.
    + destruct (String.eqb_spec k' k); [contradiction | exact IH].
Qed.

Lemma Map_get_set_ne m k k' v : k <> k' -> Map_get (Map_set m k v) k' = Map_get m k'.
Proof.
  intros Hne. induction m as [| [k0 v0] m IH]; simpl.
  - destruct (String.eqb_spec k k'); [contradiction | reflexivity].
  - destruct (String.eqb_spec k0 k) as [-> | Hk]; simpl.
    + destruct (String.eqb_spec k k'); [contradiction | reflexivity].
    + destruct (String.eqb_spec k0 k'); [reflexivity | exact IH].
Qed.

Lemma Map_get_In m k v : Map_get m k = Some v -> k ∈ map fst m.
Proof.
  induction m as [| [k0 v0] m IH]; simpl; [discriminate |].
  destruct (String.eqb_spec k0 k) as [-> | Hk]; intros H.
  - apply list_elem_of_here.
  - apply list_elem_of_further, IH, H.
Qed.

Lemma Map_get_None m k : Map_get m k = None <-> k ∉ map fst m.
Proof.
  induction m as [| [k0 v0] m IH]; simpl.
  - split; [intros _; apply not_elem_of_nil | reflexivity].
  - destruct (String.eqb_spec k0 k) as [-> | Hk].
    + split; [discriminate |]. intros H. exfalso. apply H, list_elem_of_here.
    + rewrite IH, not_elem_of_cons. split; [intros H; split; [congruence | exact H] | tauto].
Qed.

Lemma Map_set_keys_present m k v :
  is_Some (Map_get m k) -> map fst (Map_set m k v) = map fst m.
Proof.
  induction m as [| [k0 v0] m IH]; simpl; intros [x Hx]; [discriminate |].
  destruct (String.eqb_spec k0 k) as [-> | Hk]; simpl; [reflexivity |].
  f_equal. apply IH. eauto.
Qed.

Lemma Map_set_keys_absent m k v :
  Map_get m k = None -> map fst (Map_set m k v) = map fst m ++ [k].
Proof.
  induction m as [| [k0 v0] m IH]; simpl; intros H; [reflexivity |].
  destruct (String.eqb_spec k0 k) as [-> | Hk]; [discriminate |].
  simpl. f_equal. apply IH, H.
Qed.

Lemma Map_set_NoDup m k v : NoDup (map fst m) -> NoDup (map fst (Map_set m k v)).
Proof.
  intros Hnd. destruct (Map_get m k) as [x |] eqn:Hget.
  - rewrite Map_set_keys_present by eauto. exact Hnd.
  - rewrite Map_set_keys_absent by exact Hget.
    apply NoDup_app. split; [exact Hnd |]. split.
    + intros x Hx Hin. apply list_elem_of_singleton in Hin as ->.
      apply Map_get_None in Hget. contradiction.
    + apply NoDup_singleton.
Qed.

End MapFacts.

(** ** Resolving priorities *)

Lemma get_set_priority_eq g k p nd :
  Map_get g k = Some nd ->
  Map_get (set_priority g k p) k = Some {| block := block nd; priority := Some p |}.
Proof. intros H. unfold set_priority. rewrite H. apply Map_get_set_eq. Qed.

Lemma get_set_priority_ne g k k' p :
  k <> k' -> Map_get (set_priority g k p) k' = Map_get g k'.
Proof.
  intros Hne. unfold set_priority.
  destruct (Map_get g k); [apply Map_get_set_ne, Hne | reflexivity].
Qed.

Lemma set_priority_keys g k p : map fst (set_priority g k p) = map fst g.
Proof.
  unfold set_priority. destruct (Map_get g k) eqn:H; [| reflexivity].
  apply Map_set_keys_present. eauto.
Qed.

Lemma resolved_set_priority_ne g k k' p :
  k <> k' -> resolved (set_priority g k p) k' = resolved g k'.
Proof. intros H. unfold resolved. rewrite get_set_priority_ne by exact H. reflexivity. Qed.

Lemma sameShape_refl g : sameShape g g.
Proof. intros k. reflexivity. Qed.

Lemma sameShape_trans g1 g2 g3 : sameShape g1 g2 -> sameShape g2 g3 -> sameShape g1 g3.
Proof. intros H1 H2 k. rewrite H2. apply H1. Qed.

Lemma keeps_refl g : keeps g g.
Proof. intros k q H. exact H. Qed.

Lemma keeps_trans g1 g2 g3 : keeps g1 g2 -> keeps g2 g3 -> keeps g1 g3.
Proof. intros H1 H2 k q H. apply H2, H1, H. Qed.

Lemma untouched_refl rank n g : untouched rank n g g.
Proof. intros k _. reflexivity. Qed.

Lemma untouched_trans rank n n' g1 g2 g3 :
  (n' <= n)%nat -> untouched rank n g1 g2 -> untouched rank n' g2 g3 ->
  untouched rank n g1 g3.
Proof. intros Hle H1 H2 k Hk. rewrite H2 by lia. apply H1, Hk. Qed.

Lemma sameShape_present g g' k :
  sameShape g g' -> is_Some (Map_get g' k) <-> is_Some (Map_get g k).
Proof.
  intros H. specialize (H k).
  destruct (Map_get g' k), (Map_get g k); simpl in H; try discriminate;
    split; intros [x Hx]; try discriminate; eauto.
Qed.

Lemma sameShape_ranked rank g g' : sameShape g g' -> ranked rank g -> ranked rank g'.
Proof.
  intros Hs Hr key nd group Hget Hin Hsome.
  pose proof (Hs key) as Hk. rewrite Hget in Hk. simpl in Hk.
  destruct (Map_get g key) as [nd0 |] eqn:H0; [| discriminate].
  simpl in Hk. injection Hk as Hk.
  apply (Hr key nd0 group H0).
  - rewrite <- Hk. exact Hin.
  - apply (sameShape_present g g' group Hs), Hsome.
Qed.

Lemma sameShape_Graph_get g g' k : sameShape g g' -> Graph_get g' k = Graph_get g k.
Proof.
  intros H. specialize (H k). unfold Graph_get.
  destruct (Map_get g' k), (Map_get g k); simpl in H; try discriminate; reflexivity.
Qed.

(** Writing the priority of an unresolved node. *)
Lemma set_priority_sameShape g k p : sameShape g (set_priority g k p).
Proof.
  intros k'. destruct (String.eqb_spec k k') as [<- | Hne].
  - destruct (Map_get g k) as [nd |] eqn:H.
    + rewrite (get_set_priority_eq g k p nd H). reflexivity.
    + replace (set_priority g k p) with g; [rewrite H; reflexivity |].
      unfold set_priority. rewrite H. reflexivity.
  - rewrite get_set_priority_ne by exact Hne. reflexivity.
Qed.

Lemma set_priority_keeps g k p nd :
  Map_get g k = Some nd -> priority nd = None -> keeps g (set_priority g k p).
Proof.
  intros Hget Hnone k' q Hres. destruct (String.eqb_spec k k') as [<- | Hne].
  - unfold resolved in Hres. rewrite Hget, Hnone in Hres. discriminate.
  - rewrite resolved_set_priority_ne by exact Hne. exact Hres.
Qed.

Lemma set_priority_untouched rank g k p :
  untouched rank (S (rank k)) g (set_priority g k p).
Proof.
  intros k' Hk'. apply get_set_priority_ne. intros ->. lia.
Qed.

Lemma Forall2_resolved_ne g k p bs ps :
  k ∉ bs ->
  Forall2 (fun b q => resolved g b = Some q) bs ps ->
  Forall2 (fun b q => resolved (set_priority g k p) b = Some q) bs ps.
Proof.
  intros Hk H. induction H as [| b q bs ps Hb _ IH]; constructor.
  - rewrite resolved_set_priority_ne; [exact Hb |].
    intros ->. apply Hk, list_elem_of_here.
  - apply IH. intros Hin. apply Hk, list_elem_of_further, Hin.
Qed.

Lemma Forall2_resolved_elem g bs ps b :
  Forall2 (fun b q => resolved g b = Some q) bs ps ->
  b ∈ bs -> exists q, resolved g b = Some q.
Proof.
  intros H. induction H as [| b0 q bs ps Hb _ IH]; intros Hin.
  - apply elem_of_nil in Hin. contradiction.
  - apply elem_of_cons in Hin as [-> | Hin]; [eauto | apply IH, Hin].
Qed.

Lemma Forall2_resolved_keeps g g' bs ps :
  keeps g g' ->
  Forall2 (fun b q => resolved g b = Some q) bs ps ->
  Forall2 (fun b q => resolved g' b = Some q) bs ps.
Proof.
  intros Hk H. induction H; constructor; [apply Hk; assumption | assumption].
Qed.

(** Writing the priority of an unresolved node whose blocked slots are
    resolved keeps the graph consistent. *)
Lemma set_priority_consistent rank g k nd p :
  ranked rank g -> consistent g ->
  Map_get g k = Some nd -> priority nd = None ->
  (block nd = [] /\ p = Fin 0
   \/ block nd <> []
      /\ exists ps, Forall2 (fun b q => resolved g b = Some q) (block nd) ps
                    /\ p = num_add (Fin 1) (Math_max ps)) ->
  consistent (set_priority g k p).
Proof.
  intros Hr Hc Hget Hnone Hp k' nd' p' Hget' Hprio'.
  assert (Hself : k ∉ block nd).
  { intros Hin. pose proof (Hr k nd k Hget Hin (ex_intro _ nd Hget)). lia. }
  destruct (String.eqb_spec k k') as [<- | Hne].
  - rewrite (get_set_priority_eq g k p nd Hget) in Hget'.
    injection Hget' as <-. simpl in *. injection Hprio' as <-.
    destruct Hp as [Hp | (Hb & ps & Hall & Hp)]; [left; exact Hp | right].
    split; [exact Hb |]. exists ps. split; [| exact Hp].
    apply Forall2_resolved_ne; assumption.
  - rewrite get_set_priority_ne in Hget' by exact Hne.
    destruct (Hc k' nd' p' Hget' Hprio') as [H | (Hb & ps & Hall & Hp')];
      [left; exact H | right].
    split; [exact Hb |]. exists ps. split; [| exact Hp'].
    apply Forall2_resolved_ne; [| exact Hall].
    intros Hin. destruct (Forall2_resolved_elem g _ _ k Hall Hin) as [q Hq].
    unfold resolved in Hq. rewrite Hget, Hnone in Hq. discriminate.
Qed.

Lemma untouched_weaken rank n n' g g' :
  (n <= n')%nat -> untouched rank n g g' -> untouched rank n' g g'.
Proof. intros Hle H k Hk. apply H. lia. Qed.

Lemma itemsArgSortDFS_S fuel g node :
  itemsArgSortDFS (S fuel) g node =
  match node with
  | None => Some (g, Fin (-1))
  | Some key =>
      match Map_get g key with
      | None => Some (g, Fin (-1))
      | Some nd =>
          match priority nd with
          | Some p => Some (g, p)
          | None =>
              if (length (block nd) =? 0)%nat then
                Some (set_priority g key (Fin 0), Fin 0)
              else
                match blockLoop (itemsArgSortDFS fuel) (block nd) g [] with
                | None => None
                | Some (g', priorities) =>
                    let p := num_add (Fin 1) (Math_max priorities) in
                    Some (set_priority g' key p, p)
                end
          end
      end
  end.
Proof. reflexivity. Qed.

(** The loop over the block set, given that the recursive calls behave. *)
Lemma blockLoop_correct rank fuel
    (IH : forall g node, ranked rank g -> consistent g ->
                         (nodeRank rank node < fuel)%nat ->
                         dfsPost rank g node (itemsArgSortDFS fuel g node)) :
  forall groups g acc n,
    ranked rank g -> consistent g ->
    (forall b, b ∈ groups -> is_Some (Map_get g b) -> (rank b < n)%nat) ->
    (n < fuel)%nat ->
    exists g' ps,
      blockLoop (itemsArgSortDFS fuel) groups g acc = Some (g', acc ++ ps)
      /\ sameShape g g' /\ keeps g g' /\ untouched rank n g g'
      /\ consistent g'
      /\ Forall2 (fun b q => resolved g' b = Some q) groups ps.
Proof.
  induction groups as [| b groups IHg]; intros g acc n Hr Hc Hlt Hn.
  - exists g, []. rewrite app_nil_r.
    repeat split; auto using sameShape_refl, keeps_refl, untouched_refl.
  - assert (Hb : (nodeRank rank (Graph_get g b) <= n)%nat).
    { unfold Graph_get. destruct (Map_get g b) eqn:E; simpl; [| lia].
      assert (rank b < n)%nat; [| lia].
      apply Hlt; [apply list_elem_of_here | rewrite E; eauto]. }
    destruct (IH g (Graph_get g b) Hr Hc ltac:(lia))
      as (g1 & p & Hrun & Hs1 & Hk1 & Hu1 & Hc1 & Hres1).
    assert (Hresb : resolved g1 b = Some p).
    { unfold Graph_get in Hres1. destruct (Map_get g b) eqn:E; [exact Hres1 |].
      simpl in Hres1. unfold resolved.
      pose proof (Hs1 b) as Hsb. rewrite E in Hsb.
      destruct (Map_get g1 b); [discriminate | exact Hres1]. }
    destruct (IHg g1 (acc ++ [p]) n (sameShape_ranked _ _ _ Hs1 Hr) Hc1)
      as (g2 & ps & Hrun2 & Hs2 & Hk2 & Hu2 & Hc2 & Hall2).
    { intros b' Hin Hsome. apply Hlt; [apply list_elem_of_further, Hin |].
      apply (sameShape_present g g1 b' Hs1), Hsome. }
    { exact Hn. }
    exists g2, (p :: ps). simpl. rewrite Hrun, Hrun2.
    split; [rewrite <- app_assoc; reflexivity |].
    split; [eapply sameShape_trans; eassumption |].
    split; [eapply keeps_trans; eassumption |].
    split; [eapply (untouched_trans rank n n g g1 g2);
            [lia | eapply untouched_weaken; [exact Hb | exact Hu1] | exact Hu2] |].
    split; [exact Hc2 |].
    constructor; [apply Hk2, Hresb | exact Hall2].
Qed.

(** On a ranked graph a call with fuel above the rank of its node returns,
    and leaves a consistent graph in which the node is resolved. *)
Lemma itemsArgSortDFS_correct rank :
  forall fuel g node,
    ranked rank g -> consistent g ->
    (nodeRank rank node < fuel)%nat ->
    dfsPost rank g node (itemsArgSortDFS fuel g node).
Proof.
  induction fuel as [| fuel IH]; intros g node Hr Hc Hfuel; [lia |].
  rewrite itemsArgSortDFS_S. unfold dfsPost.
  destruct node as [key |]; simpl in Hfuel.
  2: { exists g, (Fin (-1)).
       repeat split; auto using sameShape_refl, keeps_refl, untouched_refl. }
  destruct (Map_get g key) as [nd |] eqn:Hget.
  2: { exists g, (Fin (-1)).
       repeat split; auto using sameShape_refl, keeps_refl, untouched_refl.
       simpl. unfold resolved. rewrite Hget. reflexivity. }
  destruct (priority nd) as [p |] eqn:Hprio.
  { exists g, p.
    repeat split; auto using sameShape_refl, keeps_refl, untouched_refl.
    simpl. unfold resolved. rewrite Hget. exact Hprio. }
  destruct (Nat.eqb_spec (length (block nd)) 0) as [Hlen | Hlen].
  - exists (set_priority g key (Fin 0)), (Fin 0).
    split; [reflexivity |].
    split; [apply set_priority_sameShape |].
    split; [eapply set_priority_keeps; eassumption |].
    split; [apply set_priority_untouched |].
    split.
    + eapply (set_priority_consistent rank); try eassumption.
      left. split; [| reflexivity]. destruct (block nd); [reflexivity | discriminate].
    + simpl. unfold resolved.
      rewrite (get_set_priority_eq g key _ nd Hget). reflexivity.
  - destruct (blockLoop_correct rank fuel IH (block nd) g [] (rank key) Hr Hc)
      as (g' & ps & Hrun & Hs & Hk & Hu & Hc' & Hall).
    { intros b Hin Hsome. exact (Hr key nd b Hget Hin Hsome). }
    { lia. }
    simpl in Hrun. rewrite Hrun.
    assert (Hget' : Map_get g' key = Some nd).
    { rewrite (Hu key) by lia. exact Hget. }
    set (p := num_add (Fin 1) (Math_max ps)).
    exists (set_priority g' key p), p.
    split; [reflexivity |].
    split; [eapply sameShape_trans; [exact Hs | apply set_priority_sameShape] |].
    split; [eapply keeps_trans; [exact Hk | eapply set_priority_keeps; eassumption] |].
    split.
    { simpl. apply (untouched_trans rank (S (rank key)) (S (rank key)) g g');
        [lia | apply (untouched_weaken rank (rank key)); [lia | exact Hu]
         | apply set_priority_untouched]. }
    split.
    + eapply (set_priority_consistent rank); try eassumption.
      * eapply sameShape_ranked; eassumption.
      * right. split; [intros Hnil; rewrite Hnil in Hlen; apply Hlen; reflexivity |].
        exists ps. split; [exact Hall | reflexivity].
    + simpl. unfold resolved.
      rewrite (get_set_priority_eq g' key _ nd Hget'). reflexivity.
Qed.

(** Resolving priorities never changes the keys nor their order. *)
Lemma blockLoop_keys dfs
    (Hdfs : forall g node g' p, dfs g node = Some (g', p) -> map fst g' = map fst g) :
  forall groups g acc g' ps,
    blockLoop dfs groups g acc = Some (g', ps) -> map fst g' = map fst g.
Proof.
  induction groups as [| b groups IH]; simpl; intros g acc g' ps H.
  - injection H as <- _. reflexivity.
  - destruct (dfs g (Graph_get g b)) as [[g1 p] |] eqn:E; [| discriminate].
    rewrite (IH _ _ _ _ H). eapply Hdfs, E.
Qed.

Lemma itemsArgSortDFS_keys :
  forall fuel g node g' p,
    itemsArgSortDFS fuel g node = Some (g', p) -> map fst g' = map fst g.
Proof.
  induction fuel as [| fuel IH]; intros g node g' p H; [discriminate |].
  rewrite itemsArgSortDFS_S in H.
  destruct node as [key |]; [| injection H as <- _; reflexivity].
  destruct (Map_get g key) as [nd |]; [| injection H as <- _; reflexivity].
  destruct (priority nd); [injection H as <- _; reflexivity |].
  destruct (length (block nd) =? 0)%nat.
  - injection H as <- _. apply set_priority_keys.
  - destruct (blockLoop _ _ _ _) as [[g1 ps] |] eqn:E; [| discriminate].
    injection H as <- _. rewrite set_priority_keys.
    eapply blockLoop_keys; [exact IH | exact E].
Qed.

Lemma traverse_keys fuel :
  forall keys g g', traverse fuel keys g = Some g' -> map fst g' = map fst g.
Proof.
  induction keys as [| k keys IH]; simpl; intros g g' H.
  - injection H as <-. reflexivity.
  - destruct (itemsArgSortDFS fuel g (Some k)) as [[g1 p] |] eqn:E; [| discriminate].
    rewrite (IH _ _ H). eapply itemsArgSortDFS_keys, E.
Qed.

(** The second loop of [itemsArgSort] resolves every key it visits. *)
Lemma traverse_correct rank fuel :
  forall keys g,
    ranked rank g -> consistent g ->
    (forall k, k ∈ keys -> (S (rank k) < fuel)%nat) ->
    exists g',
      traverse fuel keys g = Some g'
      /\ sameShape g g' /\ keeps g g' /\ consistent g'
      /\ forall k, k ∈ keys -> exists p, resolved g' k = Some p.
Proof.
  induction keys as [| k keys IH]; intros g Hr Hc Hfuel.
  - exists g. repeat split; auto using sameShape_refl, keeps_refl.
    intros k Hk. apply elem_of_nil in Hk. contradiction.
  - destruct (itemsArgSortDFS_correct rank fuel g (Some k) Hr Hc)
      as (g1 & p & Hrun & Hs1 & Hk1 & _ & Hc1 & Hres1).
    { apply Hfuel, list_elem_of_here. }
    destruct (IH g1 (sameShape_ranked _ _ _ Hs1 Hr) Hc1)
      as (g2 & Hrun2 & Hs2 & Hk2 & Hc2 & Hall2).
    { intros k' Hk'. apply Hfuel, list_elem_of_further, Hk'. }
    exists g2. simpl. rewrite Hrun.
    split; [exact Hrun2 |].
    split; [eapply sameShape_trans; eassumption |].
    split; [eapply keeps_trans; eassumption |].
    split; [exact Hc2 |].
    intros k' Hk'. apply elem_of_cons in Hk' as [-> | Hk'].
    + exists p. apply Hk2. exact Hres1.
    + apply Hall2, Hk'.
Qed.

(** The record that the third loop builds. *)
Lemma collect_from (g : Graph) :
  forall (acc : gmap string (option number)) k,
    NoDup (map fst g) ->
    fold_left (fun sortRecord entry => <[entry.1 := priority entry.2]> sortRecord) g acc !! k
    = match Map_get g k with
      | Some nd => Some (priority nd)
      | None => acc !! k
      end.
Proof.
  induction g as [| [k0 nd0] g IH]; intros acc k Hnd; [reflexivity |].
  simpl in Hnd. apply NoDup_cons in Hnd as [Hk0 Hnd].
  simpl. rewrite IH by exact Hnd.
  destruct (String.eqb_spec k0 k) as [-> | Hne].
  - apply Map_get_None in Hk0. rewrite Hk0. apply lookup_insert_eq.
  - destruct (Map_get g k); [reflexivity |]. apply lookup_insert_ne, Hne.
Qed.

Lemma collect_lookup (g : Graph) k :
  NoDup (map fst g) -> collect g !! k = priority <$> Map_get g k.
Proof.
  intros Hnd. unfold collect. rewrite collect_from by exact Hnd.
  destruct (Map_get g k); [reflexivity | apply lookup_empty].
Qed.

(** The first loop yields distinct keys and writes no priority. *)
Lemma buildGraph_fresh (E : Engine) (w : World) (character : cref) :
  forall itemList g0 g,
    buildGraph E w character itemList g0 = Returned g ->
    NoDup (map fst g0) -> unresolved g0 ->
    NoDup (map fst g) /\ unresolved g.
Proof.
  induction itemList as [| item rest IH]; simpl; intros g0 g H Hnd Hun.
  - injection H as <-. split; assumption.
  - destruct (AssetGet E _ _ _) as [asset |]; [| discriminate].
    destruct (negb _); [eapply IH; eassumption |].
    eapply IH; [exact H | apply Map_set_NoDup, Hnd |].
    intros k nd Hget.
    destruct (String.eqb_spec (SimpleItem.Group item) k) as [<- | Hne].
    + rewrite Map_get_set_eq in Hget. injection Hget as <-. reflexivity.
    + rewrite Map_get_set_ne in Hget by exact Hne. eapply Hun, Hget.
Qed.

Lemma unresolved_consistent g : unresolved g -> consistent g.
Proof. intros Hun k nd p Hget Hp. rewrite (Hun k nd Hget) in Hp. discriminate. Qed.

Lemma rank_le_list_max (rank : string -> nat) (keys : list string) k :
  k ∈ keys -> (rank k <= list_max (map rank keys))%nat.
Proof.
  induction keys as [| k0 keys IH]; intros Hin.
  - apply elem_of_nil in Hin. contradiction.
  - simpl. apply elem_of_cons in Hin as [-> | Hin]; [lia |].
    specialize (IH Hin). lia.
Qed.

Lemma rankedb_sound rank g : rankedb rank g = true -> ranked rank g.
Proof.
  unfold rankedb. intros H key nd group Hget Hin [nd' Hsome].
  rewrite forallb_forall in H.
  assert (Hentry : In (key, nd) g).
  { clear -Hget. induction g as [| [k0 v0] g IH]; simpl in *; [discriminate |].
    destruct (String.eqb_spec k0 key) as [-> | Hne].
    - injection Hget as <-. left. reflexivity.
    - right. apply IH, Hget. }
  specialize (H _ Hentry). simpl in H. rewrite forallb_forall in H.
  apply list_elem_of_In in Hin. specialize (H _ Hin).
  rewrite Hsome in H. apply Nat.ltb_lt in H. exact H.
Qed.

(** What the resolved slots contribute, read off the returned record. *)
Lemma Forall2_contribution (g : Graph) bs ps :
  NoDup (map fst g) ->
  Forall2 (fun b q => resolved g b = Some q) bs ps ->
  ps = map (contribution (collect g)) bs.
Proof.
  intros Hnd H. induction H as [| b q bs ps Hb _ IH]; [reflexivity |].
  simpl. f_equal; [| exact IH].
  unfold contribution. rewrite collect_lookup by exact Hnd.
  unfold resolved in Hb. destruct (Map_get g b) as [nd |]; simpl.
  - rewrite Hb. reflexivity.
  - injection Hb as <-. reflexivity.
Qed.

(** A ranked graph has no cycle, and on a cycle the traversal never
    returns, whatever the fuel. *)
Lemma ranked_reaches rank g k k' :
  ranked rank g -> reaches g k k' -> (rank k' < rank k)%nat.
Proof.
  intros Hr H. induction H as [k nd k' Hget Hin Hsome | k k' k'' _ IH1 _ IH2].
  - exact (Hr k nd k' Hget Hin Hsome).
  - lia.
Qed.

Lemma acyclic_no_cycle g k : acyclic g -> ~ reaches g k k.
Proof.
  intros [rank Hr] H. pose proof (ranked_reaches rank g k k Hr H). lia.
Qed.

Example selfBlocking_has_cycle : reaches Demo.selfBlocking "a" "a".
Proof.
  eapply reaches_step; [reflexivity | apply list_elem_of_here | eexists; reflexivity].
Qed.

Example selfBlocking_never_returns :
  forall fuel, itemsArgSortDFS fuel Demo.selfBlocking (Some "a"%string) = None.
Proof.
  induction fuel as [| fuel IH]; [reflexivity |].
  rewrite itemsArgSortDFS_S. simpl.
  change (Graph_get Demo.selfBlocking "a") with (Some "a"%string).
  rewrite IH. reflexivity.
Qed.

(** With fuel above the highest rank, [itemsArgSort] returns a record in
    which every node of the graph obeys the recurrence. *)
Lemma itemsArgSort_resolves (E : Engine) (w : World) (character : cref)
    (itemList : list SimpleItem.t) (graph : Graph) (rank : string -> nat) :
  buildGraph E w character itemList [] = Returned graph ->
  ranked rank graph ->
  forall fuel, (2 + list_max (map rank (map fst graph)) <= fuel)%nat ->
    exists sortRecord,
      itemsArgSort E fuel w (JsArray itemList) character = Returned sortRecord
      /\ (forall key, Map_get graph key = None -> sortRecord !! key = None)
      /\ forall key nd,
           Map_get graph key = Some nd ->
           exists p,
             sortRecord !! key = Some (Some p)
             /\ p = if (length (block nd) =? 0)%nat then Fin 0
                    else num_add (Fin 1)
                           (Math_max (map (contribution sortRecord) (block nd))).
Proof.
  intros Hbuild Hr fuel Hfuel.
  destruct (buildGraph_fresh E w character itemList [] graph Hbuild)
    as [Hnd Hun]; [apply NoDup_nil_2 | intros k nd H; discriminate H |].
  destruct (traverse_correct rank fuel (map fst graph) graph Hr
              (unresolved_consistent _ Hun))
    as (g' & Hrun & Hs & Hk & Hc & Hall).
  { intros k Hin. pose proof (rank_le_list_max rank _ k Hin). lia. }
  assert (Hnd' : NoDup (map fst g')).
  { rewrite (traverse_keys _ _ _ _ Hrun). exact Hnd. }
  exists (collect g'). unfold itemsArgSort. rewrite Hbuild, Hrun.
  split; [reflexivity |]. split.
  - intros key Hnone. rewrite collect_lookup by exact Hnd'.
    pose proof (Hs key) as Hkey. rewrite Hnone in Hkey.
    destruct (Map_get g' key); [discriminate | reflexivity].
  - intros key nd Hget.
    destruct (Hall key (Map_get_In _ _ _ Hget)) as [p Hp].
    pose proof (Hs key) as Hkey. rewrite Hget in Hkey.
    destruct (Map_get g' key) as [nd' |] eqn:Hget'; [| discriminate].
    simpl in Hkey. injection Hkey as Hblock.
    unfold resolved in Hp. rewrite Hget' in Hp.
    exists p. split; [rewrite collect_lookup, Hget', <- Hp by exact Hnd'; reflexivity |].
    rewrite <- Hblock.
    destruct (Hc key nd' p Hget' Hp) as [[Hnil ->] | (Hne & ps & Hps & ->)].
    + rewrite Hnil. reflexivity.
    + destruct (block nd') eqn:Eb; [contradiction |]. simpl length. simpl Nat.eqb.
      rewrite <- Eb. f_equal. f_equal. rewrite <- Eb in Hps.
      apply Forall2_contribution; assumption.
Qed.

(** C3: on an acyclic graph built by [itemsArgSort], enough fuel makes
    [itemsArgSort] return, and in the record it returns every node of the
    graph has priority 0 when its block set is empty and otherwise 1 plus
    the maximum, over the members of its block set, of that slot's priority,
    a slot absent from the graph counting as -1. *)
Theorem C3_priority_recurrence (E : Engine) (w : World) (character : cref)
    (itemList : list SimpleItem.t) (graph : Graph) :
  buildGraph E w character itemList [] = Returned graph ->
  acyclic graph ->
  exists fuel0, forall fuel, (fuel0 <= fuel)%nat ->
    exists sortRecord,
      itemsArgSort E fuel w (JsArray itemList) character = Returned sortRecord
      /\ (forall key, Map_get graph key = None -> sortRecord !! key = None)
      /\ forall key nd,
           Map_get graph key = Some nd ->
           exists p,
             sortRecord !! key = Some (Some p)
             /\ p = if (length (block nd) =? 0)%nat then Fin 0
                    else num_add (Fin 1)
                           (Math_max (map (contribution sortRecord) (block nd))).
Proof.
  intros Hbuild [rank Hr].
  exists (2 + list_max (map rank (map fst graph)))%nat.
  exact (itemsArgSort_resolves E w character itemList graph rank Hbuild Hr).
Qed.

Lemma C3_priority_recurrence_witness :
  exists fuel0, forall fuel, (fuel0 <= fuel)%nat ->
    exists sortRecord,
      itemsArgSort Demo.engine fuel Demo.world0
        (JsArray (map asSimpleItem Demo.cuffsAndMittens)) 0%nat = Returned sortRecord
      /\ sortRecord !! "ItemArms"%string = Some (Some (Fin 0))
      /\ sortRecord !! "ItemHands"%string = Some (Some (Fin 0)).
Proof.
  destruct (C3_priority_recurrence Demo.engine Demo.world0 0%nat
              (map asSimpleItem Demo.cuffsAndMittens)
              Demo.cuffsGraph eq_refl
              (ex_intro _ (fun _ => O)
                 (rankedb_sound (fun _ => O) Demo.cuffsGraph eq_refl)))
    as [fuel0 H].
  exists fuel0. intros fuel Hfuel.
  destruct (H fuel Hfuel) as (sortRecord & Hrun & Habs & Hrec).
  exists sortRecord. split; [exact Hrun |]. split.
  - destruct (Hrec "ItemArms"%string _ eq_refl) as (p & Hp & ->).
    rewrite Hp. simpl. unfold contribution.
    rewrite !Habs by reflexivity. reflexivity.
  - destruct (Hrec "ItemHands"%string _ eq_refl) as (p & Hp & ->).
    exact Hp.
Defined.

(** A diamond is resolved with each node written once; too little fuel is
    reported as such. *)
Example traverse_diamond :
  traverse 4 (map fst Demo.diamond) Demo.diamond
  = Some [("a", {| block := ["b"; "c"]; priority := Some (Fin 2) |});
          ("b", {| block := ["d"; "zz"]; priority := Some (Fin 1) |});
          ("c", {| block := ["d"]; priority := Some (Fin 1) |});
          ("d", {| block := []; priority := Some (Fin 0) |})]%string.
Proof. reflexivity. Qed.

Example traverse_diamond_shallow :
  traverse 2 (map fst Demo.diamond) Demo.diamond = None.
Proof. reflexivity. Qed.

(** ** Priorities are never negative *)

Lemma num_leb_weaken p : num_leb (Fin 0) p = true -> num_leb (Fin (-1)) p = true.
Proof.
  destruct p as [| z |]; unfold num_leb; simpl; [discriminate | | reflexivity].
  intros H. apply negb_true_iff, Z.ltb_ge in H. apply negb_true_iff, Z.ltb_ge. lia.
Qed.

Lemma num_succ_max_lower q x :
  num_leb (Fin (-1)) q = true ->
  num_leb (Fin 0) (num_add (Fin 1) (num_max q x)) = true.
Proof.
  destruct q as [| a |]; unfold num_leb; simpl; [discriminate | |].
  - intros H. apply negb_true_iff, Z.ltb_ge in H.
    destruct x as [| b |]; simpl; [| | reflexivity];
      apply negb_true_iff, Z.ltb_ge; lia.
  - intros _. destruct x; reflexivity.
Qed.

Lemma set_priority_nonnegative g k p :
  nonnegative g -> num_leb (Fin 0) p = true -> nonnegative (set_priority g k p).
Proof.
  intros Hn Hp k' nd' p' Hget Hprio.
  destruct (String.eqb_spec k k') as [<- | Hne].
  - unfold set_priority in Hget. destruct (Map_get g k) as [nd |] eqn:E.
    + rewrite Map_get_set_eq in Hget. injection Hget as <-. simpl in Hprio.
      injection Hprio as <-. exact Hp.
    + rewrite E in Hget. discriminate.
  - rewrite get_set_priority_ne in Hget by exact Hne. eapply Hn; eassumption.
Qed.

Lemma blockLoop_nonnegative dfs
    (Hdfs : forall g node g' p, dfs g node = Some (g', p) -> nonnegative g ->
                                nonnegative g' /\ num_leb (Fin (-1)) p = true) :
  forall groups g acc g' ps,
    blockLoop dfs groups g acc = Some (g', ps) ->
    nonnegative g -> Forall (fun q => num_leb (Fin (-1)) q = true) acc ->
    nonnegative g'
    /\ Forall (fun q => num_leb (Fin (-1)) q = true) ps
    /\ length ps = (length acc + length groups)%nat.
Proof.
  induction groups as [| b groups IH]; simpl; intros g acc g' ps H Hn Hacc.
  - injection H as <- <-. repeat split; [assumption | assumption | lia].
  - destruct (dfs g (Graph_get g b)) as [[g1 p] |] eqn:E; [| discriminate].
    destruct (Hdfs _ _ _ _ E Hn) as [Hn1 Hp].
    destruct (IH _ _ _ _ H Hn1) as (Hn' & Hps & Hlen).
    { apply Forall_app. split; [exact Hacc | constructor; [exact Hp | constructor]]. }
    repeat split; [assumption | assumption |].
    rewrite Hlen, length_app. simpl. lia.
Qed.

Lemma itemsArgSortDFS_nonnegative :
  forall fuel g node g' p,
    itemsArgSortDFS fuel g node = Some (g', p) -> nonnegative g ->
    nonnegative g' /\ num_leb (Fin (-1)) p = true.
Proof.
  induction fuel as [| fuel IH]; intros g node g' p H Hn; [discriminate |].
  rewrite itemsArgSortDFS_S in H.
  destruct node as [key |]; [| injection H as <- <-; split; [assumption | reflexivity]].
  destruct (Map_get g key) as [nd |] eqn:Hget;
    [| injection H as <- <-; split; [assumption | reflexivity]].
  destruct (priority nd) as [q |] eqn:Hq.
  { injection H as <- <-. split; [assumption |].
    apply num_leb_weaken. eapply Hn; eassumption. }
  destruct (length (block nd) =? 0)%nat eqn:Hlen.
  - injection H as <- <-. split; [| reflexivity].
    apply set_priority_nonnegative; [assumption | reflexivity].
  - destruct (blockLoop _ _ _ _) as [[g1 ps] |] eqn:E; [| discriminate].
    injection H as <- <-.
    destruct (blockLoop_nonnegative _ IH _ _ _ _ _ E Hn (Forall_nil_2 _))
      as (Hn1 & Hps & Hl).
    assert (Hp : num_leb (Fin 0) (num_add (Fin 1) (Math_max ps)) = true).
    { destruct ps as [| q ps].
      - simpl in Hl. apply Nat.eqb_neq in Hlen. lia.
      - simpl. apply num_succ_max_lower. apply Forall_cons in Hps as [Hq' _]. exact Hq'. }
    split; [apply set_priority_nonnegative; assumption | apply num_leb_weaken, Hp].
Qed.

Lemma traverse_nonnegative fuel :
  forall keys g g', traverse fuel keys g = Some g' -> nonnegative g -> nonnegative g'.
Proof.
  induction keys as [| k keys IH]; simpl; intros g g' H Hn.
  - injection H as <-. exact Hn.
  - destruct (itemsArgSortDFS fuel g (Some k)) as [[g1 p] |] eqn:E; [| discriminate].
    eapply IH; [exact H |]. eapply itemsArgSortDFS_nonnegative; eassumption.
Qed.

(** Whatever [itemsArgSort] returns, no sort key is negative. *)
Lemma sortKey_never_negative (E : Engine) (fuel : nat) (w : World)
    (l : list SimpleItem.t) (character : cref) sortRecord :
  itemsArgSort E fuel w (JsArray l) character = Returned sortRecord ->
  forall group, isNegative (sortKey sortRecord group) = false.
Proof.
  unfold itemsArgSort. intros H group.
  destruct (buildGraph E w character l []) as [g | |] eqn:Hbuild; try discriminate.
  destruct (traverse fuel (map fst g) g) as [g' |] eqn:Hrun; [| discriminate].
  injection H as <-.
  destruct (buildGraph_fresh E w character l [] g Hbuild)
    as [Hnd Hun]; [apply NoDup_nil_2 | intros k nd H; discriminate H |].
  assert (Hn : nonnegative g').
  { eapply traverse_nonnegative; [exact Hrun |].
    intros k nd p Hget Hp. rewrite (Hun k nd Hget) in Hp. discriminate. }
  unfold sortKey. rewrite collect_lookup
    by (rewrite (traverse_keys _ _ _ _ Hrun); exact Hnd).
  destruct (Map_get g' group) as [nd |] eqn:Hget; [| reflexivity].
  simpl. destruct (priority nd) as [p |] eqn:Hp; [| reflexivity].
  specialize (Hn group nd p Hget Hp). unfold num_leb in Hn.
  apply negb_true_iff in Hn. exact Hn.
Qed.

(** ** What [sort] does with a key in place of a comparison *)

Section NeverNegative.
Context {A : Type} (comparefn : A -> A -> number).
Hypothesis never_negative : forall a b, isNegative (comparefn a b) = false.

Lemma extendRun_whole previous rest :
  extendRun comparefn false previous rest = length rest.
Proof.
  revert previous. induction rest as [| x rest IH]; intros previous; [reflexivity |].
  simpl. rewrite never_negative, IH. reflexivity.
Qed.

(** The first run is the whole array, so the array is left as it is. *)
Lemma Array_sort_never_negative (array : list A) : Array_sort comparefn array = array.
Proof.
  destruct array as [| a [| b rest]]; [reflexivity | reflexivity |].
  unfold Array_sort, CountAndMakeRun.
  rewrite never_negative, extendRun_whole.
  simpl length. rewrite Nat.ltb_irrefl.
  reflexivity.
Qed.

End NeverNegative.

(** [fortuneItemsSort] hands the list back in the order it was given. *)
Lemma fortuneItemsSort_returns_input (E : Engine) (fuel : nat) (w : World)
    (itemList sorted : list FortuneWheelItem.t) (character : cref) :
  fortuneItemsSort E fuel w itemList character = Returned sorted ->
  sorted = itemList.
Proof.
  unfold fortuneItemsSort.
  destruct (itemsArgSort E fuel w _ character) as [sortRecord | |] eqn:H;
    try discriminate.
  intros Hs. injection Hs as <-.
  apply Array_sort_never_negative.
  intros a b. eapply sortKey_never_negative, H.
Qed.

(** C1: evaluation at an input on which the order the claim asks for is not
    produced.  The dress has no priority (its slot is not in the graph),
    the mittens have priority 0.  The function given to [sort] is called
    with the mittens first and answers their key, 0, which is not negative:
    the two elements count as a run in ascending order, and the list comes
    back with the dress first. *)
Theorem C1_item_without_priority_stays_first :
  exists sortRecord,
    itemsArgSort Demo.engine 2 Demo.world0
      (JsArray (map asSimpleItem Demo.dressAndMittens)) 0%nat = Returned sortRecord
    /\ sortRecord !! "Cloth"%string = None
    /\ sortRecord !! "ItemHands"%string = Some (Some (Fin 0))
    /\ fortuneItemsSort Demo.engine 2 Demo.world0 Demo.dressAndMittens 0%nat
       = Returned Demo.dressAndMittens.
Proof.
  eexists. split; [reflexivity |].
  split; [vm_compute; reflexivity |].
  split; [vm_compute; reflexivity |].
  vm_compute. reflexivity.
Qed.

(** ** The block set of a node *)

Lemma Set_add_elem (s : list string) (x y : string) :
  y ∈ Set_add s x <-> y ∈ s \/ y = x.
Proof.
  unfold Set_add. case_bool_decide as Hx.
  - split; [auto |]. intros [H | ->]; assumption.
  - rewrite elem_of_app, list_elem_of_singleton. reflexivity.
Qed.

Lemma Set_of_from (iterable s : list string) (y : string) :
  y ∈ fold_left Set_add iterable s <-> y ∈ s \/ y ∈ iterable.
Proof.
  revert s. induction iterable as [| x iterable IH]; intros s; simpl.
  - rewrite elem_of_nil. tauto.
  - rewrite IH, Set_add_elem, elem_of_cons. tauto.
Qed.

Lemma Set_of_elem (iterable : list string) (y : string) :
  y ∈ Set_of iterable <-> y ∈ iterable.
Proof. unfold Set_of. rewrite Set_of_from, elem_of_nil. tauto. Qed.

Lemma string_iter_length (s x : string) : x ∈ string_iter s -> String.length x = 1%nat.
Proof.
  induction s as [| ch s IH]; simpl; intros H.
  - apply elem_of_nil in H. contradiction.
  - apply elem_of_cons in H as [-> | H]; [reflexivity | apply IH, H].
Qed.

(** The set built by [new Set(...args)] holds the characters of the first
    argument and nothing else. *)
Lemma Set_new_elem (first : string) (others : list string) (x : string) :
  x ∈ Set_new (first :: others) <-> x ∈ string_iter first.
Proof. simpl. apply Set_of_elem. Qed.

Lemma Set_new_single_characters (args : list string) (x : string) :
  x ∈ Set_new args -> String.length x = 1%nat.
Proof.
  destruct args as [| first others]; intros H.
  - apply elem_of_nil in H. contradiction.
  - apply Set_new_elem in H. eapply string_iter_length, H.
Qed.

(** C2: evaluation at an input on which the block set is not the union
    the claim describes.  The leather cuffs block the slot [ItemHands] and
    their baseline property adds nothing, yet the node's block set holds
    the nine letters of that name instead of the name. *)
Theorem C2_block_set_spells_first_slot :
  buildGraph Demo.engine Demo.world0 0%nat
    [asSimpleItem (Demo.descriptor "LeatherCuffs" "ItemArms")] []
  = Returned
      [("ItemArms",
        {| block := ["I"; "t"; "e"; "m"; "H"; "a"; "n"; "d"; "s"];
           priority := None |})]%string
  /\ Asset.Block Demo.LeatherCuffs = Some ["ItemHands"%string]
  /\ ItemProperties.Block
       (getBaselineProperty Demo.engine Demo.world0 Demo.LeatherCuffs 0%nat None) = None.
Proof. repeat split; reflexivity. Qed.

(** ** Consequences for slot names of more than one character *)

(** The keys of the built graph are slot names of the list, its block sets
    hold single characters. *)
Lemma buildGraph_names (E : Engine) (w : World) (character : cref) :
  forall itemList g0 g,
    buildGraph E w character itemList g0 = Returned g ->
    properNames itemList ->
    (forall k, is_Some (Map_get g0 k) -> String.length k <> 1%nat) ->
    (forall k nd b, Map_get g0 k = Some nd -> b ∈ block nd -> String.length b = 1%nat) ->
    (forall k, is_Some (Map_get g k) -> String.length k <> 1%nat)
    /\ (forall k nd b, Map_get g k = Some nd -> b ∈ block nd -> String.length b = 1%nat).
Proof.
  induction itemList as [| item rest IH]; simpl; intros g0 g H Hnames Hkeys Hblocks.
  - injection H as <-. split; assumption.
  - apply Forall_cons in Hnames as [Hitem Hrest].
    destruct (AssetGet E _ _ _) as [asset |]; [| discriminate].
    destruct (negb _); [eapply IH; eassumption |].
    eapply IH; [exact H | exact Hrest | |].
    + intros k [nd Hk].
      destruct (String.eqb_spec (SimpleItem.Group item) k) as [<- | Hne]; [exact Hitem |].
      rewrite Map_get_set_ne in Hk by exact Hne. apply Hkeys. eauto.
    + intros k nd b Hk Hb.
      destruct (String.eqb_spec (SimpleItem.Group item) k) as [<- | Hne].
      * rewrite Map_get_set_eq in Hk. injection Hk as <-. simpl in Hb.
        eapply Set_new_single_characters, Hb.
      * rewrite Map_get_set_ne in Hk by exact Hne. eapply Hblocks; eassumption.
Qed.

Lemma list_max_zero (keys : list string) : list_max (map (fun _ => O) keys) = O.
Proof. induction keys as [| k keys IH]; [reflexivity | exact IH]. Qed.

Lemma Math_max_absent (xs : list number) :
  xs <> [] -> Forall (fun x => x = Fin (-1)) xs -> Math_max xs = Fin (-1).
Proof.
  intros Hne H. induction H as [| x xs -> Hxs IH]; [contradiction |].
  simpl. destruct xs as [| y xs]; [reflexivity |].
  rewrite IH by discriminate. reflexivity.
Qed.

(** With such names no block set member is a key of the graph, the graph is
    trivially acyclic, and every priority comes out as 0. *)
Lemma itemsArgSort_all_zero (E : Engine) (w : World) (character : cref)
    (itemList : list SimpleItem.t) (graph : Graph) (fuel : nat) :
  buildGraph E w character itemList [] = Returned graph ->
  properNames itemList ->
  (2 <= fuel)%nat ->
  exists sortRecord,
    itemsArgSort E fuel w (JsArray itemList) character = Returned sortRecord
    /\ forall key, sortRecord !! key = None \/ sortRecord !! key = Some (Some (Fin 0)).
Proof.
  intros Hbuild Hnames Hfuel.
  destruct (buildGraph_names E w character itemList [] graph Hbuild Hnames)
    as [Hkeys Hblocks].
  { intros k [nd Hk]. discriminate Hk. }
  { intros k nd b Hk. discriminate Hk. }
  assert (Hr : ranked (fun _ => O) graph).
  { intros key nd group Hget Hin Hsome. exfalso.
    apply (Hkeys group Hsome). eapply Hblocks; eassumption. }
  destruct (itemsArgSort_resolves E w character itemList graph _ Hbuild Hr fuel)
    as (sortRecord & Hrun & Habs & Hrec).
  { rewrite list_max_zero. lia. }
  exists sortRecord. split; [exact Hrun |].
  intros key. destruct (Map_get graph key) as [nd |] eqn:Hget; [right | left; auto].
  destruct (Hrec key nd Hget) as (p & Hp & ->). rewrite Hp. do 2 f_equal.
  destruct (block nd) as [| b bs] eqn:Hb; [reflexivity |].
  simpl length. simpl Nat.eqb. cbv iota.
  rewrite Math_max_absent; [reflexivity | discriminate |].
  apply Forall_map, Forall_forall. intros b' Hin.
  unfold contribution. rewrite Habs; [reflexivity |].
  destruct (Map_get graph b') as [nd' |] eqn:Hget'; [exfalso | reflexivity].
  apply (Hkeys b'); [eauto |].
  apply (Hblocks key nd b' Hget). rewrite Hb. exact Hin.
Qed.

(** ** The clearing pass and a locked occupant *)

(** The claim of C6 as it is worded fails twice over.  It promises
    exactly one recorded reason: the four checks are independent, and here
    a worn harness blocks the arms slot as well, so two reasons are
    recorded.  It promises that X is still equipped when the transaction
    is over: here the item callback of the mittens, the other item of the
    list, takes X off, although the step for Y left it in place. *)
Lemma C6_locked_occupant_counterexample :
  ~ (forall (E : Engine) (c : cref) (st : PassState) (Y : FortuneWheelItem.t)
            (asset : Asset.t) (X : iref),
        AssetGet E (Character.AssetFamily (chars (world st) c))
                 (FortuneWheelItem.Group Y) (FortuneWheelItem.Name Y) = Some asset ->
        callEquip Y (world st) = true ->
        InventoryGet E (world st) c (FortuneWheelItem.Group Y) = Some X ->
        canUnlock E (world st) X = false ->
        equipFailureRecord (clearStep E c st Y) !! Asset.Description asset
        = Some ["Locked item equiped"%string])
  /\ ~ (forall (E : Engine) (fuel : nat) (name : string)
               (before after : list FortuneWheelItem.t) (Y : FortuneWheelItem.t)
               (lvl : Z) (globalCallback : option (iref -> cref -> World -> World))
               (c : cref) (w : World) (asset : Asset.t) (X : iref),
          let st1 :=
            clearPass E c before
              {| world := (characterStrip lvl (Some c) w).2;
                 equipFailureRecord := ∅; equipCallbackOutputs := ∅ |} in
          let run :=
            fortuneWheelEquip E fuel name (JsArray (before ++ Y :: after)) lvl
                              globalCallback None (Some c) w in
          AssetGet E (Character.AssetFamily (chars (world st1) c))
                   (FortuneWheelItem.Group Y) (FortuneWheelItem.Name Y) = Some asset ->
          callEquip Y (world st1) = true ->
          InventoryGet E (world st1) c (FortuneWheelItem.Group Y) = Some X ->
          canUnlock E (world st1) X = false ->
          run.1 = Returned tt ->
          InventoryGet E run.2 c (FortuneWheelItem.Group Y) = Some X).
Proof.
  split; intros H.
  - specialize (H Demo.engine 0%nat
                  {| world := Demo.world0; equipFailureRecord := ∅;
                     equipCallbackOutputs := ∅ |}
                  (Demo.descriptor "Armbinder" "ItemArms") Demo.Armbinder 1%nat
                  eq_refl eq_refl eq_refl eq_refl).
    vm_compute in H. discriminate H.
  - specialize (H Demo.engine 3%nat "maid"%string []
                  [Toy.freeingMittens] (Demo.descriptor "Armbinder" "ItemArms")
                  StripLevel.NONE None 0%nat Demo.world0 Demo.Armbinder 1%nat
                  eq_refl eq_refl eq_refl eq_refl eq_refl).
    vm_compute in H. discriminate H.
Qed.

Lemma clearStep_keeps_failures (E : Engine) (c : cref) (st : PassState)
    (item : FortuneWheelItem.t) (k : string) :
  is_Some (equipFailureRecord st !! k) ->
  is_Some (equipFailureRecord (clearStep E c st item) !! k).
Proof.
  intros Hk. unfold clearStep.
  destruct (AssetGet E _ _ _) as [asset |]; simpl.
  - destruct (negb (callEquip item (world st))); simpl; [exact Hk |].
    destruct (InventoryGet E _ _ _) as [oldItem |]; [| exact Hk].
    destruct (negb _); simpl; [| exact Hk].
    destruct (decide (Asset.Description asset = k)) as [-> | Hne].
    + rewrite lookup_insert_eq. eauto.
    + rewrite lookup_insert_ne by exact Hne. exact Hk.
  - destruct (decide (FortuneWheelItem.Name item = k)) as [-> | Hne].
    + rewrite lookup_insert_eq. eauto.
    + rewrite lookup_insert_ne by exact Hne. exact Hk.
Qed.

Lemma clearPass_keeps_failures (E : Engine) (c : cref)
    (itemList : list FortuneWheelItem.t) (k : string) :
  forall st,
    is_Some (equipFailureRecord st !! k) ->
    is_Some (equipFailureRecord (clearPass E c itemList st) !! k).
Proof.
  unfold clearPass. induction itemList as [| item rest IH]; intros st Hk; [exact Hk |].
  simpl. apply IH, clearStep_keeps_failures, Hk.
Qed.

Lemma clearPass_app (E : Engine) (c : cref) (l1 l2 : list FortuneWheelItem.t) st :
  clearPass E c (l1 ++ l2) st = clearPass E c l2 (clearPass E c l1 st).
Proof. unfold clearPass. apply fold_left_app. Qed.

(** What the clearing step does for an item whose slot holds an occupant
    that cannot be unlocked. *)
Lemma clearStep_locked (E : Engine) (c : cref) (st : PassState)
    (Y : FortuneWheelItem.t) (asset : Asset.t) (X : iref) :
  AssetGet E (Character.AssetFamily (chars (world st) c))
           (FortuneWheelItem.Group Y) (FortuneWheelItem.Name Y) = Some asset ->
  callEquip Y (world st) = true ->
  InventoryGet E (world st) c (FortuneWheelItem.Group Y) = Some X ->
  canUnlock E (world st) X = false ->
  clearStep E c st Y
  = {| world := world st;
       equipFailureRecord :=
         <[Asset.Description asset :=
             "Locked item equiped"%string
             :: map fst (filter (fun tup => tup.2 = true)
                           (drop 1 (equipChecks E (world st) c asset
                                      (FortuneWheelItem.Group Y) X)))]>
           (equipFailureRecord st);
       equipCallbackOutputs := equipCallbackOutputs st |}.
Proof.
  intros Hasset Hequip Hold Hlock. unfold clearStep.
  rewrite Hasset, Hequip, Hold. simpl negb. cbv iota.
  unfold equipChecks. rewrite Hlock. simpl negb.
  rewrite filter_cons_True by reflexivity.
  reflexivity.
Qed.

(** C6 (amended): let the clearing pass reach an item Y whose asset
    resolves, whose equip callback does not veto it and whose slot holds an
    occupant X that cannot be unlocked.  Then the step for Y leaves the
    world as it is, so that X is still in the slot after it; it records
    under the description of Y's asset the reason "Locked item equiped"
    followed by the names of those of the other three checks that fired, in
    their order, and nothing else; an entry under that description is still
    present when the pass ends; and the second pass skips Y without
    touching the world. *)
Theorem C6_locked_occupant (E : Engine) (c : cref)
    (before after : list FortuneWheelItem.t) (Y : FortuneWheelItem.t)
    (st0 : PassState) (asset : Asset.t) (X : iref) :
  let st1 := clearPass E c before st0 in
  let st2 := clearStep E c st1 Y in
  let st3 := clearPass E c (before ++ Y :: after) st0 in
  let family := Character.AssetFamily (chars (world st1) c) in
  let Group := FortuneWheelItem.Group Y in
  let reasons :=
    ("Locked item equiped"
     :: (if InventoryBlockedOrLimited E (world st1) c asset
         then ["InventoryBlockedOrLimited"] else [])
     ++ (if InventoryAllow E (world st1) c asset (Asset.Prerequisite asset)
         then [] else ["InventoryAllow"])
     ++ (if InventoryGroupIsBlocked E (world st1) c Group
         then ["InventoryGroupIsBlocked"] else []))%string in
  AssetGet E family Group (FortuneWheelItem.Name Y) = Some asset ->
  callEquip Y (world st1) = true ->
  InventoryGet E (world st1) c Group = Some X ->
  canUnlock E (world st1) X = false ->
  st2 = {| world := world st1;
           equipFailureRecord :=
             <[Asset.Description asset := reasons]> (equipFailureRecord st1);
           equipCallbackOutputs := equipCallbackOutputs st1 |}
  /\ InventoryGet E (world st2) c Group = Some X
  /\ equipFailureRecord st2 !! Asset.Description asset = Some reasons
  /\ is_Some (equipFailureRecord st3 !! Asset.Description asset)
  /\ forall fuel globalCallback w,
       Character.AssetFamily (chars w c) = family ->
       equipStep E fuel c globalCallback (equipFailureRecord st3)
                 (equipCallbackOutputs st3) w Y = Some w.
Proof.
  intros st1 st2 st3 family Group reasons Hasset Hequip Hold Hlock.
  assert (Hst2 : st2 = {| world := world st1;
                          equipFailureRecord :=
                            <[Asset.Description asset := reasons]> (equipFailureRecord st1);
                          equipCallbackOutputs := equipCallbackOutputs st1 |}).
  { unfold st2. rewrite (clearStep_locked E c st1 Y asset X Hasset Hequip Hold Hlock).
    f_equal. f_equal. unfold reasons, equipChecks, Group. simpl drop.
    destruct (InventoryBlockedOrLimited E (world st1) c asset),
             (InventoryAllow E (world st1) c asset (Asset.Prerequisite asset)),
             (InventoryGroupIsBlocked E (world st1) c (FortuneWheelItem.Group Y));
      reflexivity. }
  assert (Hst3 : st3 = clearPass E c after st2).
  { unfold st3, st2, st1. rewrite clearPass_app. reflexivity. }
  clearbody st2 st3.
  assert (Hrec : is_Some (equipFailureRecord st3 !! Asset.Description asset)).
  { rewrite Hst3. apply clearPass_keeps_failures. rewrite Hst2. simpl.
    rewrite lookup_insert_eq. eauto. }
  split; [exact Hst2 |].
  split; [rewrite Hst2; exact Hold |].
  split; [rewrite Hst2; simpl; apply lookup_insert_eq |].
  split; [exact Hrec |].
  intros fuel globalCallback w Hfam. unfold equipStep.
  rewrite Hfam. fold family. fold Group. rewrite Hasset.
  rewrite bool_decide_eq_true_2 by exact Hrec. reflexivity.
Qed.

Lemma C6_locked_occupant_witness :
  equipFailureRecord
    (clearStep Demo.engine 0%nat
       (clearPass Demo.engine 0%nat [Demo.descriptor "Mittens" "ItemHands"]
          {| world := Demo.world0; equipFailureRecord := ∅;
             equipCallbackOutputs := ∅ |})
       (Demo.descriptor "Armbinder" "ItemArms"))
    !! "Armbinder"%string
  = Some ["Locked item equiped"; "InventoryGroupIsBlocked"]%string.
Proof.
  destruct (C6_locked_occupant Demo.engine 0%nat
              [Demo.descriptor "Mittens" "ItemHands"] []
              (Demo.descriptor "Armbinder" "ItemArms")
              {| world := Demo.world0; equipFailureRecord := ∅;
                 equipCallbackOutputs := ∅ |}
              Demo.Armbinder 1%nat eq_refl eq_refl eq_refl eq_refl)
    as (_ & _ & Hrec & _).
  exact Hrec.
Defined.

(** The transaction of the second half of the counterexample, evaluated:
    the armbinder is refused and the mittens are put on, but the cuffs
    (item 1) that held the arms slot are gone. *)
Example fortuneWheelEquip_callback_frees_slot :
  let r :=
    fortuneWheelEquip Demo.engine 3 "maid"
      (JsArray [Demo.descriptor "Armbinder" "ItemArms"; Toy.freeingMittens])
      StripLevel.NONE None None (Some 0%nat) Demo.world0 in
  r.1 = Returned tt
  /\ Character.Appearance (chars r.2 0%nat) = [0; 2; 3; 4]%nat
  /\ InventoryGet Demo.engine r.2 0%nat "ItemArms" = None.
Proof. repeat split; vm_compute; reflexivity. Qed.

(** The same run, evaluated: two reasons are recorded, the world is the
    one the pass started from, and the equip pass leaves it alone. *)
Example clearPass_locked_and_blocked :
  let st :=
    clearPass Demo.engine 0%nat
      [Demo.descriptor "Mittens" "ItemHands"; Demo.descriptor "Armbinder" "ItemArms"]
      {| world := Demo.world0; equipFailureRecord := ∅; equipCallbackOutputs := ∅ |} in
  equipFailureRecord st !! "Armbinder"%string
  = Some ["Locked item equiped"; "InventoryGroupIsBlocked"]%string
  /\ Character.Appearance (chars (world st) 0%nat) = [0; 1; 2; 3]%nat.
Proof. split; vm_compute; reflexivity. Qed.

(** A whole transaction on the demo world: the dress is stripped, the
    leather cuffs are refused (their slot holds a locked item and is
    blocked), the mittens are equipped as item 4 with a fresh copy of the
    declared properties, and the failure is logged for the player. *)
Example fortuneWheelEquip_run :
  let r :=
    fortuneWheelEquip Demo.engine 3 "maid" (JsArray Demo.cuffsAndMittens)
      StripLevel.CLOTHES None None (Some 0%nat) Demo.world0 in
  r.1 = Returned tt
  /\ Character.Appearance (chars r.2 0%nat) = [1; 2; 3; 4]%nat
  /\ Item.Property (items r.2 4%nat) = Some 5%nat
  /\ map (fun entry => (entry.1, map_to_list entry.2)) (console r.2)
     = [("MBS: Failed to equip 1 " +:+ dq +:+ "maid" +:+ dq +:+ " wheel of fortune items",
         [("Leather Cuffs"%string,
           ["Locked item equiped"; "InventoryGroupIsBlocked"]%string)])].
Proof. repeat split; vm_compute; reflexivity. Qed.

(** ** Merging the declared properties *)



Lemma copyOf_weaken (h ext : list obj) (v v' : val) :
  copyOf (h ++ ext) v v' -> copyOf h v v'.
Proof.
  destruct v; simpl; try exact id.
  intros (l' & -> & Hl). exists l'. split; [reflexivity |].
  rewrite length_app in Hl. lia.
Qed.

(** Copying the fields of an object, given that [copy] only adds to the
    heap and returns copies. *)
Lemma copyFields_spec (copy : list obj -> val -> option (list obj * val))
    (Hcopy : forall h v h' v', copy h v = Some (h', v') ->
                               (exists ext, h' = h ++ ext) /\ copyOf h v v') :
  forall fields h h' fields',
    copyFields copy fields h = Some (h', fields') ->
    (exists ext, h' = h ++ ext)
    /\ Forall2 (fun kv kv' => kv'.1 = kv.1 /\ copyOf h kv.2 kv'.2) fields fields'.
Proof.
  induction fields as [| [k v] rest IH]; simpl; intros h h' fields' H.
  - injection H as <- <-. split; [exists []; rewrite app_nil_r; reflexivity | constructor].
  - destruct (copy h v) as [[h1 v'] |] eqn:E1; [| discriminate].
    destruct (copyFields copy rest h1) as [[h2 rest'] |] eqn:E2; [| discriminate].
    injection H as <- <-.
    destruct (Hcopy _ _ _ _ E1) as [[ext1 ->] Hv].
    destruct (IH _ _ _ E2) as [[ext2 ->] Hrest].
    split; [exists (ext1 ++ ext2); rewrite app_assoc; reflexivity |].
    constructor; [split; [reflexivity | exact Hv] |].
    eapply Forall2_impl; [exact Hrest |].
    intros kv kv' [Hk Hc]. split; [exact Hk | eapply copyOf_weaken, Hc].
Qed.

(** [deepCopy] only adds to the heap, and what it returns is a copy. *)
Lemma deepCopy_spec :
  forall fuel h v h' v',
    deepCopy fuel h v = Some (h', v') ->
    (exists ext, h' = h ++ ext) /\ copyOf h v v'.
Proof.
  induction fuel as [| fuel IH]; intros h v h' v' H.
  - destruct v; simpl in H; try discriminate;
      injection H as <- <-;
      (split; [exists []; rewrite app_nil_r; reflexivity | reflexivity]).
  - destruct v; simpl in H;
      try (injection H as <- <-;
           split; [exists []; rewrite app_nil_r; reflexivity | reflexivity]).
    destruct (h !! l) as [o |]; [| discriminate].
    destruct (copyFields (deepCopy fuel) o h) as [[h1 o'] |] eqn:E; [| discriminate].
    injection H as <- <-.
    destruct (copyFields_spec _ IH _ _ _ _ E) as [[ext ->] _].
    split; [exists (ext ++ [o']); rewrite app_assoc; reflexivity |].
    simpl. eexists. split; [reflexivity |]. rewrite length_app. lia.
Qed.

(** The copy of an object: a new object at the end of the grown heap,
    holding the keys of the original with copies of its values. *)
Lemma deepCopy_object (fuel : nat) (h : list obj) (l : loc) (h' : list obj) (v' : val) :
  deepCopy fuel h (VRef l) = Some (h', v') ->
  exists o o' ext,
    h !! l = Some o
    /\ h' = h ++ ext ++ [o']
    /\ v' = VRef (length (h ++ ext))
    /\ Forall2 (fun kv kv' => kv'.1 = kv.1 /\ copyOf h kv.2 kv'.2) o o'.
Proof.
  destruct fuel as [| fuel]; simpl; [discriminate |].
  destruct (h !! l) as [o |]; [| discriminate].
  destruct (copyFields (deepCopy fuel) o h) as [[h1 o'] |] eqn:E; [| discriminate].
  intros H. injection H as <- <-.
  destruct (copyFields_spec _ (deepCopy_spec fuel) _ _ _ _ E) as [[ext ->] Hall].
  exists o, o', ext. repeat split; [rewrite app_assoc; reflexivity | exact Hall].
Qed.

(** Growing the heap keeps a nested structure nested. *)
Lemma nestedb_app (ext : list obj) :
  forall n h v, nestedb n h v = true -> nestedb n (h ++ ext) v = true.
Proof.
  induction n as [| n IH]; intros h v H; destruct v; simpl in *;
    try reflexivity; try discriminate.
  destruct (h !! l) as [o |] eqn:E; [| discriminate].
  rewrite (lookup_app_l_Some _ _ _ _ E).
  rewrite forallb_forall in H. rewrite forallb_forall.
  intros kv Hin. apply IH, H, Hin.
Qed.

Lemma copyFields_total (copy : list obj -> val -> option (list obj * val)) (n : nat)
    (Hext : forall h v h' v', copy h v = Some (h', v') -> exists ext, h' = h ++ ext)
    (Htotal : forall h v, nestedb n h v = true -> exists h' v', copy h v = Some (h', v')) :
  forall fields h,
    forallb (fun kv => nestedb n h kv.2) fields = true ->
    exists h' fields', copyFields copy fields h = Some (h', fields').
Proof.
  induction fields as [| [k v] rest IH]; simpl; intros h H; [eauto |].
  apply andb_true_iff in H as [Hv Hrest].
  destruct (Htotal h v Hv) as (h1 & v' & E1). rewrite E1.
  destruct (Hext _ _ _ _ E1) as [ext ->].
  destruct (IH (h ++ ext)) as (h2 & rest' & E2).
  { rewrite forallb_forall in Hrest. rewrite forallb_forall.
    intros kv Hin. apply nestedb_app, Hrest, Hin. }
  rewrite E2. eauto.
Qed.

(** With fuel for the depth of the structure, [deepCopy] returns. *)
Lemma deepCopy_total :
  forall n fuel h v,
    nestedb n h v = true -> (n <= fuel)%nat ->
    exists h' v', deepCopy fuel h v = Some (h', v').
Proof.
  induction n as [| n IH]; intros fuel h v H Hfuel.
  - destruct v; simpl in H; try discriminate; destruct fuel; simpl; eauto.
  - destruct v; try (destruct fuel; simpl; eauto; fail).
    destruct fuel as [| fuel]; [lia |].
    simpl in *. destruct (h !! l) as [o |]; [| discriminate].
    destruct (copyFields_total (deepCopy fuel) n) with (fields := o) (h := h)
      as (h1 & o' & E).
    + intros h0 v0 h0' v0' H0. apply (deepCopy_spec _ _ _ _ _ H0).
    + intros h0 v0 H0. apply IH; [exact H0 | lia].
    + exact H.
    + rewrite E. eauto.
Qed.







(** The merge of the counterexample, evaluated: the harness holds the
    declared object (object 1) before and after, and that object is
    rewritten: its effect list is now the copy (object 4), no longer the
    list it was declared with (object 2). *)
Example mergeProperty_on_shared_bag :
  option_map (fun w' => (Item.Property (items w' 2%nat), objs w' !! 1%nat))
             (mergeProperty 2 Toy.sharedBag 2%nat 1%nat)
  = Some (Some 1%nat, Some [("Difficulty", VNumber 5); ("Effect", VRef 4)]%string).
Proof. reflexivity. Qed.

(** The same merge, evaluated: the tightening level stays, the difficulty
    is overwritten, and the effect list is a new object (object 5) that
    repeats the descriptor's (object 2). *)
Example mergeProperty_on_harness :
  option_map objs (mergeProperty 2 Demo.world0 2%nat 1%nat)
  = Some [ [("Effect", VString "Lock")];
           [("Difficulty", VNumber 5); ("Effect", VRef 2)];
           [("0", VString "Block")];
           [("TightenLevel", VNumber 3); ("Difficulty", VNumber 5); ("Effect", VRef 4)];
           [("0", VString "Block")];
           [("Difficulty", VNumber 5); ("Effect", VRef 4)] ]%string.
Proof. reflexivity. Qed.

(** When the instance has no property bag yet, it receives the copy, an
    object that did not exist before and so is not the descriptor's. *)
Lemma mergeProperty_null (fuel : nat) (w w' : World) (newItem : iref) (Property : loc) :
  Item.Property (items w newItem) = None ->
  mergeProperty fuel w newItem Property = Some w' ->
  exists copy,
    Item.Property (items w' newItem) = Some copy
    /\ (length (objs w) <= copy)%nat
    /\ copy <> Property.
Proof.
  unfold mergeProperty. intros -> H.
  destruct (deepCopy fuel (objs w) (VRef Property)) as [[h v] |] eqn:E; [| discriminate].
  destruct (deepCopy_object _ _ _ _ _ E) as (o & o' & ext & Ho & -> & -> & _).
  injection H as <-. eexists. split.
  - simpl. rewrite Nat.eqb_refl. reflexivity.
  - apply lookup_lt_Some in Ho. rewrite length_app. split; lia.
Qed.

(** * Further properties of the code *)

(** ** The strip pass as a whole *)

Lemma appearanceFrame_refl c w : appearanceFrame c w w.
Proof. repeat split. Qed.

Lemma appearanceFrame_trans c w1 w2 w3 :
  appearanceFrame c w1 w2 -> appearanceFrame c w2 w3 -> appearanceFrame c w1 w3.
Proof.
  intros (A1 & A2 & A3 & A4 & A5 & A6 & A7 & A8 & A9)
         (B1 & B2 & B3 & B4 & B5 & B6 & B7 & B8 & B9).
  repeat split; try congruence.
  intros c' Hc'. rewrite B4, A4 by exact Hc'. reflexivity.
Qed.

Lemma set_appearance_frame c w app : appearanceFrame c w (set_appearance w c app).
Proof.
  unfold appearanceFrame, set_appearance, set_char. simpl.
  rewrite Nat.eqb_refl. repeat split.
  intros c' Hc'. apply Nat.eqb_neq in Hc'. rewrite Hc'. reflexivity.
Qed.

Lemma set_appearance_read c w app :
  Character.Appearance (chars (set_appearance w c app) c) = app.
Proof. unfold set_appearance, set_char. simpl. rewrite Nat.eqb_refl. reflexivity. Qed.

Lemma blockBodyCosplay_frame c w w' :
  appearanceFrame c w w' -> blockBodyCosplay w' c = blockBodyCosplay w c.
Proof.
  intros (_ & _ & _ & _ & _ & _ & _ & H & _). unfold blockBodyCosplay.
  rewrite H. reflexivity.
Qed.

(** The predicates of [getStripCondition] read the settings only. *)
Lemma getStripCondition_frame lvl c p :
  getStripCondition lvl c = Returned p ->
  forall w w' a, appearanceFrame c w w' -> p w' a = p w a.
Proof.
  unfold getStripCondition. intros H w w' a Hf.
  destruct (lvl =? StripLevel.NONE)%Z; [injection H as <-; reflexivity |].
  destruct (lvl =? StripLevel.CLOTHES)%Z; [injection H as <-; reflexivity |].
  destruct (lvl =? StripLevel.UNDERWEAR)%Z; [injection H as <-; reflexivity |].
  destruct (lvl =? StripLevel.COSPLAY)%Z;
    [injection H as <-; rewrite (blockBodyCosplay_frame c w w' Hf); reflexivity |].
  destruct (lvl =? StripLevel.ALL)%Z;
    [injection H as <-; rewrite (blockBodyCosplay_frame c w w' Hf); reflexivity |].
  discriminate.
Qed.

Lemma strips_frame p c w w' r :
  (forall a, p w' a = p w a) -> appearanceFrame c w w' ->
  strips p w' r = strips p w r.
Proof.
  intros Hp (Hi & _). unfold strips. rewrite Hi, Hp. reflexivity.
Qed.

Lemma stripAt_unfold p c w i :
  stripAt p c w i =
  match Character.Appearance (chars w c) !! i with
  | None => w
  | Some r =>
      if strips p w r
      then set_appearance w c (delete i (Character.Appearance (chars w c)))
      else w
  end.
Proof. reflexivity. Qed.

(** Running the loop down from index [n] filters the first [n] worn items
    and leaves the rest of the character and of the world alone. *)
Lemma stripLoop_filters p c
    (Hp : forall w w' a, appearanceFrame c w w' -> p w' a = p w a) :
  forall n w,
    (n <= length (Character.Appearance (chars w c)))%nat ->
    Character.Appearance (chars (stripLoop p c n w) c)
    = filter (fun r => strips p w r = false) (take n (Character.Appearance (chars w c)))
      ++ drop n (Character.Appearance (chars w c))
    /\ appearanceFrame c w (stripLoop p c n w).
Proof.
  induction n as [| i IH]; intros w Hn.
  - split; [reflexivity | apply appearanceFrame_refl].
  - set (app := Character.Appearance (chars w c)) in *.
    destruct (lookup_lt_is_Some_2 app i ltac:(lia)) as [r Hr].
    simpl stripLoop. rewrite stripAt_unfold. fold app. rewrite Hr.
    rewrite (take_S_r _ _ _ Hr), filter_app, <- app_assoc.
    destruct (strips p w r) eqn:Hs.
    + pose proof (set_appearance_frame c w (delete i app)) as Hf.
      destruct (IH (set_appearance w c (delete i app))) as [Happ Hframe].
      { rewrite set_appearance_read, length_delete by eauto. lia. }
      split; [| eapply appearanceFrame_trans; eassumption].
      rewrite Happ, set_appearance_read, delete_take_drop.
      rewrite take_app_length' by (rewrite length_take; lia).
      rewrite drop_app_length' by (rewrite length_take; lia).
      rewrite filter_cons_False by (rewrite Hs; discriminate).
      rewrite filter_nil. simpl. f_equal.
      apply list_filter_iff. intros x. cbv beta.
      rewrite (strips_frame p c w _ x
                 (fun a => Hp _ _ a (set_appearance_frame c w _))
                 (set_appearance_frame c w _)).
      reflexivity.
    + destruct (IH w) as [Happ Hframe]; [fold app; lia |].
      split; [| exact Hframe].
      rewrite Happ. fold app. rewrite (drop_S _ _ _ Hr).
      rewrite filter_cons_True by exact Hs. rewrite filter_nil. reflexivity.
Qed.

(** What a run of [characterStrip] on a valid character does. *)
Lemma characterStrip_run (lvl : Z) (c : cref) (w : World)
    (p : World -> Asset.t -> bool) :
  Character.IsSimple (chars w c) || Character.IsPlayer (chars w c) = true ->
  getStripCondition lvl c = Returned p ->
  exists w',
    characterStrip lvl (Some c) w = (Returned tt, w')
    /\ Character.Appearance (chars w' c)
       = filter (fun r => strips p w r = false) (Character.Appearance (chars w c))
    /\ appearanceFrame c w w'.
Proof.
  intros Hkind Hp. unfold characterStrip. rewrite Hkind, Hp. simpl negb. cbv iota.
  eexists. split; [reflexivity |].
  destruct (stripLoop_filters p c (getStripCondition_frame lvl c p Hp)
              (length (Character.Appearance (chars w c))) w (le_n _))
    as [Happ Hframe].
  split; [| exact Hframe].
  rewrite Happ, firstn_all, drop_all, app_nil_r. reflexivity.
Qed.

(** X1: for a simple or player character and one of the five levels,
    [characterStrip] returns, the character wears afterwards exactly the
    items that fail the removal test, in their former order, and nothing
    else in the world has changed. *)
Theorem X1_characterStrip_filters (lvl : Z) (c : cref) (w : World)
    (p : World -> Asset.t -> bool) :
  Character.IsSimple (chars w c) || Character.IsPlayer (chars w c) = true ->
  getStripCondition lvl c = Returned p ->
  exists w',
    characterStrip lvl (Some c) w = (Returned tt, w')
    /\ Character.Appearance (chars w' c)
       = filter (fun r => strips p w r = false) (Character.Appearance (chars w c))
    /\ appearanceFrame c w w'.
Proof.
  intros Hkind Hp.
  pose proof (stripLoop_filters p c (getStripCondition_frame lvl c p Hp)
                (length (Character.Appearance (chars w c))) w (le_n _)) as [Happ Hframe].
  rewrite firstn_all, drop_all, app_nil_r in Happ.
  exists (stripLoop p c (length (Character.Appearance (chars w c))) w).
  split; [| split; assumption].
  unfold characterStrip. rewrite Hkind, Hp. reflexivity.
Qed.

Lemma X1_characterStrip_filters_witness :
  exists w',
    characterStrip StripLevel.ALL (Some 0%nat) Demo.world0 = (Returned tt, w')
    /\ Character.Appearance (chars w' 0%nat) = [1; 2]%nat.
Proof.
  destruct (X1_characterStrip_filters StripLevel.ALL 0%nat Demo.world0 _ eq_refl eq_refl)
    as (w' & Hrun & Happ & _).
  exists w'. split; [exact Hrun |]. rewrite Happ. reflexivity.
Defined.

(** When no worn item passes the test the loop hands back the very world
    it was given. *)
Lemma stripLoop_nothing p c :
  forall n w,
    (forall r, r ∈ Character.Appearance (chars w c) -> strips p w r = false) ->
    stripLoop p c n w = w.
Proof.
  induction n as [| i IH]; intros w H; [reflexivity |].
  simpl. rewrite stripAt_unfold.
  destruct (Character.Appearance (chars w c) !! i) as [r |] eqn:Hr; [| apply IH, H].
  rewrite (H r) by (eapply list_elem_of_lookup_2, Hr). apply IH, H.
Qed.

(** X2: at level None [characterStrip] changes nothing at all. *)
Theorem X2_characterStrip_none (c : cref) (w : World) :
  Character.IsSimple (chars w c) || Character.IsPlayer (chars w c) = true ->
  characterStrip StripLevel.NONE (Some c) w = (Returned tt, w).
Proof.
  intros Hkind. unfold characterStrip. rewrite Hkind. simpl.
  rewrite stripLoop_nothing; [reflexivity |].
  intros r _. unfold strips. apply andb_false_r.
Qed.

Lemma X2_characterStrip_none_witness :
  characterStrip StripLevel.NONE (Some 0%nat) Demo.world0 = (Returned tt, Demo.world0).
Proof. exact (X2_characterStrip_none 0%nat Demo.world0 eq_refl). Defined.

(** X3: whatever the level, [characterStrip] keeps every worn item whose
    group is not of the "Appearance" category (restraints among them) and
    every item whose group may not be left empty. *)
Theorem X3_characterStrip_keeps_items (lvl : Z) (c : cref) (w w' : World) (r : iref) :
  characterStrip lvl (Some c) w = (Returned tt, w') ->
  r ∈ Character.Appearance (chars w c) ->
  AssetGroup.Category (Asset.Group (Item.Asset (items w r))) <> "Appearance"%string
  \/ AssetGroup.AllowNone (Asset.Group (Item.Asset (items w r))) = false ->
  r ∈ Character.Appearance (chars w' c).
Proof.
  intros Hrun Hin Hkeep. unfold characterStrip in Hrun.
  destruct (negb _) eqn:Hkind; [discriminate |].
  apply negb_false_iff in Hkind.
  destruct (getStripCondition lvl c) as [p | |] eqn:Hp; try discriminate.
  destruct (characterStrip_run lvl c w p Hkind Hp) as (w1 & Hrun1 & Happ & _).
  unfold characterStrip in Hrun1. rewrite Hkind, Hp in Hrun1. simpl in Hrun1.
  rewrite Hrun1 in Hrun. injection Hrun as <-.
  rewrite Happ. apply list_elem_of_filter. split; [| exact Hin].
  unfold strips. destruct Hkeep as [Hcat | Hnone].
  - apply String.eqb_neq in Hcat. rewrite Hcat, andb_false_r. reflexivity.
  - rewrite Hnone. reflexivity.
Qed.

Lemma X3_characterStrip_keeps_items_witness :
  1%nat ∈ Character.Appearance
            (chars (characterStrip StripLevel.ALL (Some 0%nat) Demo.world0).2 0%nat).
Proof.
  apply (X3_characterStrip_keeps_items StripLevel.ALL 0%nat Demo.world0 _ 1%nat eq_refl).
  - vm_compute. apply list_elem_of_further, list_elem_of_here.
  - left. discriminate.
Defined.

(** X4: stripping a second time at the same level changes nothing. *)
Theorem X4_characterStrip_idempotent (lvl : Z) (c : cref) (w w' : World) :
  characterStrip lvl (Some c) w = (Returned tt, w') ->
  characterStrip lvl (Some c) w' = (Returned tt, w').
Proof.
  intros Hrun. unfold characterStrip in Hrun.
  destruct (negb _) eqn:Hkind; [discriminate |].
  apply negb_false_iff in Hkind.
  destruct (getStripCondition lvl c) as [p | |] eqn:Hp; try discriminate.
  destruct (characterStrip_run lvl c w p Hkind Hp) as (w1 & Hrun1 & Happ & Hf).
  unfold characterStrip in Hrun1. rewrite Hkind, Hp in Hrun1. simpl in Hrun1.
  rewrite Hrun1 in Hrun. injection Hrun as <-.
  pose proof Hf as (_ & _ & _ & _ & _ & Hs & Hpl & _).
  unfold characterStrip. rewrite Hs, Hpl, Hkind, Hp. simpl.
  rewrite stripLoop_nothing; [reflexivity |].
  intros r Hr. rewrite Happ in Hr. apply list_elem_of_filter in Hr as [Hr _].
  rewrite (strips_frame p c w w1 r); [exact Hr | | exact Hf].
  intros a. eapply getStripCondition_frame; eassumption.
Qed.

Lemma X4_characterStrip_idempotent_witness :
  let w' := (characterStrip StripLevel.CLOTHES (Some 0%nat) Demo.world0).2 in
  characterStrip StripLevel.CLOTHES (Some 0%nat) w' = (Returned tt, w').
Proof.
  exact (X4_characterStrip_idempotent StripLevel.CLOTHES 0%nat Demo.world0 _ eq_refl).
Defined.

(** A higher level removes whatever a lower level removes. *)
Lemma getStripCondition_le (L L' : Z) (c : cref) (p p' : World -> Asset.t -> bool)
    (w : World) (a : Asset.t) :
  (L <= L')%Z ->
  getStripCondition L c = Returned p ->
  getStripCondition L' c = Returned p' ->
  p w a = true -> p' w a = true.
Proof.
  intros HL Hp Hp'.
  assert (HLr : (0 <= L <= 4)%Z).
  { destruct (Z_le_gt_dec 0 L) as [H0 | H0], (Z_le_gt_dec L 4) as [H4 | H4];
      try lia; destruct (getStripCondition_invalid L c) as [msg Hm];
      try lia; rewrite Hm in Hp; discriminate. }
  assert (HLr' : (0 <= L' <= 4)%Z).
  { destruct (Z_le_gt_dec 0 L') as [H0 | H0], (Z_le_gt_dec L' 4) as [H4 | H4];
      try lia; destruct (getStripCondition_invalid L' c) as [msg Hm];
      try lia; rewrite Hm in Hp'; discriminate. }
  assert (L = 0 \/ L = 1 \/ L = 2 \/ L = 3 \/ L = 4)%Z
    as [-> | [-> | [-> | [-> | ->]]]] by lia;
  assert (L' = 0 \/ L' = 1 \/ L' = 2 \/ L' = 3 \/ L' = 4)%Z
    as [-> | [-> | [-> | [-> | ->]]]] by lia;
  try lia;
  injection Hp as <-; injection Hp' as <-;
  destruct (AssetGroup.AllowNone (Asset.Group a)),
           (Asset.BodyCosplay a),
           (AssetGroup.Underwear (Asset.Group a)),
           (blockBodyCosplay w c);
  simpl; intros H; solve [reflexivity | discriminate H].
Qed.

(** X5: stripping at a level and then at a higher one leaves the character
    wearing what stripping at the higher level alone leaves. *)
Theorem X5_characterStrip_then_higher (L L' : Z) (c : cref) (w w1 w2 w12 : World) :
  (L <= L')%Z ->
  characterStrip L (Some c) w = (Returned tt, w1) ->
  characterStrip L' (Some c) w1 = (Returned tt, w12) ->
  characterStrip L' (Some c) w = (Returned tt, w2) ->
  Character.Appearance (chars w12 c) = Character.Appearance (chars w2 c).
Proof.
  intros HL H1 H12 H2.
  assert (Hkind : Character.IsSimple (chars w c) || Character.IsPlayer (chars w c) = true).
  { unfold characterStrip in H1. destruct (negb _) eqn:E; [discriminate |].
    apply negb_false_iff in E. exact E. }
  destruct (getStripCondition L c) as [p | |] eqn:Hp;
    try (unfold characterStrip in H1; rewrite Hkind, Hp in H1; discriminate).
  destruct (getStripCondition L' c) as [p' | |] eqn:Hp';
    try (unfold characterStrip in H2; rewrite Hkind, Hp' in H2; discriminate).
  destruct (characterStrip_run L c w p Hkind Hp) as (x1 & E1 & A1 & F1).
  rewrite E1 in H1. injection H1 as ->.
  destruct (characterStrip_run L' c w p' Hkind Hp') as (x2 & E2 & A2 & F2).
  rewrite E2 in H2. injection H2 as ->.
  pose proof F1 as (_ & _ & _ & _ & _ & Hs & Hpl & _).
  destruct (characterStrip_run L' c w1 p') as (x12 & E12 & A12 & F12);
    [rewrite Hs, Hpl; exact Hkind | exact Hp' |].
  rewrite E12 in H12. injection H12 as ->.
  rewrite A12, A1, A2, list_filter_filter. apply list_filter_iff. intros r.
  rewrite (strips_frame p' c w w1 r);
    [| intros a; eapply getStripCondition_frame; eassumption | exact F1].
  split; [intros [H _]; exact H | intros H; split; [exact H |]].
  unfold strips in *. destruct (AssetGroup.AllowNone _); [| reflexivity].
  destruct (String.eqb _ _); [| reflexivity]. simpl in *.
  destruct (p w (Item.Asset (items w r))) eqn:E; [| reflexivity].
  rewrite (getStripCondition_le L L' c p p' w _ HL Hp Hp' E) in H. discriminate.
Qed.

Lemma X5_characterStrip_then_higher_witness :
  Character.Appearance
    (chars (characterStrip StripLevel.ALL (Some 0%nat)
              (characterStrip StripLevel.CLOTHES (Some 0%nat) Demo.world0).2).2 0%nat)
  = Character.Appearance
      (chars (characterStrip StripLevel.ALL (Some 0%nat) Demo.world0).2 0%nat).
Proof.
  refine (X5_characterStrip_then_higher StripLevel.CLOTHES StripLevel.ALL 0%nat
            Demo.world0 _ _ _ _ eq_refl eq_refl eq_refl).
  unfold StripLevel.CLOTHES, StripLevel.ALL. lia.
Defined.

(** X6: a level with an integer value outside the five known ones makes
    [characterStrip], and with it [fortuneWheelEquip], throw the message
    that names the value the way a template literal prints it, before a
    single item is removed.  A value no larger in size than
    [Number.MAX_SAFE_INTEGER] is named by its digits. *)
Theorem X6_invalid_level_throws (E : Engine) (fuel : nat) (name : string)
    (l : list FortuneWheelItem.t) (lvl : Z)
    (globalCallback : option (iref -> cref -> World -> World))
    (preRunCallback :
       option (list FortuneWheelItem.t -> cref -> World -> list FortuneWheelItem.t * World))
    (c : cref) (w : World) :
  (lvl < 0 \/ 4 < lvl)%Z ->
  Character.IsSimple (chars w c) || Character.IsPlayer (chars w c) = true ->
  let msg :=
    ("Invalid " +:+ dq +:+ "stripLevel" +:+ dq +:+ " value: " +:+ Number_toString lvl) in
  characterStrip lvl (Some c) w = (Thrown msg, w)
  /\ fortuneWheelEquip E fuel name (JsArray l) lvl globalCallback preRunCallback (Some c) w
     = (Thrown msg, w)
  /\ ((Z.abs lvl <= MAX_SAFE_INTEGER)%Z -> Number_toString lvl = pretty lvl).
Proof.
  intros Hlvl Hkind msg.
  assert (Hp : getStripCondition lvl c = Thrown msg).
  { unfold getStripCondition, StripLevel.NONE, StripLevel.CLOTHES,
      StripLevel.UNDERWEAR, StripLevel.COSPLAY, StripLevel.ALL.
    destruct (Z.eqb_spec lvl 0); [lia |].
    destruct (Z.eqb_spec lvl 1); [lia |].
    destruct (Z.eqb_spec lvl 2); [lia |].
    destruct (Z.eqb_spec lvl 3); [lia |].
    destruct (Z.eqb_spec lvl 4); [lia |].
    reflexivity. }
  assert (Hs : characterStrip lvl (Some c) w = (Thrown msg, w)).
  { unfold characterStrip. rewrite Hkind, Hp. reflexivity. }
  split; [exact Hs |].
  split; [unfold fortuneWheelEquip; rewrite Hs; reflexivity |].
  intros Hsafe. unfold Number_toString.
  destruct (Z.leb_spec (Z.abs lvl) MAX_SAFE_INTEGER) as [_ | Hgt]; [reflexivity | lia].
Qed.

Lemma X6_invalid_level_throws_witness :
  characterStrip 7 (Some 0%nat) Demo.world0
  = (Thrown ("Invalid " +:+ dq +:+ "stripLevel" +:+ dq +:+ " value: 7"), Demo.world0)
  /\ characterStrip (10 ^ 21) (Some 0%nat) Demo.world0
     = (Thrown ("Invalid " +:+ dq +:+ "stripLevel" +:+ dq +:+ " value: 1e+21"),
        Demo.world0).
Proof.
  split.
  - refine (proj1 (X6_invalid_level_throws Demo.engine 0 "maid" [] 7 None None 0%nat
                     Demo.world0 _ eq_refl)).
    right. lia.
  - refine (proj1 (X6_invalid_level_throws Demo.engine 0 "maid" [] (10 ^ 21) None None
                     0%nat Demo.world0 _ eq_refl)).
    right. lia.
Defined.

(** Large levels, as they are printed: [2 ^ 53] is the last to come out
    digit for digit, [2 ^ 60] comes out rounded to seventeen digits, and
    the exponent form starts at [10 ^ 21]. *)
Example Number_toString_large :
  Number_toString (2 ^ 53) = "9007199254740992"%string
  /\ Number_toString (2 ^ 60) = "1152921504606847000"%string
  /\ Number_toString (10 ^ 21 - 131072) = "999999999999999900000"%string
  /\ Number_toString (10 ^ 21) = "1e+21"%string
  /\ Number_toString (2 ^ 70) = "1.1805916207174113e+21"%string
  /\ Number_toString (- 10 ^ 22) = "-1e+22"%string.
Proof. repeat split; vm_compute; reflexivity. Qed.

Lemma stripLoop_ext p p' c
    (H : forall w r, strips p w r = strips p' w r) :
  forall n w, stripLoop p c n w = stripLoop p' c n w.
Proof.
  induction n as [| i IH]; intros w; [reflexivity |].
  simpl. rewrite !stripAt_unfold.
  destruct (Character.Appearance (chars w c) !! i) as [r |]; [| apply IH].
  rewrite (H w r). apply IH.
Qed.

(** X26: [characterStrip] does the same at the levels Cosplay and All.
    The two predicates differ only on items whose group may not be left
    empty, and the loop never removes those. *)
Theorem X26_characterStrip_cosplay_is_all (character : option cref) (w : World) :
  characterStrip StripLevel.COSPLAY character w
  = characterStrip StripLevel.ALL character w.
Proof.
  unfold characterStrip. destruct character as [c |]; [| reflexivity].
  destruct (negb _); [reflexivity |]. simpl. f_equal.
  apply stripLoop_ext. intros w' r. unfold strips.
  destruct (AssetGroup.AllowNone _); [| reflexivity].
  destruct (blockBodyCosplay w' c); reflexivity.
Qed.

(** ** The sorting record *)

Lemma buildGraph_unknown (E : Engine) (w : World) (character : cref)
    (item : SimpleItem.t) (after : list SimpleItem.t) :
  AssetGet E (Character.AssetFamily (chars w character))
           (SimpleItem.Group item) (SimpleItem.Name item) = None ->
  forall before g0,
    Forall (fun x => is_Some (AssetGet E (Character.AssetFamily (chars w character))
                                (SimpleItem.Group x) (SimpleItem.Name x))) before ->
    buildGraph E w character (before ++ item :: after) g0
    = Thrown ("Unknown asset: " +:+ SimpleItem.Group item +:+ SimpleItem.Name item).
Proof.
  intros Hnone. induction before as [| x before IH]; intros g0 Hall; simpl.
  - rewrite Hnone. reflexivity.
  - apply Forall_cons in Hall as [[asset Hx] Hall]. rewrite Hx.
    destruct (negb _); apply IH, Hall.
Qed.

(** X7: the first descriptor whose asset is unknown makes [itemsArgSort]
    and [fortuneItemsSort] throw the message that names it, whatever comes
    after it in the list and whatever the fuel. *)
Theorem X7_unknown_asset_aborts_sort (E : Engine) (fuel : nat) (w : World)
    (character : cref) (before after : list FortuneWheelItem.t)
    (item : FortuneWheelItem.t) :
  Forall (fun x => is_Some (AssetGet E (Character.AssetFamily (chars w character))
                              (FortuneWheelItem.Group x) (FortuneWheelItem.Name x)))
         before ->
  AssetGet E (Character.AssetFamily (chars w character))
           (FortuneWheelItem.Group item) (FortuneWheelItem.Name item) = None ->
  let msg := ("Unknown asset: " +:+ FortuneWheelItem.Group item
                +:+ FortuneWheelItem.Name item) in
  itemsArgSort E fuel w (JsArray (map asSimpleItem (before ++ item :: after))) character
  = Thrown msg
  /\ fortuneItemsSort E fuel w (before ++ item :: after) character = Thrown msg.
Proof.
  intros Hbefore Hnone msg.
  assert (H : itemsArgSort E fuel w
                (JsArray (map asSimpleItem (before ++ item :: after))) character
              = Thrown msg).
  { unfold itemsArgSort. rewrite map_app. simpl map.
    rewrite (buildGraph_unknown E w character (asSimpleItem item)); [reflexivity | exact Hnone |].
    apply Forall_map. simpl. exact Hbefore. }
  split; [exact H |]. unfold fortuneItemsSort. rewrite H. reflexivity.
Qed.

Lemma X7_unknown_asset_aborts_sort_witness :
  fortuneItemsSort Demo.engine 5 Demo.world0
    [Demo.descriptor "Mittens" "ItemHands"; Demo.descriptor "Gloves" "ItemHands";
     Demo.descriptor "Dress" "Cloth"] 0%nat
  = Thrown "Unknown asset: ItemHandsGloves".
Proof.
  refine (proj2 (X7_unknown_asset_aborts_sort Demo.engine 5 Demo.world0 0%nat
                   [Demo.descriptor "Mittens" "ItemHands"] [Demo.descriptor "Dress" "Cloth"]
                   (Demo.descriptor "Gloves" "ItemHands") _ eq_refl)).
  constructor; [eexists; reflexivity | constructor].
Defined.

(** The keys of the built graph: those it started with and the slots of the
    descriptors that take part. *)
Lemma buildGraph_keys (E : Engine) (w : World) (character : cref) :
  forall itemList g0 g,
    buildGraph E w character itemList g0 = Returned g ->
    forall k,
      is_Some (Map_get g k) <->
      is_Some (Map_get g0 k)
      \/ exists item, item ∈ itemList /\ SimpleItem.Group item = k
                      /\ inGraph E w character item.
Proof.
  induction itemList as [| item rest IH]; simpl; intros g0 g H k.
  - injection H as <-. split; [auto |].
    intros [Hk | (item & Hin & _)]; [exact Hk |].
    apply elem_of_nil in Hin. contradiction.
  - destruct (AssetGet E _ _ _) as [asset |] eqn:Hasset; [| discriminate].
    destruct (String.eqb_spec (AssetGroup.Category (Asset.Group asset)) "Item")
      as [Hcat | Hcat]; simpl in H.
    + rewrite (IH _ _ H k). split.
      * intros [Hk | (x & Hin & Hg & Hx)].
        -- destruct (String.eqb_spec (SimpleItem.Group item) k) as [Heq | Hne].
           ++ right. exists item. split; [apply list_elem_of_here |].
              split; [exact Heq |]. exists asset. split; assumption.
           ++ left. rewrite Map_get_set_ne in Hk by exact Hne. exact Hk.
        -- right. exists x. split; [apply list_elem_of_further, Hin | split; assumption].
      * intros [Hk | (x & Hin & Hg & Hx)].
        -- left. destruct (String.eqb_spec (SimpleItem.Group item) k) as [<- | Hne].
           ++ rewrite Map_get_set_eq. eauto.
           ++ rewrite Map_get_set_ne by exact Hne. exact Hk.
        -- apply elem_of_cons in Hin as [-> | Hin].
           ++ left. rewrite <- Hg, Map_get_set_eq. eauto.
           ++ right. exists x. split; [exact Hin | split; assumption].
    + rewrite (IH _ _ H k). split.
      * intros [Hk | (x & Hin & Hg & Hx)]; [left; exact Hk | right].
        exists x. split; [apply list_elem_of_further, Hin | split; assumption].
      * intros [Hk | (x & Hin & Hg & Hx)]; [left; exact Hk |].
        apply elem_of_cons in Hin as [-> | Hin].
        -- destruct Hx as (asset' & Ha & Hc). rewrite Hasset in Ha.
           injection Ha as <-. contradiction.
        -- right. exists x. split; [exact Hin | split; assumption].
Qed.

(** X8: the record that [itemsArgSort] returns has an entry for a slot
    exactly when some descriptor of the list targets that slot with an
    asset of the "Item" category. *)
Theorem X8_record_keys (E : Engine) (fuel : nat) (w : World) (character : cref)
    (itemList : list SimpleItem.t) (sortRecord : gmap string (option number))
    (group : string) :
  itemsArgSort E fuel w (JsArray itemList) character = Returned sortRecord ->
  (is_Some (sortRecord !! group) <->
   exists item, item ∈ itemList /\ SimpleItem.Group item = group
                /\ inGraph E w character item).
Proof.
  unfold itemsArgSort. intros H.
  destruct (buildGraph E w character itemList []) as [g | |] eqn:Hbuild; try discriminate.
  destruct (traverse fuel (map fst g) g) as [g' |] eqn:Hrun; [| discriminate].
  injection H as <-.
  destruct (buildGraph_fresh E w character itemList [] g Hbuild)
    as [Hnd _]; [apply NoDup_nil_2 | intros k nd H; discriminate H |].
  pose proof (traverse_keys _ _ _ _ Hrun) as Hkeys.
  rewrite collect_lookup by (rewrite Hkeys; exact Hnd).
  assert (Hiff : is_Some (Map_get g' group) <-> is_Some (Map_get g group)).
  { rewrite <- !not_eq_None_Some, !Map_get_None, Hkeys. reflexivity. }
  pose proof (buildGraph_keys E w character itemList [] g Hbuild group) as Hk.
  split.
  - intros Hsome.
    assert (Hg' : is_Some (Map_get g' group))
      by (destruct (Map_get g' group); [eauto | destruct Hsome; discriminate]).
    apply Hiff, Hk in Hg' as [[x Hx] | Hitem]; [discriminate | exact Hitem].
  - intros Hitem.
    assert (Hg' : is_Some (Map_get g' group)) by (apply Hiff, Hk; right; exact Hitem).
    destruct Hg' as [nd ->]. simpl. eauto.
Qed.

Lemma X8_record_keys_witness :
  exists sortRecord,
    itemsArgSort Demo.engine 2 Demo.world0
      (JsArray (map asSimpleItem Demo.dressAndMittens)) 0%nat = Returned sortRecord
    /\ is_Some (sortRecord !! "ItemHands"%string).
Proof.
  eexists. split; [reflexivity |].
  eapply (X8_record_keys Demo.engine 2 Demo.world0 0%nat
            (map asSimpleItem Demo.dressAndMittens)); [reflexivity |].
  exists (asSimpleItem (Demo.descriptor "Mittens" "ItemHands")).
  split; [apply list_elem_of_further, list_elem_of_here |].
  split; [reflexivity |]. exists Demo.Mittens. split; reflexivity.
Defined.

Lemma set_priority_natural g k p :
  naturalPriorities g -> integerFrom 0 p -> naturalPriorities (set_priority g k p).
Proof.
  intros Hn Hp k' nd' p' Hget Hprio.
  destruct (String.eqb_spec k k') as [<- | Hne].
  - unfold set_priority in Hget. destruct (Map_get g k) as [nd |] eqn:E.
    + rewrite Map_get_set_eq in Hget. injection Hget as <-. simpl in Hprio.
      injection Hprio as <-. exact Hp.
    + rewrite E in Hget. discriminate.
  - rewrite get_set_priority_ne in Hget by exact Hne. eapply Hn; eassumption.
Qed.

Lemma set_priority_written_mono g k p k' :
  written g k' -> written (set_priority g k p) k'.
Proof.
  intros (nd & q & Hget & Hq). destruct (String.eqb_spec k k') as [<- | Hne].
  - eexists _, p. rewrite (get_set_priority_eq g k p nd Hget). split; reflexivity.
  - exists nd, q. rewrite get_set_priority_ne by exact Hne. split; assumption.
Qed.

Lemma set_priority_written g k p :
  is_Some (Map_get g k) -> written (set_priority g k p) k.
Proof.
  intros [nd Hget]. eexists _, p.
  rewrite (get_set_priority_eq g k p nd Hget). split; reflexivity.
Qed.

Lemma keys_present (g g' : Graph) k :
  map fst g' = map fst g -> is_Some (Map_get g k) -> is_Some (Map_get g' k).
Proof.
  intros Hkeys. rewrite <- !not_eq_None_Some, !Map_get_None, Hkeys. exact id.
Qed.

Lemma Math_max_integer (ps : list number) :
  ps <> [] -> Forall (integerFrom (-1)) ps -> integerFrom (-1) (Math_max ps).
Proof.
  intros Hne H. induction H as [| q ps (a & -> & Ha) Hps IH]; [contradiction |].
  simpl. destruct ps as [| q' ps]; [exists a; split; [reflexivity | exact Ha] |].
  destruct IH as (b & -> & Hb); [discriminate |].
  exists (Z.max a b). split; [reflexivity | lia].
Qed.

Lemma blockLoop_natural dfs
    (Hdfs : forall g node g' p, dfs g node = Some (g', p) -> naturalPriorities g ->
              naturalPriorities g' /\ integerFrom (-1) p
              /\ forall k, written g k -> written g' k) :
  forall groups g acc g' ps,
    blockLoop dfs groups g acc = Some (g', ps) ->
    naturalPriorities g -> Forall (integerFrom (-1)) acc ->
    naturalPriorities g'
    /\ Forall (integerFrom (-1)) ps
    /\ length ps = (length acc + length groups)%nat
    /\ forall k, written g k -> written g' k.
Proof.
  induction groups as [| b groups IH]; simpl; intros g acc g' ps H Hn Hacc.
  - injection H as <- <-. repeat split; [assumption | assumption | lia | auto].
  - destruct (dfs g (Graph_get g b)) as [[g1 p] |] eqn:E; [| discriminate].
    destruct (Hdfs _ _ _ _ E Hn) as (Hn1 & Hp & Hw1).
    destruct (IH _ _ _ _ H Hn1) as (Hn' & Hps & Hlen & Hw').
    { apply Forall_app. split; [exact Hacc | constructor; [exact Hp | constructor]]. }
    repeat split; [assumption | assumption | | auto].
    rewrite Hlen, length_app. simpl. lia.
Qed.

(** A call that returns has written the priority of its node; all written
    priorities are natural numbers and stay written. *)
Lemma itemsArgSortDFS_natural :
  forall fuel g node g' p,
    itemsArgSortDFS fuel g node = Some (g', p) -> naturalPriorities g ->
    (naturalPriorities g' /\ integerFrom (-1) p
     /\ forall k, written g k -> written g' k)
    /\ forall k, node = Some k -> is_Some (Map_get g k) -> written g' k.
Proof.
  induction fuel as [| fuel IH]; intros g node g' p H Hn; [discriminate |].
  rewrite itemsArgSortDFS_S in H.
  destruct node as [key |].
  2: { injection H as <- <-. split; [| discriminate].
       repeat split; [assumption | exists (-1)%Z; split; [reflexivity | lia] | auto]. }
  destruct (Map_get g key) as [nd |] eqn:Hget.
  2: { injection H as <- <-. split.
       - repeat split; [assumption | exists (-1)%Z; split; [reflexivity | lia] | auto].
       - intros k Hk [x Hx]. injection Hk as <-. rewrite Hget in Hx. discriminate. }
  destruct (priority nd) as [q |] eqn:Hq.
  { injection H as <- <-. split.
    - repeat split; [assumption | | auto].
      destruct (Hn key nd q Hget Hq) as (z & -> & Hz). exists z. split; [reflexivity | lia].
    - intros k Hk _. injection Hk as <-. exists nd, q. split; assumption. }
  destruct (length (block nd) =? 0)%nat eqn:Hlen.
  - injection H as <- <-.
    assert (H0 : integerFrom 0 (Fin 0)) by (exists 0%Z; split; [reflexivity | lia]).
    split.
    + repeat split; [apply set_priority_natural; assumption
                    | exists 0%Z; split; [reflexivity | lia]
                    | intros k; apply set_priority_written_mono].
    + intros k Hk Hsome. injection Hk as <-. apply set_priority_written, Hsome.
  - destruct (blockLoop _ _ _ _) as [[g1 ps] |] eqn:E; [| discriminate].
    injection H as <- <-.
    destruct (blockLoop_natural _ (fun g node g' p H Hn => proj1 (IH g node g' p H Hn))
                _ _ _ _ _ E Hn (Forall_nil_2 _))
      as (Hn1 & Hps & Hl & Hw).
    destruct (Math_max_integer ps) as (m & Hm & Hm1); [| exact Hps |].
    { intros ->. simpl in Hl. apply Nat.eqb_neq in Hlen. lia. }
    rewrite Hm. simpl num_add.
    assert (Hp : integerFrom 0 (Fin (1 + m))) by (exists (1 + m)%Z; split; [reflexivity | lia]).
    split.
    + repeat split; [apply set_priority_natural; assumption
                    | exists (1 + m)%Z; split; [reflexivity | lia]
                    | intros k Hk; apply set_priority_written_mono, Hw, Hk].
    + intros k Hk Hsome. injection Hk as <-. apply set_priority_written.
      eapply keys_present; [| exact Hsome].
      eapply blockLoop_keys; [exact (itemsArgSortDFS_keys fuel) | exact E].
Qed.

Lemma traverse_natural fuel :
  forall keys g g',
    traverse fuel keys g = Some g' -> naturalPriorities g ->
    naturalPriorities g'
    /\ (forall k, written g k -> written g' k)
    /\ forall k, k ∈ keys -> is_Some (Map_get g k) -> written g' k.
Proof.
  induction keys as [| k0 keys IH]; simpl; intros g g' H Hn.
  - injection H as <-. repeat split; [assumption | auto |].
    intros k Hk. apply elem_of_nil in Hk. contradiction.
  - destruct (itemsArgSortDFS fuel g (Some k0)) as [[g1 p] |] eqn:E; [| discriminate].
    destruct (itemsArgSortDFS_natural _ _ _ _ _ E Hn) as [(Hn1 & _ & Hw1) Hk0].
    destruct (IH _ _ H Hn1) as (Hn' & Hw' & Hall).
    repeat split; [assumption | auto |].
    intros k Hk Hsome. apply elem_of_cons in Hk as [-> | Hk].
    + apply Hw', (Hk0 k0 eq_refl Hsome).
    + apply Hall; [exact Hk |].
      eapply keys_present; [eapply itemsArgSortDFS_keys, E | exact Hsome].
Qed.

(** X9: every entry of the record that [itemsArgSort] returns is a natural
    number; no entry is left undefined and none is infinite. *)
Theorem X9_record_values (E : Engine) (fuel : nat) (w : World) (character : cref)
    (itemList : list SimpleItem.t) (sortRecord : gmap string (option number))
    (group : string) (v : option number) :
  itemsArgSort E fuel w (JsArray itemList) character = Returned sortRecord ->
  sortRecord !! group = Some v ->
  exists z, v = Some (Fin z) /\ (0 <= z)%Z.
Proof.
  unfold itemsArgSort. intros H Hv.
  destruct (buildGraph E w character itemList []) as [g | |] eqn:Hbuild; try discriminate.
  destruct (traverse fuel (map fst g) g) as [g' |] eqn:Hrun; [| discriminate].
  injection H as <-.
  destruct (buildGraph_fresh E w character itemList [] g Hbuild)
    as [Hnd Hun]; [apply NoDup_nil_2 | intros k nd H; discriminate H |].
  pose proof (traverse_keys _ _ _ _ Hrun) as Hkeys.
  rewrite collect_lookup in Hv by (rewrite Hkeys; exact Hnd).
  destruct (traverse_natural _ _ _ _ Hrun) as (Hn & _ & Hall).
  { intros k nd p Hget Hp. rewrite (Hun k nd Hget) in Hp. discriminate. }
  destruct (Map_get g' group) as [nd |] eqn:Hget; [| discriminate].
  simpl in Hv. injection Hv as <-.
  assert (Hg : is_Some (Map_get g group)).
  { eapply keys_present; [symmetry; exact Hkeys | eauto]. }
  destruct (Hall group) as (nd' & p & Hget' & Hp);
    [destruct Hg as [x Hx]; eapply Map_get_In, Hx | exact Hg |].
  rewrite Hget in Hget'. injection Hget' as <-.
  destruct (Hn group nd p Hget Hp) as (z & -> & Hz).
  exists z. split; [exact Hp | exact Hz].
Qed.

Lemma X9_record_values_witness :
  exists z,
    Some (Fin 0) = Some (Fin z) /\ (0 <= z)%Z.
Proof.
  eapply (X9_record_values Demo.engine 2 Demo.world0 0%nat
            (map asSimpleItem Demo.dressAndMittens) _ "ItemHands");
    [reflexivity | vm_compute; reflexivity].
Defined.

(** ** Cycles *)

Lemma reaches_first g x y :
  reaches g x y ->
  exists nd b,
    Map_get g x = Some nd /\ b ∈ block nd /\ is_Some (Map_get g b)
    /\ (b = y \/ reaches g b y).
Proof.
  intros H. induction H as [k nd k' Hget Hin Hsome | k k' k'' _ IH1 H2 _].
  - exists nd, k'. repeat split; auto.
  - destruct IH1 as (nd & b & Hget & Hin & Hsome & [-> | Hb]).
    + exists nd, k'. repeat split; auto.
    + exists nd, b. repeat split; auto. right. eapply reaches_trans; eassumption.
Qed.

(** In a graph without written priorities the slots that lie on a cycle
    form a trap. *)
Lemma cycles_trap g : unresolved g -> trap (fun x => reaches g x x) g.
Proof.
  intros Hun x Hx. destruct (reaches_first g x x Hx) as (nd & b & Hget & Hin & Hsome & Hb).
  exists nd, b. repeat split; [exact Hget | eapply Hun, Hget | exact Hin |].
  destruct Hb as [-> | Hb]; [exact Hx |].
  eapply reaches_trans; [exact Hb |]. eapply reaches_step; eassumption.
Qed.

Lemma set_priority_trap P g k p : trap P g -> ~ P k -> trap P (set_priority g k p).
Proof.
  intros Ht Hk x Hx. destruct (Ht x Hx) as (nd & b & Hget & Hnone & Hin & Hb).
  exists nd, b. rewrite get_set_priority_ne by (intros ->; contradiction).
  repeat split; assumption.
Qed.

Lemma blockLoop_trap P dfs
    (Hdfs : forall g node g' p, dfs g node = Some (g', p) -> trap P g ->
              trap P g' /\ forall k, node = Some k -> ~ P k) :
  forall groups g acc g' ps,
    blockLoop dfs groups g acc = Some (g', ps) -> trap P g ->
    trap P g' /\ forall b, b ∈ groups -> ~ P b.
Proof.
  induction groups as [| b groups IH]; simpl; intros g acc g' ps H Ht.
  - injection H as <- _. split; [exact Ht |].
    intros b Hb. apply elem_of_nil in Hb. contradiction.
  - destruct (dfs g (Graph_get g b)) as [[g1 p] |] eqn:E; [| discriminate].
    destruct (Hdfs _ _ _ _ E Ht) as [Ht1 Hnode].
    destruct (IH _ _ _ _ H Ht1) as [Ht' Hrest].
    split; [exact Ht' |].
    intros b' Hb'. apply elem_of_cons in Hb' as [-> | Hb']; [| apply Hrest, Hb'].
    intros Hb. destruct (Ht b Hb) as (nd & _ & Hget & _).
    apply (Hnode b); [| exact Hb]. unfold Graph_get. rewrite Hget. reflexivity.
Qed.

(** A call that returns was not made on a slot of the trap, and leaves the
    trap in place. *)
Lemma itemsArgSortDFS_trap P :
  forall fuel g node g' p,
    itemsArgSortDFS fuel g node = Some (g', p) -> trap P g ->
    trap P g' /\ forall k, node = Some k -> ~ P k.
Proof.
  induction fuel as [| fuel IH]; intros g node g' p H Ht; [discriminate |].
  rewrite itemsArgSortDFS_S in H.
  destruct node as [key |]; [| injection H as <- _; split; [exact Ht | discriminate]].
  destruct (Map_get g key) as [nd |] eqn:Hget.
  2: { injection H as <- _. split; [exact Ht |].
       intros k Hk HP. injection Hk as <-.
       destruct (Ht key HP) as (nd & _ & Hget' & _). rewrite Hget in Hget'. discriminate. }
  destruct (priority nd) as [q |] eqn:Hq.
  { injection H as <- _. split; [exact Ht |].
    intros k Hk HP. injection Hk as <-.
    destruct (Ht key HP) as (nd' & _ & Hget' & Hnone & _).
    rewrite Hget in Hget'. injection Hget' as <-. rewrite Hq in Hnone. discriminate. }
  destruct (length (block nd) =? 0)%nat eqn:Hlen.
  - injection H as <- _.
    assert (Hkey : ~ P key).
    { intros HP. destruct (Ht key HP) as (nd' & b & Hget' & _ & Hin & _).
      rewrite Hget in Hget'. injection Hget' as <-.
      apply Nat.eqb_eq in Hlen. destruct (block nd); [| discriminate].
      apply elem_of_nil in Hin. contradiction. }
    split; [apply set_priority_trap; assumption |].
    intros k Hk. injection Hk as <-. exact Hkey.
  - destruct (blockLoop _ _ _ _) as [[g1 ps] |] eqn:E; [| discriminate].
    injection H as <- _.
    destruct (blockLoop_trap P _ (IH) _ _ _ _ _ E Ht) as [Ht1 Hblock].
    assert (Hkey : ~ P key).
    { intros HP. destruct (Ht key HP) as (nd' & b & Hget' & _ & Hin & Hb).
      rewrite Hget in Hget'. injection Hget' as <-. exact (Hblock b Hin Hb). }
    split; [apply set_priority_trap; assumption |].
    intros k Hk. injection Hk as <-. exact Hkey.
Qed.

Lemma traverse_trap P fuel :
  forall keys g g',
    traverse fuel keys g = Some g' -> trap P g -> forall k, k ∈ keys -> ~ P k.
Proof.
  induction keys as [| k0 keys IH]; simpl; intros g g' H Ht k Hk.
  - apply elem_of_nil in Hk. contradiction.
  - destruct (itemsArgSortDFS fuel g (Some k0)) as [[g1 p] |] eqn:E; [| discriminate].
    destruct (itemsArgSortDFS_trap P _ _ _ _ _ E Ht) as [Ht1 Hk0].
    apply elem_of_cons in Hk as [-> | Hk]; [apply Hk0; reflexivity |].
    eapply IH; eassumption.
Qed.

(** X10: when the graph built from the list has a cycle, [itemsArgSort]
    does not return, however deep the recursion is allowed to go; the same
    holds of a call of [itemsArgSortDFS] on a slot of the cycle. *)
Theorem X10_cycle_never_returns (E : Engine) (w : World) (character : cref)
    (itemList : list SimpleItem.t) (graph : Graph) (k : string) :
  buildGraph E w character itemList [] = Returned graph ->
  reaches graph k k ->
  forall fuel,
    itemsArgSortDFS fuel graph (Some k) = None
    /\ itemsArgSort E fuel w (JsArray itemList) character = OutOfFuel.
Proof.
  intros Hbuild Hk fuel.
  destruct (buildGraph_fresh E w character itemList [] graph Hbuild)
    as [_ Hun]; [apply NoDup_nil_2 | intros x nd H; discriminate H |].
  pose proof (cycles_trap graph Hun) as Ht.
  split.
  - destruct (itemsArgSortDFS fuel graph (Some k)) as [[g' p] |] eqn:Er; [| reflexivity].
    destruct (itemsArgSortDFS_trap _ _ _ _ _ _ Er Ht) as [_ Hno].
    exfalso. exact (Hno k eq_refl Hk).
  - unfold itemsArgSort. rewrite Hbuild.
    destruct (traverse fuel (map fst graph) graph) as [g' |] eqn:Er; [| reflexivity].
    exfalso. apply (traverse_trap _ _ _ _ _ Er Ht k); [| exact Hk].
    destruct (reaches_first graph k k Hk) as (nd & _ & Hget & _).
    eapply Map_get_In, Hget.
Qed.

Lemma X10_cycle_never_returns_witness :
  itemsArgSort Toy.engine 1000 Demo.world0 (JsArray Toy.ouroboros) 0%nat = OutOfFuel.
Proof.
  refine (proj2 (X10_cycle_never_returns Toy.engine Demo.world0 0%nat Toy.ouroboros
                   _ "a" eq_refl _ 1000%nat)).
  eapply reaches_step; [reflexivity | apply list_elem_of_here | eexists; reflexivity].
Defined.

(** ** The recursion bound of the embedding

    The bound on the depth of the recursion belongs to the embedding, not
    to the source.  It only ever shows as [OutOfFuel]: an answer obtained
    under one bound is the answer under every larger one. *)

Lemma blockLoop_more (dfs dfs' : Graph -> option string -> option (Graph * number))
    (H : forall g node r, dfs g node = Some r -> dfs' g node = Some r) :
  forall groups g acc r,
    blockLoop dfs groups g acc = Some r -> blockLoop dfs' groups g acc = Some r.
Proof.
  induction groups as [| b groups IH]; simpl; intros g acc r Hr; [exact Hr |].
  destruct (dfs g (Graph_get g b)) as [[g1 p] |] eqn:E; [| discriminate].
  rewrite (H _ _ _ E). apply IH, Hr.
Qed.

Lemma itemsArgSortDFS_more :
  forall fuel fuel' g node r,
    (fuel <= fuel')%nat ->
    itemsArgSortDFS fuel g node = Some r -> itemsArgSortDFS fuel' g node = Some r.
Proof.
  induction fuel as [| fuel IH]; intros fuel' g node r Hle H; [discriminate |].
  destruct fuel' as [| fuel']; [lia |].
  rewrite itemsArgSortDFS_S in *.
  destruct node as [key |]; [| exact H].
  destruct (Map_get g key) as [nd |]; [| exact H].
  destruct (priority nd); [exact H |].
  destruct (length (block nd) =? 0)%nat; [exact H |].
  destruct (blockLoop (itemsArgSortDFS fuel) _ _ _) as [[g1 ps] |] eqn:E; [| discriminate].
  rewrite (blockLoop_more _ (itemsArgSortDFS fuel')
             (fun g node r => IH fuel' g node r ltac:(lia)) _ _ _ _ E).
  exact H.
Qed.

Lemma traverse_more fuel fuel' :
  (fuel <= fuel')%nat ->
  forall keys g g', traverse fuel keys g = Some g' -> traverse fuel' keys g = Some g'.
Proof.
  intros Hle. induction keys as [| k keys IH]; simpl; intros g g' H; [exact H |].
  destruct (itemsArgSortDFS fuel g (Some k)) as [[g1 p] |] eqn:E; [| discriminate].
  rewrite (itemsArgSortDFS_more _ _ _ _ _ Hle E). apply IH, H.
Qed.

Lemma itemsArgSort_more (E : Engine) (fuel fuel' : nat) (w : World)
    (character : cref) (itemList : list SimpleItem.t) :
  (fuel <= fuel')%nat ->
  itemsArgSort E fuel w (JsArray itemList) character <> OutOfFuel ->
  itemsArgSort E fuel' w (JsArray itemList) character
  = itemsArgSort E fuel w (JsArray itemList) character.
Proof.
  intros Hle Hret. unfold itemsArgSort in *.
  destruct (buildGraph E w character _ []) as [g | |]; try reflexivity.
  destruct (traverse fuel (map fst g) g) as [g' |] eqn:Hrun; [| contradiction].
  rewrite (traverse_more _ _ Hle _ _ _ Hrun). reflexivity.
Qed.

(** ** Slot names of more than one character, and the order of the list *)

Lemma buildGraph_returns (E : Engine) (w : World) (character : cref) :
  forall itemList g0,
    allResolve E w character itemList ->
    exists g, buildGraph E w character itemList g0 = Returned g.
Proof.
  induction itemList as [| item rest IH]; simpl; intros g0 Hall; [eauto |].
  apply Forall_cons in Hall as [[asset Ha] Hrest]. rewrite Ha.
  destruct (negb _); apply IH, Hrest.
Qed.

(** X12: when every asset of the list resolves and the slot names have
    more than one character, [itemsArgSort] returns with a recursion depth
    of 2, and every priority in its record is 0. *)
Theorem X12_priorities_are_zero (E : Engine) (w : World) (character : cref)
    (itemList : list SimpleItem.t) (fuel : nat) :
  allResolve E w character itemList ->
  properNames itemList ->
  (2 <= fuel)%nat ->
  exists sortRecord,
    itemsArgSort E fuel w (JsArray itemList) character = Returned sortRecord
    /\ forall key, sortRecord !! key = None \/ sortRecord !! key = Some (Some (Fin 0)).
Proof.
  intros Hall Hnames Hfuel.
  destruct (buildGraph_returns E w character itemList [] Hall) as [g Hg].
  exact (itemsArgSort_all_zero E w character itemList g fuel Hg Hnames Hfuel).
Qed.

Lemma X12_priorities_are_zero_witness :
  exists sortRecord,
    itemsArgSort Demo.engine 2 Demo.world0
      (JsArray (map asSimpleItem Demo.cuffsAndMittens)) 0%nat = Returned sortRecord
    /\ forall key, sortRecord !! key = None \/ sortRecord !! key = Some (Some (Fin 0)).
Proof.
  apply (X12_priorities_are_zero Demo.engine Demo.world0 0%nat
           (map asSimpleItem Demo.cuffsAndMittens) 2).
  - repeat constructor; eexists; reflexivity.
  - repeat constructor; discriminate.
  - lia.
Defined.

(** X13: with the sort of V8, whenever [fortuneItemsSort] returns, it
    returns the list in the order in which it was given, whatever the
    priorities are. *)
Theorem X13_sort_keeps_input_order (E : Engine) (fuel : nat) (w : World)
    (itemList sorted : list FortuneWheelItem.t) (character : cref) :
  fortuneItemsSort E fuel w itemList character = Returned sorted ->
  sorted = itemList.
Proof.
  unfold fortuneItemsSort.
  destruct (itemsArgSort E fuel w _ character) as [sortRecord | |] eqn:H;
    try discriminate.
  intros Hs. injection Hs as <-.
  apply Array_sort_never_negative.
  intros a b. eapply sortKey_never_negative, H.
Qed.

Lemma X13_sort_keeps_input_order_witness :
  exists sorted,
    fortuneItemsSort Demo.engine 2 Demo.world0 Demo.cuffsAndMittens 0%nat = Returned sorted
    /\ sorted = Demo.cuffsAndMittens.
Proof.
  eexists. split; [reflexivity |].
  apply (X13_sort_keeps_input_order Demo.engine 2 Demo.world0 Demo.cuffsAndMittens _ 0%nat).
  reflexivity.
Defined.

(** ** The equip transaction as a whole *)

Lemma clearStep_keeps_outputs (E : Engine) (c : cref) (st : PassState)
    (item : FortuneWheelItem.t) (g : string) :
  g ∈ equipCallbackOutputs st -> g ∈ equipCallbackOutputs (clearStep E c st item).
Proof.
  intros Hg. unfold clearStep.
  destruct (AssetGet E _ _ _) as [asset |]; simpl; [| exact Hg].
  destruct (negb (callEquip item (world st))); simpl; [set_solver |].
  destruct (InventoryGet E _ _ _) as [oldItem |]; [| exact Hg].
  destruct (negb _); simpl; exact Hg.
Qed.

Lemma clearPass_keeps_outputs (E : Engine) (c : cref)
    (itemList : list FortuneWheelItem.t) (g : string) :
  forall st,
    g ∈ equipCallbackOutputs st ->
    g ∈ equipCallbackOutputs (clearPass E c itemList st).
Proof.
  unfold clearPass. induction itemList as [| item rest IH]; intros st Hg; [exact Hg |].
  simpl. apply IH, clearStep_keeps_outputs, Hg.
Qed.

(** X15: when the equip callback of a descriptor with a known asset
    answers false, the clearing step removes nothing and records nothing,
    and the equip pass passes over every descriptor of the list that
    targets the same slot, not only over the vetoed one. *)
Theorem X15_veto_suppresses_slot (E : Engine) (c : cref)
    (before after : list FortuneWheelItem.t) (Y : FortuneWheelItem.t)
    (st0 : PassState) (asset : Asset.t) :
  let st1 := clearPass E c before st0 in
  let st2 := clearStep E c st1 Y in
  let st3 := clearPass E c (before ++ Y :: after) st0 in
  AssetGet E (Character.AssetFamily (chars (world st1) c))
           (FortuneWheelItem.Group Y) (FortuneWheelItem.Name Y) = Some asset ->
  callEquip Y (world st1) = false ->
  world st2 = world st1
  /\ equipFailureRecord st2 = equipFailureRecord st1
  /\ forall Z fuel globalCallback w,
       FortuneWheelItem.Group Z = FortuneWheelItem.Group Y ->
       equipStep E fuel c globalCallback (equipFailureRecord st3)
                 (equipCallbackOutputs st3) w Z = Some w.
Proof.
  intros st1 st2 st3 Hasset Hequip.
  assert (Hst2 : st2 = {| world := world st1;
                          equipFailureRecord := equipFailureRecord st1;
                          equipCallbackOutputs :=
                            {[FortuneWheelItem.Group Y]} ∪ equipCallbackOutputs st1 |}).
  { unfold st2, clearStep. rewrite Hasset, Hequip. reflexivity. }
  assert (Hst3 : st3 = clearPass E c after st2).
  { unfold st3, st2, st1. rewrite clearPass_app. reflexivity. }
  clearbody st2 st3.
  split; [rewrite Hst2; reflexivity |]. split; [rewrite Hst2; reflexivity |].
  intros Z fuel globalCallback w HZ. unfold equipStep.
  destruct (AssetGet E _ (FortuneWheelItem.Group Z) _) as [assetZ |]; [| reflexivity].
  assert (Hin : FortuneWheelItem.Group Z ∈ equipCallbackOutputs st3).
  { rewrite Hst3, HZ. apply clearPass_keeps_outputs. rewrite Hst2. simpl. set_solver. }
  rewrite (bool_decide_eq_true_2 _ Hin), orb_true_r. reflexivity.
Qed.

Lemma X15_veto_suppresses_slot_witness :
  equipStep Demo.engine 3 0%nat None
    (equipFailureRecord (clearPass Demo.engine 0%nat [Toy.vetoedMittens] Toy.start))
    (equipCallbackOutputs (clearPass Demo.engine 0%nat [Toy.vetoedMittens] Toy.start))
    Demo.world0 (Demo.descriptor "Mittens" "ItemHands")
  = Some Demo.world0.
Proof.
  exact (proj2 (proj2
           (X15_veto_suppresses_slot Demo.engine 0%nat [] [] Toy.vetoedMittens Toy.start
              Demo.Mittens eq_refl eq_refl))
           (Demo.descriptor "Mittens" "ItemHands") 3 None Demo.world0 eq_refl).
Defined.

(** One step of the clearing pass either leaves the world alone or calls
    [InventoryRemove] on the slot of its descriptor. *)
Lemma clearStep_world (E : Engine) (c : cref) (st : PassState)
    (item : FortuneWheelItem.t) :
  world (clearStep E c st item) = world st
  \/ world (clearStep E c st item)
     = InventoryRemove E (world st) c (FortuneWheelItem.Group item).
Proof.
  unfold clearStep.
  destruct (AssetGet E _ _ _) as [asset |]; simpl; [| left; reflexivity].
  destruct (negb (callEquip item (world st))); simpl; [left; reflexivity |].
  destruct (InventoryGet E _ _ _) as [oldItem |]; [| left; reflexivity].
  destruct (negb _); simpl; [left | right]; reflexivity.
Qed.

(** X16: the clearing pass changes the world through [InventoryRemove]
    alone, called on slots that the list names, in the order of the list
    and at most once per descriptor. *)
Theorem X16_clearPass_only_removes (E : Engine) (c : cref)
    (itemList : list FortuneWheelItem.t) (st : PassState) :
  exists groups,
    groups `sublist_of` map FortuneWheelItem.Group itemList
    /\ world (clearPass E c itemList st)
       = fold_left (fun w g => InventoryRemove E w c g) groups (world st).
Proof.
  unfold clearPass. revert st.
  induction itemList as [| item rest IH]; intros st; simpl.
  - exists []. split; [constructor | reflexivity].
  - destruct (IH (clearStep E c st item)) as (groups & Hsub & Hw).
    destruct (clearStep_world E c st item) as [Hsame | Hrem].
    + exists groups. split; [apply sublist_cons, Hsub |]. rewrite Hw, Hsame. reflexivity.
    + exists (FortuneWheelItem.Group item :: groups).
      split; [apply sublist_skip, Hsub |]. rewrite Hw, Hrem. reflexivity.
Qed.

Lemma sublist_map {A B : Type} (f : A -> B) (l1 l2 : list A) :
  l1 `sublist_of` l2 -> map f l1 `sublist_of` map f l2.
Proof.
  intros H. induction H; simpl; [constructor | apply sublist_skip | apply sublist_cons];
    assumption.
Qed.

(** What one step of the clearing pass files, if anything. *)
Lemma clearStep_record (E : Engine) (c : cref) (st : PassState)
    (item : FortuneWheelItem.t) (k : string) (v : list string) :
  equipFailureRecord (clearStep E c st item) !! k = Some v ->
  equipFailureRecord st !! k = Some v
  \/ (k = FortuneWheelItem.Name item /\ v = ["Unknown asset"%string])
  \/ (exists family asset,
        AssetGet E family (FortuneWheelItem.Group item) (FortuneWheelItem.Name item)
        = Some asset
        /\ k = Asset.Description asset
        /\ v <> [] /\ v `sublist_of` blockerNames).
Proof.
  unfold clearStep.
  destruct (AssetGet E _ _ _) as [asset |] eqn:Hasset; simpl.
  - destruct (negb (callEquip item (world st))); simpl; [auto |].
    destruct (InventoryGet E _ _ _) as [oldItem |]; [| auto].
    destruct (length _ =? 0)%nat eqn:Hlen; simpl; [auto |].
    destruct (decide (Asset.Description asset = k)) as [<- | Hne].
    + rewrite lookup_insert_eq. intros Hv. injection Hv as <-.
      right. right. eexists _, asset. split; [exact Hasset |]. split; [reflexivity |].
      split.
      * intros Hnil. apply Nat.eqb_neq in Hlen. apply Hlen.
        apply (f_equal length) in Hnil. rewrite length_map in Hnil. exact Hnil.
      * change blockerNames
          with (map fst (equipChecks E (world st) c asset
                           (FortuneWheelItem.Group item) oldItem)).
        apply sublist_map, sublist_filter.
    + rewrite lookup_insert_ne by exact Hne. auto.
  - destruct (decide (FortuneWheelItem.Name item = k)) as [<- | Hne].
    + rewrite lookup_insert_eq. intros Hv. injection Hv as <-. auto.
    + rewrite lookup_insert_ne by exact Hne. auto.
Qed.

(** X17: an entry of the failure record after the clearing pass was there
    before the pass, or is the single reason "Unknown asset" filed under
    the name of a descriptor of the list, or is a non-empty selection of
    the four blocker names, in their fixed order, filed under the
    description of the asset of a descriptor of the list. *)
Theorem X17_failure_record_entries (E : Engine) (c : cref)
    (itemList : list FortuneWheelItem.t) (st : PassState) (k : string) (v : list string) :
  equipFailureRecord (clearPass E c itemList st) !! k = Some v ->
  equipFailureRecord st !! k = Some v
  \/ exists item,
       item ∈ itemList
       /\ ((k = FortuneWheelItem.Name item /\ v = ["Unknown asset"%string])
           \/ (exists family asset,
                 AssetGet E family (FortuneWheelItem.Group item)
                          (FortuneWheelItem.Name item) = Some asset
                 /\ k = Asset.Description asset
                 /\ v <> [] /\ v `sublist_of` blockerNames)).
Proof.
  unfold clearPass. revert st.
  induction itemList as [| item rest IH]; intros st; simpl; [auto |].
  intros Hv. destruct (IH _ Hv) as [Hstep | (x & Hin & Hx)].
  - destruct (clearStep_record E c st item k v Hstep) as [Hold | Hnew]; [auto |].
    right. exists item. split; [apply list_elem_of_here | exact Hnew].
  - right. exists x. split; [apply list_elem_of_further, Hin | exact Hx].
Qed.

Lemma X17_failure_record_entries_witness :
  (∅ : gmap string (list string)) !! "Leather Cuffs"%string
  = Some ["Locked item equiped"; "InventoryGroupIsBlocked"]%string
  \/ exists item,
       item ∈ Demo.cuffsAndMittens
       /\ (("Leather Cuffs"%string = FortuneWheelItem.Name item
            /\ ["Locked item equiped"; "InventoryGroupIsBlocked"]%string
               = ["Unknown asset"%string])
           \/ (exists family asset,
                 AssetGet Demo.engine family (FortuneWheelItem.Group item)
                          (FortuneWheelItem.Name item) = Some asset
                 /\ "Leather Cuffs"%string = Asset.Description asset
                 /\ ["Locked item equiped"; "InventoryGroupIsBlocked"]%string <> []
                 /\ ["Locked item equiped"; "InventoryGroupIsBlocked"]%string
                    `sublist_of` blockerNames)).
Proof.
  apply (X17_failure_record_entries Demo.engine 0%nat Demo.cuffsAndMittens
           {| world := Demo.world0; equipFailureRecord := ∅; equipCallbackOutputs := ∅ |}).
  vm_compute. reflexivity.
Defined.

(** X18: with an empty item list and no pre-run callback the transaction
    strips the character and refreshes it, and nothing else: the player is
    refreshed and announced to the chat room, any other character is
    refreshed only, and no failure is logged. *)
Theorem X18_empty_list (E : Engine) (fuel : nat) (name : string) (lvl : Z)
    (globalCallback : option (iref -> cref -> World -> World))
    (c : cref) (w w1 : World) :
  characterStrip lvl (Some c) w = (Returned tt, w1) ->
  fortuneWheelEquip E fuel name (JsArray []) lvl globalCallback None (Some c) w
  = (Returned tt,
     if Character.IsPlayer (chars w1 c)
     then ChatRoomCharacterUpdate E (CharacterRefresh E w1 c true false) c
     else CharacterRefresh E w1 c false false).
Proof.
  intros Hstrip. unfold fortuneWheelEquip. rewrite Hstrip. simpl.
  unfold finish. rewrite map_size_empty. simpl. reflexivity.
Qed.

Lemma X18_empty_list_witness :
  fortuneWheelEquip Demo.engine 0 "maid" (JsArray []) StripLevel.NONE None None
    (Some 0%nat) Demo.world0
  = (Returned tt, Demo.world0).
Proof.
  exact (X18_empty_list Demo.engine 0 "maid" StripLevel.NONE None 0%nat
           Demo.world0 Demo.world0 eq_refl).
Defined.

(** X19: a pre-run callback that hands back another list and leaves the
    world alone makes the transaction behave exactly as if that other list
    had been passed in without a callback: only its items are cleared and
    equipped. *)
Theorem X19_preRunCallback_replaces_list (E : Engine) (fuel : nat) (name : string)
    (l l' : list FortuneWheelItem.t) (lvl : Z)
    (globalCallback : option (iref -> cref -> World -> World))
    (preRunCallback :
       list FortuneWheelItem.t -> cref -> World -> list FortuneWheelItem.t * World)
    (c : cref) (w w1 : World) :
  characterStrip lvl (Some c) w = (Returned tt, w1) ->
  preRunCallback l c w1 = (l', w1) ->
  fortuneWheelEquip E fuel name (JsArray l) lvl globalCallback (Some preRunCallback)
    (Some c) w
  = fortuneWheelEquip E fuel name (JsArray l') lvl globalCallback None (Some c) w.
Proof.
  intros Hstrip Hpre. unfold fortuneWheelEquip. rewrite Hstrip, Hpre. reflexivity.
Qed.

Lemma X19_preRunCallback_replaces_list_witness :
  fortuneWheelEquip Demo.engine 3 "maid" (JsArray Demo.cuffsAndMittens) StripLevel.NONE
    None (Some (fun l _ w => (drop 1 l, w))) (Some 0%nat) Demo.world0
  = fortuneWheelEquip Demo.engine 3 "maid"
      (JsArray [Demo.descriptor "Mittens" "ItemHands"]) StripLevel.NONE
      None None (Some 0%nat) Demo.world0.
Proof.
  exact (X19_preRunCallback_replaces_list Demo.engine 3 "maid" Demo.cuffsAndMittens
           [Demo.descriptor "Mittens" "ItemHands"] StripLevel.NONE None
           (fun l _ w => (drop 1 l, w)) 0%nat Demo.world0 Demo.world0 eq_refl eq_refl).
Defined.

(** X20: when the equipped instance has no property bag, the merge (with
    [deepCopy] as the specification describes it) returns once the fuel
    covers the nesting of the declared bag, and gives the instance a newly
    allocated object that repeats the keys of the declared bag; the
    declared bag itself and every object that existed before stay as they
    were. *)
Theorem X20_property_copy_for_bare_instance (fuel n : nat) (w : World) (newItem : iref)
    (Property : loc) (declared : obj) :
  Item.Property (items w newItem) = None ->
  objs w !! Property = Some declared ->
  nestedb n (objs w) (VRef Property) = true ->
  (n <= fuel)%nat ->
  exists w' copy copied,
    mergeProperty fuel w newItem Property = Some w'
    /\ Item.Property (items w' newItem) = Some copy
    /\ (length (objs w) <= copy)%nat
    /\ copy <> Property
    /\ objs w' !! copy = Some copied
    /\ map fst copied = map fst declared
    /\ (forall l o, objs w !! l = Some o -> objs w' !! l = Some o).
Proof.
  intros Hnull Hdecl Hnest Hfuel.
  destruct (deepCopy_total n fuel (objs w) (VRef Property) Hnest Hfuel)
    as (h' & v' & Hcopy).
  destruct (deepCopy_object _ _ _ _ _ Hcopy) as (o & o' & ext & Ho & -> & -> & Hall).
  rewrite Hdecl in Ho. injection Ho as <-.
  eexists _, (length (objs w ++ ext)), o'.
  split; [unfold mergeProperty; rewrite Hnull, Hcopy; reflexivity |].
  split; [simpl; rewrite Nat.eqb_refl; reflexivity |].
  split; [rewrite length_app; lia |].
  split; [apply lookup_lt_Some in Hdecl; rewrite length_app; lia |].
  split; [simpl; rewrite app_assoc; apply list_lookup_middle; reflexivity |].
  split.
  - clear -Hall. induction Hall as [| [k v] [k' v'] ? ? [Hk _] _ IH]; [reflexivity |].
    simpl in *. subst k'. f_equal. exact IH.
  - intros l x Hl. simpl. apply lookup_app_l_Some, Hl.
Qed.

Lemma X20_property_copy_for_bare_instance_witness :
  exists w' copy copied,
    mergeProperty 2 Demo.world0 0%nat 1%nat = Some w'
    /\ Item.Property (items w' 0%nat) = Some copy
    /\ objs w' !! copy = Some copied
    /\ map fst copied = ["Difficulty"; "Effect"]%string.
Proof.
  destruct (X20_property_copy_for_bare_instance 2 2 Demo.world0 0%nat 1%nat
              [("Difficulty", VNumber 5); ("Effect", VRef 2)]%string
              eq_refl eq_refl eq_refl ltac:(lia))
    as (w' & copy & copied & Hrun & Hp & _ & _ & Hc & Hk & _).
  exists w', copy, copied. repeat split; assumption.
Defined.

(** X25: for a descriptor with a known asset that its callback does not
    veto, the clearing step does nothing at all when the slot is empty; and
    when the slot holds an occupant that can be unlocked and none of the
    three inventory checks fires, it calls [InventoryRemove] on the slot
    and records nothing. *)
Theorem X25_clearStep_clean (E : Engine) (c : cref) (st : PassState)
    (Y : FortuneWheelItem.t) (asset : Asset.t) :
  AssetGet E (Character.AssetFamily (chars (world st) c))
           (FortuneWheelItem.Group Y) (FortuneWheelItem.Name Y) = Some asset ->
  callEquip Y (world st) = true ->
  (InventoryGet E (world st) c (FortuneWheelItem.Group Y) = None ->
   clearStep E c st Y = st)
  /\ (forall X,
        InventoryGet E (world st) c (FortuneWheelItem.Group Y) = Some X ->
        canUnlock E (world st) X = true ->
        InventoryBlockedOrLimited E (world st) c asset = false ->
        InventoryAllow E (world st) c asset (Asset.Prerequisite asset) = true ->
        InventoryGroupIsBlocked E (world st) c (FortuneWheelItem.Group Y) = false ->
        clearStep E c st Y
        = {| world := InventoryRemove E (world st) c (FortuneWheelItem.Group Y);
             equipFailureRecord := equipFailureRecord st;
             equipCallbackOutputs := equipCallbackOutputs st |}).
Proof.
  intros Hasset Hequip. split.
  - intros Hnone. unfold clearStep. rewrite Hasset, Hequip, Hnone. reflexivity.
  - intros X Hold Hunlock H1 H2 H3. unfold clearStep.
    rewrite Hasset, Hequip, Hold. simpl negb. cbv iota.
    unfold equipChecks. rewrite Hunlock, H1, H2, H3. reflexivity.
Qed.

Lemma X25_clearStep_clean_witness :
  clearStep Demo.engine 0%nat Toy.start (Demo.descriptor "Mittens" "ItemHands")
  = Toy.start
  /\ Character.Appearance
       (chars (world (clearStep Demo.engine 0%nat Toy.start
                        (Demo.descriptor "Harness" "ItemTorso"))) 0%nat)
     = [0; 1; 3]%nat.
Proof.
  split.
  - exact (proj1 (X25_clearStep_clean Demo.engine 0%nat Toy.start
                    (Demo.descriptor "Mittens" "ItemHands") Demo.Mittens eq_refl eq_refl)
                 eq_refl).
  - rewrite (proj2 (X25_clearStep_clean Demo.engine 0%nat Toy.start
                      (Demo.descriptor "Harness" "ItemTorso") Demo.Harness eq_refl eq_refl)
                   2%nat eq_refl eq_refl eq_refl eq_refl eq_refl).
    reflexivity.
Defined.

(** ** Loading the stored wheel-of-fortune objects *)

Section ParseFWObjectsFacts.
Context {T RT Ex St : Type}.
Variable MAX : nat.
Variable trimArray : list (option T) -> nat -> list (option T).
Variable constructor : list (option RT) -> T -> St -> attempt Ex RT * St.
Variable registerOptions : RT -> bool -> St -> attempt Ex unit * St.
Variable console_warn : nat -> Ex -> St -> St.
Variable notExtensible : Ex.

Abbreviation entry := (parseEntry constructor registerOptions console_warn notExtensible).
Abbreviation loop := (forEachFrom constructor registerOptions console_warn notExtensible).
Abbreviation parse :=
  (parseFWObjects MAX trimArray constructor registerOptions console_warn notExtensible).

(** One entry changes at most its own position of the list. *)
Lemma parseEntry_spec i x wl s :
  (entry i x wl s).1 = wl
  \/ exists obj s0 wheelObject,
       x = Some obj /\ (i < length wl)%nat
       /\ (constructor wl obj s0).1 = Done wheelObject
       /\ (entry i x wl s).1 = <[i := Some wheelObject]> wl.
Proof.
  unfold parseEntry. destruct x as [obj |]; [| left; reflexivity].
  destruct (constructor wl obj s) as [[wheelObject | ex] s1] eqn:Hc; [| left; reflexivity].
  destruct (Nat.ltb_spec i (length wl)) as [Hi | Hi]; [| left; reflexivity].
  right. exists obj, s, wheelObject. rewrite Hc.
  repeat split; [exact Hi |].
  destruct (registerOptions wheelObject false s1) as [[u | ex] s2]; reflexivity.
Qed.

Lemma parseEntry_length i x wl s : length (entry i x wl s).1 = length wl.
Proof.
  destruct (parseEntry_spec i x wl s) as [-> | (obj & s0 & y & _ & _ & _ & ->)];
    [reflexivity | apply length_insert].
Qed.

Lemma forEachFrom_length :
  forall proto i wl s, length (loop i proto wl s).1 = length wl.
Proof.
  induction proto as [| x proto IH]; intros i wl s; [reflexivity |].
  simpl. pose proof (parseEntry_length i x wl s) as Hl.
  destruct (entry i x wl s) as [wl' s']. rewrite IH. exact Hl.
Qed.

Lemma parseFWObjects_length (protoWheelList : jsarg (option T)) (s : St) :
  length (parse protoWheelList s).1 = MAX.
Proof.
  unfold parseFWObjects. rewrite forEachFrom_length. apply length_replicate.
Qed.

(** X21: whatever was stored (not an array, too short, too long, entries
    that fail to load), [parseFWObjects] returns a list of exactly
    [FORTUNE_WHEEL_MAX_SETS] entries. *)
Theorem X21_parseFWObjects_length (protoWheelList : jsarg (option T)) (s : St) :
  length (parse protoWheelList s).1 = MAX.
Proof.
  unfold parseFWObjects.
  rewrite forEachFrom_length. apply length_replicate.
Qed.

Lemma forEachFrom_nulls :
  forall proto i wl s,
    Forall (fun x => x = None) proto -> loop i proto wl s = (wl, s).
Proof.
  induction proto as [| x proto IH]; intros i wl s H; [reflexivity |].
  apply Forall_cons in H as [-> H]. simpl. apply IH, H.
Qed.

(** X22: when what was stored is not an array, or is an array of at most
    [FORTUNE_WHEEL_MAX_SETS] nulls, every entry of the result is null and
    neither the constructor nor the console is touched. *)
Theorem X22_parseFWObjects_nothing_stored (protoWheelList : jsarg (option T)) (s : St) :
  match protoWheelList with
  | JsOther _ => True
  | JsArray l => (length l <= MAX)%nat /\ Forall (fun x => x = None) l
  end ->
  parse protoWheelList s = (replicate MAX None, s).
Proof.
  unfold parseFWObjects, padOrTrim. destruct protoWheelList as [l | ty].
  - intros [Hlen Hall]. destruct (Nat.ltb_spec MAX (length l)); [lia |].
    apply forEachFrom_nulls, Hall.
  - intros _. reflexivity.
Qed.

Lemma forEachFrom_below :
  forall proto i wl s j,
    (j < i)%nat -> (loop i proto wl s).1 !! j = wl !! j.
Proof.
  induction proto as [| x proto IH]; intros i wl s j Hj; [reflexivity |].
  simpl. pose proof (parseEntry_spec i x wl s) as Hstep.
  destruct (entry i x wl s) as [wl' s']. simpl in Hstep.
  rewrite IH by lia.
  destruct Hstep as [-> | (obj & s0 & z & _ & _ & _ & ->)]; [reflexivity |].
  apply list_lookup_insert_ne. lia.
Qed.

Lemma forEachFrom_app :
  forall l1 l2 i wl s,
    loop i (l1 ++ l2) wl s
    = loop (i + length l1) l2 (loop i l1 wl s).1 (loop i l1 wl s).2.
Proof.
  induction l1 as [| x l1 IH]; intros l2 i wl s; simpl.
  - rewrite Nat.add_0_r. reflexivity.
  - destruct (entry i x wl s) as [wl' s']. rewrite IH.
    replace (S i + length l1)%nat with (i + S (length l1))%nat by lia. reflexivity.
Qed.

Lemma forEachFrom_cons i x rest wl s :
  loop i (x :: rest) wl s = loop (S i) rest (entry i x wl s).1 (entry i x wl s).2.
Proof. simpl. destruct (entry i x wl s). reflexivity. Qed.

Lemma parseEntry_done i obj wl s y s2 :
  constructor wl obj s = (Done y, s2) -> (i < length wl)%nat ->
  (entry i (Some obj) wl s).1 = <[i := Some y]> wl.
Proof.
  intros Hc Hi. unfold parseEntry. rewrite Hc.
  destruct (Nat.ltb_spec i (length wl)) as [_ | Hge]; [| lia].
  destruct (registerOptions y false s2) as [[u | ex] s3]; reflexivity.
Qed.

Lemma forEachFrom_above :
  forall proto i wl s j,
    (i + length proto <= j)%nat -> (loop i proto wl s).1 !! j = wl !! j.
Proof.
  induction proto as [| x proto IH]; intros i wl s j Hj; [reflexivity |].
  simpl in Hj. rewrite forEachFrom_cons, IH by lia.
  destruct (parseEntry_spec i x wl s) as [-> | (obj & s0 & z & _ & _ & _ & ->)];
    [reflexivity |].
  apply list_lookup_insert_ne. lia.
Qed.

(** X23: the entry of the result at an index below
    [FORTUNE_WHEEL_MAX_SETS] is what the constructor returned when it was
    called for the object stored at that index, with the list and in the
    state that the entries before it had left behind; it is null when
    nothing or null is stored at that index, and when that call threw. *)
Theorem X23_parseFWObjects_entries (protoWheelList : jsarg (option T)) (s : St)
    (j : nat) :
  let proto := padOrTrim MAX trimArray protoWheelList in
  let sofar := loop O (take j proto) (replicate MAX None) s in
  (j < MAX)%nat ->
  (parse protoWheelList s).1 !! j
  = Some match proto !! j with
         | Some (Some obj) =>
             match (constructor sofar.1 obj sofar.2).1 with
             | Done wheelObject => Some wheelObject
             | Raised _ => None
             end
         | _ => None
         end.
Proof.
  intros proto sofar Hj. unfold parseFWObjects. fold proto.
  assert (Hl : length sofar.1 = MAX).
  { unfold sofar. rewrite forEachFrom_length. apply length_replicate. }
  assert (Hnull : sofar.1 !! j = Some None).
  { unfold sofar. rewrite forEachFrom_above by (rewrite length_take; simpl; lia).
    apply lookup_replicate. split; [reflexivity | exact Hj]. }
  destruct (proto !! j) as [x |] eqn:Hx.
  - rewrite <- (take_drop_middle proto j x Hx) at 1.
    rewrite forEachFrom_app. fold sofar.
    rewrite length_take_le by (apply Nat.lt_le_incl; eapply lookup_lt_Some, Hx).
    simpl Nat.add. rewrite forEachFrom_cons, forEachFrom_below by lia.
    destruct x as [obj |]; [| exact Hnull].
    unfold parseEntry.
    destruct (constructor sofar.1 obj sofar.2) as [[wheelObject | ex] s1]; [| exact Hnull].
    destruct (Nat.ltb_spec j (length sofar.1)) as [Hlt | Hge]; [| lia].
    simpl.
    destruct (registerOptions wheelObject false s1) as [[u | ex] s2];
      simpl; rewrite list_lookup_insert_eq by exact Hlt; reflexivity.
  - apply lookup_ge_None in Hx.
    rewrite forEachFrom_above by (simpl; lia).
    apply lookup_replicate. split; [reflexivity | exact Hj].
Qed.

(** X24: an object for which the constructor returns is kept in the list
    at its index (when that index is below [FORTUNE_WHEEL_MAX_SETS]),
    whether or not its registration throws afterwards, and whatever the
    later entries do. *)
Theorem X24_parseFWObjects_keeps_constructed (protoWheelList : jsarg (option T))
    (s s2 : St) (before after : list (option T)) (obj : T) (y : RT) :
  padOrTrim MAX trimArray protoWheelList = before ++ Some obj :: after ->
  (length before < MAX)%nat ->
  constructor (loop O before (replicate MAX None) s).1 obj
              (loop O before (replicate MAX None) s).2 = (Done y, s2) ->
  (parse protoWheelList s).1 !! length before = Some (Some y).
Proof.
  intros Hproto Hlen Hc. unfold parseFWObjects. rewrite Hproto, forEachFrom_app.
  simpl Nat.add.
  set (wl1 := (loop O before (replicate MAX None) s).1) in *.
  set (s1 := (loop O before (replicate MAX None) s).2) in *.
  assert (Hl : length wl1 = MAX).
  { unfold wl1. rewrite forEachFrom_length. apply length_replicate. }
  rewrite forEachFrom_cons, forEachFrom_below by lia.
  rewrite (parseEntry_done _ _ _ _ _ _ Hc) by lia.
  apply list_lookup_insert_eq. lia.
Qed.

End ParseFWObjectsFacts.

Example parseFWObjects_mixed :
  Stored.parse (JsArray [Some 1; None; Some 0; Some 4; Some 5]%nat)
  = ([Some 10; None; None]%nat, ["corrupted"%string]).
Proof. reflexivity. Qed.

Example parseFWObjects_failed_registration :
  Stored.parse (JsArray [None; Some 2]%nat)
  = ([None; Some 20; None]%nat, ["cannot register"%string]).
Proof. reflexivity. Qed.

Lemma X22_parseFWObjects_nothing_stored_witness :
  Stored.parse (JsArray [None; None]) = ([None; None; None], []).
Proof.
  apply (X22_parseFWObjects_nothing_stored 3 Stored.trimArray Stored.constructor
           Stored.registerOptions Stored.console_warn "TypeError"%string
           (JsArray [None; None]) []).
  split; [simpl; lia | repeat constructor].
Defined.

Lemma X23_parseFWObjects_entries_witness :
  (Stored.parse (JsArray [Some 0; Some 2]%nat)).1 !! 1%nat = Some (Some 20%nat)
  /\ (Stored.parse (JsArray [Some 0; Some 2]%nat)).1 !! 0%nat = Some None.
Proof.
  split.
  - refine (X23_parseFWObjects_entries 3 Stored.trimArray Stored.constructor
              Stored.registerOptions Stored.console_warn "TypeError"%string
              (JsArray [Some 0; Some 2]%nat) [] 1%nat _).
    lia.
  - refine (X23_parseFWObjects_entries 3 Stored.trimArray Stored.constructor
              Stored.registerOptions Stored.console_warn "TypeError"%string
              (JsArray [Some 0; Some 2]%nat) [] 0%nat _).
    lia.
Defined.

Lemma X24_parseFWObjects_keeps_constructed_witness :
  (Stored.parse (JsArray [None; Some 2]%nat)).1 !! 1%nat = Some (Some 20%nat).
Proof.
  apply (X24_parseFWObjects_keeps_constructed 3 Stored.trimArray Stored.constructor
           Stored.registerOptions Stored.console_warn "TypeError"%string
           (JsArray [None; Some 2]%nat) [] [] [None] [] 2%nat 20%nat);
    [reflexivity | simpl; lia | reflexivity].
Defined.
